(** * gini.py: the Gini coefficient of a ranked, weighted table

    A shallow embedding of [gini] from [src/gini.py] and the properties
    of it that the specification states.

    The function is written against two dataframe libraries (pandas and
    H2O).  The embedding keeps what the source does with them:

    - column entries are 64-bit integers and IEEE doubles in the source.
      The function is embedded in two arithmetics.  In the first a
      finite entry is an exact rational ([Qc]) and the three non-finite
      values that a division by a zero total produces are kept ([PInf],
      [NInf], [NaN]): this is the arithmetic of [gini] below and of the
      general theorems, which say so; it leaves out rounding, the
      wrap-around of integers and the overflow of doubles.  In the
      second the columns are [int64] and [float64] columns as pandas
      stores them, with wrap-around and with every operation rounded to
      the nearest double: this is [gini64], lines 47 to 59 and 76 to 89
      on a pandas frame of up to seven rows, on which the statements
      that depend on the arithmetic are evaluated;
    - a frame is a row count and a map from column labels to columns, so
      that an assignment to a label that is already there overwrites it,
      as in the source;
    - frames live in a heap of objects: [sort_values], [[[...]]] and
      [reset_index] allocate, [frame[k] = v] updates in place;
    - the sort itself is library code.  It is a parameter of the
      development ([Backends]) with the contract the libraries document
      ([BackendLaws]); [stable_backends] is one implementation of it. *)

From Stdlib Require Import QArith Qcanon Lqa.
From Stdlib Require SpecFloat.
From stdpp Require Import base numbers strings list sorting gmap fin_maps.

Local Open Scope Qc_scope.

(** * Part I: the program *)

(** ** Numbers *)

(** A column entry in exact arithmetic: a rational of any size, an
    infinity or [NaN].  The 64-bit integers and the doubles that a
    pandas column holds are in [column64] below. *)
Inductive num : Type :=
  | Fin (q : Qc)
  | PInf
  | NInf
  | NaN.

#[global] Instance num_inhabited : Inhabited num := populate NaN.
#[global] Instance Qc_inhabited : Inhabited Qc := populate 0.

#[global] Instance Fin_inj : Inj (=) (=) Fin.
Proof. by intros x y [=]. Qed.

Inductive sign : Type := Neg | Zero | Pos.

Definition Qc_sign (q : Qc) : sign :=
  match Qnum (this q) with
  | Z0 => Zero
  | Zpos _ => Pos
  | Zneg _ => Neg
  end.

Definition sign_mul (s1 s2 : sign) : sign :=
  match s1, s2 with
  | Zero, _ | _, Zero => Zero
  | Pos, Pos | Neg, Neg => Pos
  | Pos, Neg | Neg, Pos => Neg
  end.

(** The infinity of a given sign; [0 * inf] and [0 / 0] are [NaN]. *)
Definition inf_of (s : sign) : num :=
  match s with
  | Pos => PInf
  | Neg => NInf
  | Zero => NaN
  end.

Definition is_nan (a : num) : bool :=
  match a with NaN => true | _ => false end.


Definition num_neg (a : num) : num :=
  match a with
  | Fin x => Fin (- x)
  | PInf => NInf
  | NInf => PInf
  | NaN => NaN
  end.

Definition num_add (a b : num) : num :=
  match a, b with
  | NaN, _ | _, NaN => NaN
  | Fin x, Fin y => Fin (x + y)
  | PInf, NInf | NInf, PInf => NaN
  | PInf, _ | _, PInf => PInf
  | NInf, _ | _, NInf => NInf
  end.

Definition num_sub (a b : num) : num := num_add a (num_neg b).

Definition num_sign (a : num) : sign :=
  match a with
  | Fin x => Qc_sign x
  | PInf => Pos
  | NInf => Neg
  | NaN => Zero
  end.

Definition num_mul (a b : num) : num :=
  match a, b with
  | NaN, _ | _, NaN => NaN
  | Fin x, Fin y => Fin (x * y)
  | _, _ => inf_of (sign_mul (num_sign a) (num_sign b))
  end.

(** True division.  A finite value over zero is the infinity of its
    sign (the zero total of a column is [+0.0]), zero over zero is
    [NaN]; nothing is raised. *)
Definition num_div (a b : num) : num :=
  match a, b with
  | NaN, _ | _, NaN => NaN
  | Fin x, Fin y =>
      match Qc_sign y with
      | Zero => inf_of (Qc_sign x)
      | _ => Fin (x / y)
      end
  | Fin _, _ => Fin 0
  | _, Fin y =>
      match Qc_sign y with
      | Neg => num_neg a
      | _ => a
      end
  | _, _ => NaN
  end.

(** ** Columns *)

Abbreviation column := (list num).

(** [Series.sum()]: [skipna=True] is the default, a [NaN] entry counts
    for nothing and the sum of no entry is [0].  The columns of an
    [H2OFrame] are summed and accumulated by the same functions.  The
    sum is exact; the wrap-around of an [int64] total and the rounding
    and overflow of a [float64] total are in [series_sum] below. *)
Definition col_sum (c : column) : num :=
  foldr (λ x acc, if is_nan x then acc else num_add x acc) (Fin 0) c.

(** [Series.cumsum()]: with [skipna=True] a [NaN] entry stays [NaN] and
    leaves the running total as it was. *)
Fixpoint cumsum_from (acc : num) (c : column) : column :=
  match c with
  | [] => []
  | x :: c' =>
      if is_nan x then NaN :: cumsum_from acc c'
      else num_add acc x :: cumsum_from (num_add acc x) c'
  end.

Definition col_cumsum (c : column) : column := cumsum_from (Fin 0) c.

(** [series / scalar], [series - series], [series * series].  The two
    operands of the binary operations are columns of one frame, so they
    are aligned row by row. *)
Definition col_div (c : column) (s : num) : column := (λ x, num_div x s) <$> c.
Definition col_sub (a b : column) : column := zip_with num_sub a b.
Definition col_mul (a b : column) : column := zip_with num_mul a b.

(** Rows taken by position, in the order of [idx]. *)
Definition take_rows {A} `{Inhabited A} (idx : list nat) (c : list A) : list A :=
  (λ i, c !!! i) <$> idx.

(** ** Frames *)

(** A table: its number of rows and its columns by label.  Both a pandas
    [DataFrame] and an [H2OFrame] are seen this way; the row index of a
    pandas frame is not kept, [gini] resets it before it computes. *)
Record frame : Type := Frame { nrows : nat; cols : gmap string column }.

Definition frame_wf (f : frame) : Prop :=
  map_Forall (λ _ c, length c = nrows f) (cols f).

(** [frame[k] = c] *)
Definition set_col (k : string) (c : column) (f : frame) : frame :=
  Frame (nrows f) (<[k:=c]> (cols f)).

(** [frame[[k1, ..., kn]]], for labels that are all there. *)
Definition project (ks : list string) (f : frame) : frame :=
  Frame (nrows f) (list_to_map (omap (λ k, (k,.) <$> cols f !! k) ks)).

(** The rows of [f] in the order [idx]. *)
Definition permute (idx : list nat) (f : frame) : frame :=
  Frame (nrows f) (take_rows idx <$> cols f).

(** [c[::stride]] *)
Fixpoint every_from {A} (skip stride : nat) (c : list A) : list A :=
  match c with
  | [] => []
  | x :: c' =>
      match skip with
      | O => x :: every_from (stride - 1) stride c'
      | S k => every_from k stride c'
      end
  end.

Definition every {A} (stride : nat) (c : list A) : list A := every_from 0 stride c.

Definition subsample (stride : nat) (f : frame) : frame :=
  Frame (length (every stride (seq 0 (nrows f)))) (every stride <$> cols f).

(** ** The sort of the dataframe library

    [DataFrame.sort_values] and [H2OFrame.sort] are not code of this
    repository.  [argsort l keys ascending] is the order in which library
    [l] puts the rows of a frame whose [by] column is [keys]. *)

Inductive lib : Type := Pandas | H2O.

#[global] Instance lib_eq_dec : EqDecision lib.
Proof. solve_decision. Defined.

Class Backends : Type := { argsort : lib → column → bool → list nat }.

Definition dir_le (ascending : bool) : relation Qc :=
  if ascending then Qcle else flip Qcle.

#[global] Instance dir_le_dec ascending : RelDecision (dir_le ascending).
Proof. destruct ascending; simpl; apply _. Defined.

(** What the libraries promise of their sort: the rows come back
    reordered, none lost or repeated; the [by] column of the result is
    monotone in the direction asked for; and the order depends on the
    keys through their comparisons only.  Nothing is promised about rows
    with equal keys: [gini] asks for no particular algorithm. *)
Class BackendLaws (B : Backends) : Prop := {
  argsort_perm l keys asc :
    argsort l keys asc ≡ₚ seq 0 (length keys);
  argsort_sorted l (ks : list Qc) asc :
    Sorted (dir_le asc) (take_rows (argsort l (Fin <$> ks) asc) ks);
  argsort_by_order l (ks ks' : list Qc) asc :
    length ks = length ks' →
    (∀ i j x y x' y',
        ks !! i = Some x → ks !! j = Some y →
        ks' !! i = Some x' → ks' !! j = Some y' →
        (x ≤ y ↔ x' ≤ y')) →
    argsort l (Fin <$> ks) asc = argsort l (Fin <$> ks') asc
}.

(** ** Objects, the heap and the effects of a call *)

Inductive pyobj : Type :=
  | FrameObj (l : lib) (f : frame)
  | SeriesObj (c : column)
  | Opaque (tyname : string).

(** [str(type(o))].  An [Opaque] object stands for a value of any other
    class: it has the name of its type and none of the methods of a
    frame. *)
Definition type_str (o : pyobj) : string :=
  match o with
  | FrameObj Pandas _ => "<class 'pandas.core.frame.DataFrame'>"
  | FrameObj H2O _ => "<class 'h2o.frame.H2OFrame'>"
  | SeriesObj _ => "<class 'pandas.core.series.Series'>"
  | Opaque tyname => tyname
  end.

(** [needle in hay] on strings *)
Fixpoint contains (needle hay : string) : bool :=
  if String.prefix needle hay then true
  else match hay with
       | EmptyString => false
       | String _ hay' => contains needle hay'
       end.

Abbreviation loc := positive.

Inductive event : Type :=
  | Printed (s : string)
  | Plotted (x : column) (ys : list column)
  | Shown.

Record world : Type := World { heap : gmap loc pyobj; trace : list event }.

Inductive exn : Type :=
  | KeyError (k : string)
  | TypeError
  | AttributeError.

(** How a call ends.  [Unmodelled] marks what this development does not
    describe: a reference to no object, an operation on a frame that
    [gini] never performs, and the selection of one label twice
    ([weight = target]), whose meaning in pandas depends on its
    version. *)
Inductive outcome (A : Type) : Type :=
  | Returns (a : A)
  | Raises (e : exn)
  | Unmodelled.
Arguments Returns {A} a.
Arguments Raises {A} e.
Arguments Unmodelled {A}.

Definition py (A : Type) : Type := world → outcome A * world.

#[global] Instance py_ret : MRet py := λ A a σ, (Returns a, σ).
#[global] Instance py_bind : MBind py := λ A B k m σ,
  match m σ with
  | (Returns a, σ') => k a σ'
  | (Raises e, σ') => (Raises e, σ')
  | (Unmodelled, σ') => (Unmodelled, σ')
  end.

Definition raise {A} (e : exn) : py A := λ σ, (Raises e, σ).
Definition unmodelled {A} : py A := λ σ, (Unmodelled, σ).

Definition lookup_obj (o : loc) : py pyobj := λ σ,
  match heap σ !! o with
  | Some v => (Returns v, σ)
  | None => (Unmodelled, σ)
  end.

Definition alloc (v : pyobj) : py loc := λ σ,
  let o := fresh (dom (heap σ)) in
  (Returns o, World (<[o:=v]> (heap σ)) (trace σ)).

Definition store (o : loc) (v : pyobj) : py unit := λ σ,
  (Returns (), World (<[o:=v]> (heap σ)) (trace σ)).

Definition emit (ev : event) : py unit := λ σ,
  (Returns (), World (heap σ) (trace σ ++ [ev])).

Definition lookup_frame (o : loc) : py (lib * frame) :=
  v ← lookup_obj o;
  match v with
  | FrameObj l f => mret (l, f)
  | _ => unmodelled
  end.

(** ** The methods [gini] calls *)

(** [str(type(data))] *)
Definition type_of (o : loc) : py string :=
  v ← lookup_obj o; mret (type_str v).

(** [print(s)] *)
Definition print (s : string) : py unit := emit (Printed s).

Section methods.
Context `{B : Backends}.

(** [data.sort_values(by=by_, ascending=ascending)]: a method of a
    pandas [DataFrame], which returns a new frame.  A pandas [Series]
    has a [sort_values] that takes no [by]. *)
Definition sort_values (o : loc) (by_ : string) (ascending : bool) : py loc :=
  v ← lookup_obj o;
  match v with
  | FrameObj Pandas f =>
      match cols f !! by_ with
      | Some keys => alloc (FrameObj Pandas (permute (argsort Pandas keys ascending) f))
      | None => raise (KeyError by_)
      end
  | SeriesObj _ => raise TypeError
  | _ => raise AttributeError
  end.

(** [data.sort(by=by_, ascending=ascending)]: a method of an
    [H2OFrame], which returns a new frame. *)
Definition h2o_sort (o : loc) (by_ : string) (ascending : bool) : py loc :=
  v ← lookup_obj o;
  match v with
  | FrameObj H2O f =>
      match cols f !! by_ with
      | Some keys => alloc (FrameObj H2O (permute (argsort H2O keys ascending) f))
      | None => raise (KeyError by_)
      end
  | _ => raise AttributeError
  end.
End methods.

(** [frame[[k1, ..., kn]]]: a new frame with these columns. *)
Definition getitems (o : loc) (ks : list string) : py loc :=
  '(l, f) ← lookup_frame o;
  match filter (λ k, cols f !! k = None) ks with
  | k :: _ => raise (KeyError k)
  | [] => if decide (NoDup ks) then alloc (FrameObj l (project ks f)) else unmodelled
  end.

(** [frame[k]]: the column, a value. *)
Definition getitem (o : loc) (k : string) : py column :=
  '(_, f) ← lookup_frame o;
  match cols f !! k with
  | Some c => mret c
  | None => raise (KeyError k)
  end.

(** [frame[k] = c]: the frame itself is updated. *)
Definition setitem (o : loc) (k : string) (c : column) : py unit :=
  '(l, f) ← lookup_frame o; store o (FrameObj l (set_col k c f)).

(** [frame[k] = x] for a scalar [x]: one copy of it per row. *)
Definition setitem_scalar (o : loc) (k : string) (x : num) : py unit :=
  '(l, f) ← lookup_frame o; store o (FrameObj l (set_col k (replicate (nrows f) x) f)).

(** [frame.reset_index(drop=True)]: a new frame with the same columns. *)
Definition reset_index (o : loc) : py loc :=
  '(l, f) ← lookup_frame o; alloc (FrameObj l f).

(** [frame.shape[0]] *)
Definition shape0 (o : loc) : py nat :=
  '(_, f) ← lookup_frame o; mret (nrows f).

(** [frame.iloc[::stride]] *)
Definition iloc_stride (o : loc) (stride : nat) : py loc :=
  '(l, f) ← lookup_frame o; alloc (FrameObj l (subsample stride f)).

(** [frame[::stride, [k1, ..., kn]]] of an [H2OFrame]: a new frame with
    every [stride]-th row of these columns. *)
Definition h2o_slice (o : loc) (stride : nat) (ks : list string) : py loc :=
  '(l, f) ← lookup_frame o;
  match filter (λ k, cols f !! k = None) ks with
  | k :: _ => raise (KeyError k)
  | [] => alloc (FrameObj l (subsample stride (project ks f)))
  end.

(** [frame.as_data_frame()]: the pandas frame of an [H2OFrame]. *)
Definition as_data_frame (o : loc) : py loc :=
  '(_, f) ← lookup_frame o; alloc (FrameObj Pandas f).

(** [plt.plot(x, ys)] for a column [x] and a frame [ys], then
    [plt.show()]. *)
Definition plt_plot (x : column) (ys : loc) (ks : list string) : py unit :=
  '(_, f) ← lookup_frame ys; emit (Plotted x (omap (λ k, cols f !! k) ks)).

Definition plt_show : py unit := emit Shown.

(** ** [gini], lines 47 to 108 of [src/gini.py] *)

Section gini.
Context `{B : Backends}.

(** Lines 52 to 59 (pandas) and 63 to 69 (H2O): the rows sorted by the
    ranking column, the target and weight columns of them kept.  The
    result is the working frame and the label of its weight column. *)
Definition sorted_table (l : lib) (data : loc) (target ranking : string)
    (weight : option string) (ascending : bool) : py (loc * string) :=
  match l with
  | Pandas =>
      match weight with
      | None =>
          s ← sort_values data ranking ascending;
          sorted_data ← getitems s [target];
          let weight := "weight" in
          setitem_scalar sorted_data weight (Fin 1);;
          sorted_data ← reset_index sorted_data;
          mret (sorted_data, weight)
      | Some weight =>
          s ← sort_values data ranking ascending;
          sorted_data ← getitems s [target; weight];
          sorted_data ← reset_index sorted_data;
          mret (sorted_data, weight)
      end
  | H2O =>
      match weight with
      | None =>
          s ← h2o_sort data ranking ascending;
          sorted_data ← getitems s [target];
          let weight := "weight" in
          setitem_scalar sorted_data weight (Fin 1);;
          mret (sorted_data, weight)
      | Some weight =>
          s ← h2o_sort data ranking ascending;
          sorted_data ← getitems s [target; weight];
          mret (sorted_data, weight)
      end
  end.

(** Lines 76 and 77: rescale so sums are 1. *)
Definition rescale (sorted_data : loc) (target weight : string) : py unit :=
  t ← getitem sorted_data target;
  setitem sorted_data target (col_div t (col_sum t));;
  w ← getitem sorted_data weight;
  setitem sorted_data weight (col_div w (col_sum w)).

(** Lines 80 and 81: running totals. *)
Definition running_totals (sorted_data : loc) (target weight : string) : py unit :=
  t ← getitem sorted_data target;
  setitem sorted_data "cumul_total" (col_cumsum t);;
  w ← getitem sorted_data weight;
  setitem sorted_data "cumul_weight" (col_cumsum w).

(** Lines 85 to 89: the lift column and twice its sum, signed by the
    direction of the sort. *)
Definition gini_index (sorted_data : loc) (weight : string) (ascending : bool) : py num :=
  cw ← getitem sorted_data "cumul_weight";
  ct ← getitem sorted_data "cumul_total";
  w ← getitem sorted_data weight;
  setitem sorted_data "lift" (col_mul (col_sub cw ct) w);;
  lift ← getitem sorted_data "lift";
  if ascending then mret (num_mul (Fin 2) (col_sum lift))
  else mret (num_mul (Fin (-2)) (col_sum lift)).

(** Lines 95 to 99: [stride = int(n/1000)] above a thousand rows. *)
Definition stride_of (n : nat) : nat :=
  if decide (1000 < n)%nat then (n `div` 1000)%nat else 1%nat.

(** Lines 92 to 106: the Lorenz curve, subsampled. *)
Definition plot_lorenz (ty : string) (sorted_data : loc) : py unit :=
  n ← shape0 sorted_data;
  let stride := stride_of n in
  data_subsample ←
    (if contains "pandas" ty then
       s ← getitems sorted_data ["cumul_total"; "cumul_weight"];
       iloc_stride s stride
     else
       s ← h2o_slice sorted_data stride ["cumul_total"; "cumul_weight"];
       as_data_frame s);
  x ← getitem data_subsample "cumul_weight";
  ys ← getitems data_subsample ["cumul_total"; "cumul_weight"];
  plt_plot x ys ["cumul_total"; "cumul_weight"];;
  plt_show.

(** Lines 52 to 77 for a frame of library [l]: the working frame
    after the rescaling. *)
Definition normalized_table (l : lib) (data : loc) (target ranking : string)
    (weight : option string) (ascending : bool) : py (loc * string) :=
  p ← sorted_table l data target ranking weight ascending;
  rescale p.1 target p.2;;
  mret p.

(** Lines 79 to 108. *)
Definition gini_of_normalized (ty : string) (target : string) (plot ascending : bool)
    (p : loc * string) : py num :=
  running_totals p.1 target p.2;;
  gini_index ← gini_index p.1 p.2 ascending;
  (if plot then plot_lorenz ty p.1 else mret ());;
  mret gini_index.

Definition invalid_type_message (ty : string) : string :=
  "Error: Invalid data type " +:+ ty +:+ " . Expected Pandas DataFrame or H2OFrame.".

Definition gini (data : loc) (target : string) (ranking weight : option string)
    (plot ascending : bool) : py num :=
  let ranking := default target ranking in
  ty ← type_of data;
  if contains "pandas" ty then
    normalized_table Pandas data target ranking weight ascending
      ≫= gini_of_normalized ty target plot ascending
  else if contains "H2OFrame" ty then
    normalized_table H2O data target ranking weight ascending
      ≫= gini_of_normalized ty target plot ascending
  else
    print (invalid_type_message ty);;
    mret (Fin (-1)).

(** What the caller gets, and the world the call leaves. *)
Definition gini_result (σ : world) (data : loc) (target : string)
    (ranking weight : option string) (plot ascending : bool) : outcome num :=
  (gini data target ranking weight plot ascending σ).1.

Definition gini_world (σ : world) (data : loc) (target : string)
    (ranking weight : option string) (plot ascending : bool) : world :=
  (gini data target ranking weight plot ascending σ).2.
End gini.

(** ** A sort that keeps the contract

    Insertion sort on the row positions, by the keys: stable, with
    [NaN] keys last in both directions (the default [na_position] of
    pandas). *)

Definition num_leb (a b : num) : bool :=
  match a, b with
  | Fin x, Fin y => bool_decide (x ≤ y)
  | NInf, _ | _, PInf => true
  | _, _ => false
  end.

Definition key_leb (ascending : bool) (a b : num) : bool :=
  match a, b with
  | _, NaN => true
  | NaN, _ => false
  | _, _ => if ascending then num_leb a b else num_leb b a
  end.

Fixpoint insert_by (leb : nat → nat → bool) (i : nat) (l : list nat) : list nat :=
  match l with
  | [] => [i]
  | j :: l' => if leb i j then i :: l else j :: insert_by leb i l'
  end.

Definition isort_by (leb : nat → nat → bool) (l : list nat) : list nat :=
  foldr (insert_by leb) [] l.

Definition stable_argsort (keys : column) (ascending : bool) : list nat :=
  isort_by (λ i j, key_leb ascending (keys !!! i) (keys !!! j)) (seq 0 (length keys)).

Definition stable_backends : Backends := {| argsort := λ _, stable_argsort |}.

(** ** Datasets, calls and results in the statements *)

(** The number a decimal or a fraction denotes. *)
Definition rational (q : Q) : num := Fin (Q2Qc q).
Arguments rational q%_Q.

Definition rationals (l : list Q) : column := rational <$> l.

(** The sum of a column of rationals, and the column over its sum. *)
Definition qsum (l : list Qc) : Qc := foldr Qcplus 0 l.

Definition norm (l : list Qc) : list Qc := (λ x, x / qsum l) <$> l.

(** A world with one object, at address [1]. *)
Definition one_object (v : pyobj) : world := World {[ 1%positive := v ]} [].

(** The frame has a column labelled [k]. *)
Definition has (f : frame) (k : string) : Prop := is_Some (cols f !! k).

(** The label of the weight column of the working frame (line 55). *)
Definition wlabel (weight : option string) : string := default "weight" weight.

(** The weight column, when one is named, is a column of the frame and
    not the target column. *)
Definition weight_ok (f : frame) (target : string) (weight : option string) : Prop :=
  match weight with
  | Some w => has f w ∧ w ≠ target
  | None => True
  end.

(** The weight column, when one is named, is another column than the
    target, of rationals whose sum is not zero. *)
Definition weights_nonzero (f : frame) (target : string) (weight : option string) : Prop :=
  match weight with
  | Some w => w ≠ target ∧ ∃ W, cols f !! w = Some (Fin <$> W) ∧ qsum W ≠ 0
  | None => True
  end.


(** [sum (w_i - t_i) * w_i] over the rows, for the outcomes and the
    weights over their sums. *)
Definition gap (T W : list Qc) : Qc :=
  qsum (zip_with (λ t w, (w - t) * w) (norm T) (norm W)).

(** The frame with every entry of column [k] multiplied by [c]. *)
Definition scale_col (k : string) (c : num) (f : frame) : frame :=
  Frame (nrows f) (alter (fmap (num_mul c)) k (cols f)).



(** The call ended in an exception. *)
Definition raises {A} (r : outcome A) : Prop := ∃ e, r = Raises e.

(** A test that decides what a call returned, for evaluation. *)
Definition num_eqb (a b : num) : bool :=
  match a, b with
  | Fin x, Fin y => Qeq_bool (this x) (this y)
  | PInf, PInf | NInf, NInf | NaN, NaN => true
  | _, _ => false
  end.

Definition returns_value (r : outcome num) (v : num) : bool :=
  match r with
  | Returns a => num_eqb a v
  | _ => false
  end.

(** The tables of the scenarios. *)
Definition four_outcomes : frame :=
  Frame 4 {[ "outcome" := rationals [10; 20; 30; 40]%Q ]}.

Definition equal_outcomes : frame :=
  Frame 4 (list_to_map [("outcome", replicate 4 (rational 5));
                        ("score", rationals [0.3; 0.1; 0.4; 0.1]%Q)]).


Definition no_rows : frame := Frame 0 {[ "outcome" := [] ]}.

Definition policies : frame :=
  Frame 3 (list_to_map [("loss", rationals [0; 300; 100]%Q);
                        ("predicted", rationals [0.2; 0.9; 0.5]%Q);
                        ("exposure", rationals [1; 0.5; 2]%Q)]).

(** ** The working frame as a function of the input frame

    The definitions below restate lines 52 to 89 on frames as values;
    the lemmas of the next part show that [gini] computes them. *)

Definition upd (o : loc) (v : pyobj) (σ : world) : world :=
  World (<[o:=v]> (heap σ)) (trace σ).

Definition new (σ : world) : loc := fresh (dom (heap σ)).

Definition rescale_frame (target weight : string) (f : frame) : frame :=
  let f1 := set_col target (col_div (cols f !!! target) (col_sum (cols f !!! target))) f in
  set_col weight (col_div (cols f1 !!! weight) (col_sum (cols f1 !!! weight))) f1.

Definition totals_frame (target weight : string) (f : frame) : frame :=
  let f1 := set_col "cumul_total" (col_cumsum (cols f !!! target)) f in
  set_col "cumul_weight" (col_cumsum (cols f1 !!! weight)) f1.

Definition lift_col (weight : string) (f : frame) : column :=
  col_mul (col_sub (cols f !!! "cumul_weight") (cols f !!! "cumul_total"))
          (cols f !!! weight).

Definition signed (ascending : bool) (x : num) : num :=
  if ascending then num_mul (Fin 2) x else num_mul (Fin (-2)) x.

Definition table2 (n : nat) (target wl : string) (t w : column) : frame :=
  Frame n (<[wl:=w]> {[target:=t]}).

(** A column over its own sum. *)
Definition ndiv (c : column) : column := col_div c (col_sum c).

Definition coef_cols (ascending : bool) (t w : column) : num :=
  signed ascending
    (col_sum (col_mul (col_sub (col_cumsum (ndiv w)) (col_cumsum (ndiv t))) (ndiv w))).

Section working_frame.
Context `{B : Backends}.

Definition working_frame (l : lib) (f : frame) (target ranking : string)
    (weight : option string) (ascending : bool) : frame :=
  let s := permute (argsort l (cols f !!! ranking) ascending) f in
  match weight with
  | None => set_col "weight" (replicate (nrows f) (Fin 1)) (project [target] s)
  | Some w => project [target; w] s
  end.

Definition coefficient_of (l : lib) (f : frame) (target ranking : string)
    (weight : option string) (ascending : bool) : num :=
  let wl := wlabel weight in
  signed ascending
    (col_sum (lift_col wl (totals_frame target wl (rescale_frame target wl
       (working_frame l f target ranking weight ascending))))).

Definition sorted_col (l : lib) (f : frame) (ranking : string) (ascending : bool)
    (k : string) : column :=
  take_rows (argsort l (cols f !!! ranking) ascending) (cols f !!! k).

Definition weight_col (l : lib) (f : frame) (ranking : string) (ascending : bool)
    (weight : option string) : column :=
  match weight with
  | Some w => sorted_col l f ranking ascending w
  | None => replicate (nrows f) (Fin 1)
  end.
End working_frame.

(** The same on columns of rationals. *)

Fixpoint qcumsum (acc : Qc) (l : list Qc) : list Qc :=
  match l with
  | [] => []
  | x :: l' => (acc + x) :: qcumsum (acc + x) l'
  end.

Definition qlift (t w : list Qc) : list Qc :=
  zip_with Qcmult (zip_with Qcminus (qcumsum 0 w) (qcumsum 0 t)) w.

Definition qcoef (ascending : bool) (t w : list Qc) : Qc :=
  (if ascending then 2 else - 2) * qsum (qlift (norm t) (norm w)).

(** The summed lift of rows [(t, w)], from running totals [W] and [T]:
    the area between the curve and the diagonal. *)
Fixpoint area (W T : Qc) (tw : list (Qc * Qc)) : Qc :=
  match tw with
  | [] => 0
  | (t, w) :: r => (W + w - (T + t)) * w + area (W + w) (T + t) r
  end.

Definition ttot (tw : list (Qc * Qc)) : Qc := qsum (tw.*1).
Definition wtot (tw : list (Qc * Qc)) : Qc := qsum (tw.*2).

(** [keeps h P m]: run from a heap that extends [h], the call [m] ends
    in a heap that extends [h], and a value it returns satisfies [P]. *)
Definition keeps {A} (h : gmap loc pyobj) (P : A → Prop) (m : py A) : Prop :=
  ∀ σ, h ⊆ heap σ →
       h ⊆ heap (m σ).2 ∧ ∀ a, (m σ).1 = Returns a → P a.

Definition fresh_for (h : gmap loc pyobj) (o : loc) : Prop := h !! o = None.

(** ** The numbers of a pandas column

    The columns above hold exact rationals.  A pandas column holds
    64-bit integers ([int64]) or IEEE 754 doubles ([float64]): the sum
    of an [int64] column wraps around, the sum of a [float64] column
    overflows to an infinity, and every operation on doubles rounds to
    the nearest double, ties to even.  Lines 47 to 59 and 76 to 89 are
    embedded a second time below, on these numbers.  The doubles and
    their operations are those of [SpecFloat], with a precision of 53
    bits and the exponent 1024 of the infinities. *)

Abbreviation binary64 := SpecFloat.spec_float.

#[global] Instance binary64_inhabited : Inhabited binary64 := populate SpecFloat.S754_nan.

Definition b64_add : binary64 → binary64 → binary64 := SpecFloat.SFadd 53 1024.
Definition b64_sub : binary64 → binary64 → binary64 := SpecFloat.SFsub 53 1024.
Definition b64_mul : binary64 → binary64 → binary64 := SpecFloat.SFmul 53 1024.
Definition b64_div : binary64 → binary64 → binary64 := SpecFloat.SFdiv 53 1024.

Definition b64_zero : binary64 := SpecFloat.S754_zero false.

Definition b64_is_nan (x : binary64) : bool :=
  match x with SpecFloat.S754_nan => true | _ => false end.

(** The double nearest to [m * 2 ^ e], and the double an integer is
    converted to. *)
Definition b64 (m e : Z) : binary64 := SpecFloat.binary_normalize 53 1024 m e false.

Definition b64_of_Z (z : Z) : binary64 := b64 z 0.

(** The double that a decimal literal denotes: the one nearest to it.
    For a numerator and a denominator below [2 ^ 53] it is their
    quotient as doubles, which is rounded once. *)
Definition double (q : Q) : binary64 :=
  b64_div (b64_of_Z (Qnum q)) (b64_of_Z (Zpos (Qden q))).
Arguments double q%_Q.

(** The rational, or the infinity, that a double is. *)
Definition b64_exact (x : binary64) : num :=
  match x with
  | SpecFloat.S754_zero _ => Fin 0
  | SpecFloat.S754_infinity s => if s then NInf else PInf
  | SpecFloat.S754_nan => NaN
  | SpecFloat.S754_finite s m e =>
      Fin (Q2Qc (inject_Z (if s then Z.neg m else Z.pos m) * Qpower 2 e))
  end.

(** [x] is a finite double at most [tol] away from [q]. *)
Definition b64_within (tol : Q) (x : binary64) (q : Q) : bool :=
  match b64_exact x with
  | Fin v => Qle_bool (q - tol) (this v) && Qle_bool (this v) (q + tol)
  | _ => false
  end.
Arguments b64_within tol%_Q x q%_Q.

(** The 64-bit integer that an integer wraps around to. *)
Definition wrap64 (z : Z) : Z := ((z + 2 ^ 63) `mod` 2 ^ 64 - 2 ^ 63)%Z.

(** A column of a pandas frame, and the scalar that its sum is. *)
Inductive column64 : Type :=
  | Int64 (c : list Z)
  | Float64 (c : list binary64).

Inductive scalar64 : Type :=
  | IntVal (z : Z)
  | FloatVal (x : binary64).

#[global] Instance column64_inhabited : Inhabited column64 := populate (Float64 []).

Definition length64 (c : column64) : nat :=
  match c with
  | Int64 c => length c
  | Float64 c => length c
  end.

(** The entries as doubles: an integer is converted before it is
    divided, or combined with a double. *)
Definition doubles (c : column64) : list binary64 :=
  match c with
  | Int64 c => b64_of_Z <$> c
  | Float64 c => c
  end.

Definition scalar_double (s : scalar64) : binary64 :=
  match s with
  | IntVal z => b64_of_Z z
  | FloatVal x => x
  end.

(** The keys of a sort are compared by their exact values. *)
Definition keys64 (c : column64) : column :=
  match c with
  | Int64 c => (λ z, Fin (Q2Qc (inject_Z z))) <$> c
  | Float64 c => b64_exact <$> c
  end.

Definition take_rows64 (idx : list nat) (c : column64) : column64 :=
  match c with
  | Int64 c => Int64 (take_rows idx c)
  | Float64 c => Float64 (take_rows idx c)
  end.

(** A [NaN] counts as [0] in a sum and in a running total
    ([skipna=True]). *)
Definition b64_fill0 (x : binary64) : binary64 :=
  if b64_is_nan x then b64_zero else x.

(** [Series.sum()].  The sum of an [int64] column is an [int64]: it
    wraps around.  The doubles of a [float64] column are added from the
    left, each addition rounded; numpy adds in this order up to seven
    entries and in blocks from eight entries on, so [gini64] below stops
    at seven rows. *)
Definition series_sum (c : column64) : scalar64 :=
  match c with
  | Int64 c => IntVal (foldl (λ s x, wrap64 (s + x)) 0%Z c)
  | Float64 c => FloatVal (foldl b64_add b64_zero (b64_fill0 <$> c))
  end.

(** [series / scalar]: true division, on doubles whatever the operands
    are; a division by zero gives an infinity or [NaN]. *)
Definition series_div (c : column64) (s : scalar64) : column64 :=
  Float64 ((λ x, b64_div x (scalar_double s)) <$> doubles c).

(** [Series.cumsum()]: every running total is the one before plus the
    entry, rounded; a [NaN] entry stays [NaN] and adds nothing. *)
Fixpoint accumulate {A} (add : A → A → A) (acc : A) (c : list A) : list A :=
  match c with
  | [] => []
  | x :: c' => add acc x :: accumulate add (add acc x) c'
  end.

Definition running {A} (add : A → A → A) (c : list A) : list A :=
  match c with
  | [] => []
  | x :: c' => x :: accumulate add x c'
  end.

Definition series_cumsum (c : column64) : column64 :=
  match c with
  | Int64 c => Int64 (running (λ s x, wrap64 (s + x)) c)
  | Float64 c =>
      Float64 (zip_with (λ x r, if b64_is_nan x then SpecFloat.S754_nan else r)
                 c (running b64_add (b64_fill0 <$> c)))
  end.

(** [series - series] and [series * series], row by row. *)
Definition series_sub (a b : column64) : column64 :=
  match a, b with
  | Int64 a, Int64 b => Int64 (zip_with (λ x y, wrap64 (x - y)) a b)
  | _, _ => Float64 (zip_with b64_sub (doubles a) (doubles b))
  end.

Definition series_mul (a b : column64) : column64 :=
  match a, b with
  | Int64 a, Int64 b => Int64 (zip_with (λ x y, wrap64 (x * y)) a b)
  | _, _ => Float64 (zip_with b64_mul (doubles a) (doubles b))
  end.

(** [k * scalar] for a Python integer [k]. *)
Definition scalar_times (k : Z) (s : scalar64) : scalar64 :=
  match s with
  | IntVal z => IntVal (wrap64 (k * z))
  | FloatVal x => FloatVal (b64_mul (b64_of_Z k) x)
  end.

(** ** [gini] on a pandas frame, in the arithmetic of pandas

    What [gini] returns for a pandas frame whose columns are [data],
    line by line.  The plot of lines 92 to 106 does not change what is
    returned and is left out.  The sort is the same parameter as
    above.  A frame of eight rows or more is left unmodelled, for the
    order in which [Series.sum()] adds there, and so is the selection of
    one label twice ([weight = target]). *)

Section gini64.
Context `{B : Backends}.

(** Lines 53 to 59: the rows sorted by the ranking column, the target
    and the weight columns of them kept. *)
Definition sorted_table64 (data : gmap string column64) (target ranking : string)
    (weight : option string) (ascending : bool) : outcome (gmap string column64) :=
  match data !! ranking with
  | None => Raises (KeyError ranking)
  | Some keys =>
      let idx := argsort Pandas (keys64 keys) ascending in
      let sorted := take_rows64 idx <$> data in
      match weight with
      | None =>
          match sorted !! target with
          | None => Raises (KeyError target)
          | Some t => Returns (<["weight" := Int64 (replicate (length idx) 1%Z)]> {[ target := t ]})
          end
      | Some w =>
          match sorted !! target, sorted !! w with
          | None, _ => Raises (KeyError target)
          | _, None => Raises (KeyError w)
          | Some t, Some c =>
              if decide (w = target) then Unmodelled
              else Returns (<[w := c]> {[ target := t ]})
          end
      end
  end.

(** Lines 76 to 89 on the working frame: every assignment overwrites
    the column of its label, as in the source. *)
Definition gini_index64 (sorted_data : gmap string column64) (target weight : string)
    (ascending : bool) : scalar64 :=
  (* 76 *)
  let sd := <[target := series_div (sorted_data !!! target)
                          (series_sum (sorted_data !!! target))]> sorted_data in
  (* 77 *)
  let sd := <[weight := series_div (sd !!! weight) (series_sum (sd !!! weight))]> sd in
  (* 80 *)
  let sd := <["cumul_total" := series_cumsum (sd !!! target)]> sd in
  (* 81 *)
  let sd := <["cumul_weight" := series_cumsum (sd !!! weight)]> sd in
  (* 85 *)
  let sd := <["lift" := series_mul (series_sub (sd !!! "cumul_weight") (sd !!! "cumul_total"))
                          (sd !!! weight)]> sd in
  (* 86 to 89 *)
  if ascending then scalar_times 2 (series_sum (sd !!! "lift"))
  else scalar_times (-2) (series_sum (sd !!! "lift")).

(** Lines 47 to 89. *)
Definition gini64 (data : gmap string column64) (target : string)
    (ranking weight : option string) (ascending : bool) : outcome scalar64 :=
  let ranking := default target ranking in
  match sorted_table64 data target ranking weight ascending with
  | Returns sorted_data =>
      if decide (8 ≤ length64 (sorted_data !!! target))%nat then Unmodelled
      else Returns (gini_index64 sorted_data target (wlabel weight) ascending)
  | Raises e => Raises e
  | Unmodelled => Unmodelled
  end.

(** The target and the weight columns after line 77. *)
Definition normalized64 (data : gmap string column64) (target : string)
    (ranking weight : option string) (ascending : bool)
    : outcome (column64 * column64) :=
  let ranking := default target ranking in
  match sorted_table64 data target ranking weight ascending with
  | Returns sorted_data =>
      let weight := wlabel weight in
      let sd := <[target := series_div (sorted_data !!! target)
                              (series_sum (sorted_data !!! target))]> sorted_data in
      let sd := <[weight := series_div (sd !!! weight) (series_sum (sd !!! weight))]> sd in
      if decide (8 ≤ length64 (sorted_data !!! target))%nat then Unmodelled
      else Returns (sd !!! target, sd !!! weight)
  | Raises e => Raises e
  | Unmodelled => Unmodelled
  end.
End gini64.

(** Lines 76 to 89 as a function of the sorted outcomes [t] and
    weights [w]. *)
Definition coefficient64 (ascending : bool) (t w : column64) : scalar64 :=
  let t := series_div t (series_sum t) in
  let w := series_div w (series_sum w) in
  let lift := series_mul (series_sub (series_cumsum w) (series_cumsum t)) w in
  if ascending then scalar_times 2 (series_sum lift)
  else scalar_times (-2) (series_sum lift).

(** The table of the scenario with even steps, as pandas stores it. *)
Definition even_steps64 : gmap string column64 :=
  {[ "outcome" := Int64 [10; 20; 30; 40]%Z ]}.

(** The sums of the outcome and of the weight column of the working
    frame after line 77, in exact arithmetic. *)
Definition normalized_sums `{B : Backends} (l : lib) (data : loc) (target ranking : string)
    (weight : option string) (ascending : bool) (σ : world) : option (num * num) :=
  match normalized_table l data target ranking weight ascending σ with
  | (Returns (sd, wl), σ') =>
      match heap σ' !! sd with
      | Some (FrameObj _ g) =>
          t ← cols g !! target; w ← cols g !! wl; Some (col_sum t, col_sum w)
      | _ => None
      end
  | _ => None
  end.

(** ** What a call prints and plots *)

(** [quiet m]: the call [m] prints nothing and plots nothing. *)
Definition quiet {A} (m : py A) : Prop := ∀ σ, trace (m σ).2 = trace σ.

(** The events of lines 105 and 106 for the running totals [ct] of the
    outcome and [cw] of the weight, every [stride]-th row of them: one
    plot of both columns against the second, then the window. *)
Definition lorenz_events (stride : nat) (ct cw : column) : list event :=
  [Plotted (every stride cw) [every stride ct; every stride cw]; Shown].

(** The labels of a call, in the order in which [gini] looks them up. *)
Definition labels (target : string) (ranking weight : option string) : list string :=
  default target ranking :: target :: option_list weight.

(** Two columns of ranks that compare their rows alike. *)
Definition same_order (ks ks' : list Qc) : Prop :=
  length ks = length ks'
  ∧ ∀ i j x y x' y',
      ks !! i = Some x → ks !! j = Some y →
      ks' !! i = Some x' → ks' !! j = Some y' →
      (x ≤ y ↔ x' ≤ y').

(** The rational that a count is. *)
Definition qnat (n : nat) : Qc := Q2Qc (inject_Z (Z.of_nat n)).

(** The summed lift of outcomes [l] that all have the weight [u]. *)
Definition uarea (u : Qc) (l : list Qc) : Qc := area 0 0 ((λ x, (x, u)) <$> l).

(** The factor of lines 87 and 89. *)
Definition factor (ascending : bool) : Qc := if ascending then 2 else - 2.

(** * Part II: what [gini] computes *)

(** * Running the calls *)

Lemma bind_returns {A B} (m : py A) (k : A → py B) σ a σ' :
  m σ = (Returns a, σ') → (m ≫= k) σ = k a σ'.
Proof. intros E. unfold mbind, py_bind. by rewrite E. Qed.

Lemma heap_upd o v σ : heap (upd o v σ) !! o = Some v.
Proof. apply lookup_insert_eq. Qed.

Lemma upd_upd o v v' σ : upd o v' (upd o v σ) = upd o v' σ.
Proof. unfold upd; simpl. by rewrite insert_insert_eq. Qed.

Section run.
Context (σ : world) (o : loc) (l : lib) (f : frame).
Hypothesis Ho : heap σ !! o = Some (FrameObj l f).

Lemma lookup_frame_run : lookup_frame o σ = (Returns (l, f), σ).
Proof using Ho. unfold lookup_frame, lookup_obj, mbind, py_bind. by rewrite Ho. Qed.

Lemma getitem_run k c : cols f !! k = Some c → getitem o k σ = (Returns c, σ).
Proof using Ho.
  intros Hk. unfold getitem. rewrite (bind_returns _ _ _ _ _ lookup_frame_run).
  by rewrite Hk.
Qed.

Lemma setitem_run k c :
  setitem o k c σ = (Returns (), upd o (FrameObj l (set_col k c f)) σ).
Proof using Ho. unfold setitem. by rewrite (bind_returns _ _ _ _ _ lookup_frame_run). Qed.

Lemma setitem_scalar_run k x :
  setitem_scalar o k x σ
  = (Returns (), upd o (FrameObj l (set_col k (replicate (nrows f) x) f)) σ).
Proof using Ho.
  unfold setitem_scalar. by rewrite (bind_returns _ _ _ _ _ lookup_frame_run).
Qed.

Lemma shape0_run : shape0 o σ = (Returns (nrows f), σ).
Proof using Ho. unfold shape0. by rewrite (bind_returns _ _ _ _ _ lookup_frame_run). Qed.

Lemma reset_index_run :
  reset_index o σ = (Returns (new σ), upd (new σ) (FrameObj l f) σ).
Proof using Ho. unfold reset_index. by rewrite (bind_returns _ _ _ _ _ lookup_frame_run). Qed.

Lemma iloc_stride_run s :
  iloc_stride o s σ = (Returns (new σ), upd (new σ) (FrameObj l (subsample s f)) σ).
Proof using Ho. unfold iloc_stride. by rewrite (bind_returns _ _ _ _ _ lookup_frame_run). Qed.

Lemma as_data_frame_run :
  as_data_frame o σ = (Returns (new σ), upd (new σ) (FrameObj Pandas f) σ).
Proof using Ho. unfold as_data_frame. by rewrite (bind_returns _ _ _ _ _ lookup_frame_run). Qed.

Lemma getitems_run ks :
  Forall (λ k, is_Some (cols f !! k)) ks → NoDup ks →
  getitems o ks σ = (Returns (new σ), upd (new σ) (FrameObj l (project ks f)) σ).
Proof using Ho.
  intros Hks Hnd. unfold getitems. rewrite (bind_returns _ _ _ _ _ lookup_frame_run).
  assert (filter (λ k, cols f !! k = None) ks = []) as ->.
  { clear Hnd. induction Hks as [|k ks [c Hc] _ IH]; [done|].
    by rewrite filter_cons, decide_False by (by rewrite Hc). }
  by rewrite decide_True.
Qed.

Lemma h2o_slice_run s ks :
  Forall (λ k, is_Some (cols f !! k)) ks →
  h2o_slice o s ks σ
  = (Returns (new σ), upd (new σ) (FrameObj l (subsample s (project ks f))) σ).
Proof using Ho.
  intros Hks. unfold h2o_slice. rewrite (bind_returns _ _ _ _ _ lookup_frame_run).
  assert (filter (λ k, cols f !! k = None) ks = []) as ->; [|done].
  induction Hks as [|k ks [c Hc] _ IH]; [done|].
  by rewrite filter_cons, decide_False by (by rewrite Hc).
Qed.

Lemma plt_plot_run x ks :
  plt_plot x o ks σ = emit (Plotted x (omap (λ k, cols f !! k) ks)) σ.
Proof using Ho. unfold plt_plot. by rewrite (bind_returns _ _ _ _ _ lookup_frame_run). Qed.
End run.

(** * The working frame, as a function of the input frame *)

Lemma has_lookup f k : has f k → cols f !! k = Some (cols f !!! k).
Proof. apply lookup_lookup_total. Qed.

Lemma has_set_col f k k' c : has f k → has (set_col k' c f) k.
Proof. unfold has; simpl. rewrite lookup_insert_is_Some. destruct (decide (k' = k)); auto. Qed.

Lemma has_set_col_eq f k c : has (set_col k c f) k.
Proof. unfold has; simpl. by rewrite lookup_insert_eq. Qed.

Section tail.
Context `{B : Backends}.
Context (σ : world) (o : loc) (l : lib) (f : frame) (target weight : string).
Hypothesis Ho : heap σ !! o = Some (FrameObj l f).
Hypothesis Ht : has f target.
Hypothesis Hw : has f weight.

Lemma rescale_run :
  rescale o target weight σ
  = (Returns (), upd o (FrameObj l (rescale_frame target weight f)) σ).
Proof using Ho Ht Hw.
  unfold rescale.
  rewrite (bind_returns _ _ _ _ _ (getitem_run _ _ _ _ Ho _ _ (has_lookup _ _ Ht))).
  rewrite (bind_returns _ _ _ _ _ (setitem_run _ _ _ _ Ho _ _)).
  set (f1 := set_col target _ f).
  assert (has f1 weight) as Hw1 by by apply has_set_col.
  rewrite (bind_returns _ _ _ _ _
             (getitem_run _ _ _ _ (heap_upd _ _ _) _ _ (has_lookup _ _ Hw1))).
  rewrite (setitem_run _ _ _ _ (heap_upd _ _ _)). by rewrite upd_upd.
Qed.

Lemma running_totals_run :
  running_totals o target weight σ
  = (Returns (), upd o (FrameObj l (totals_frame target weight f)) σ).
Proof using Ho Ht Hw.
  unfold running_totals.
  rewrite (bind_returns _ _ _ _ _ (getitem_run _ _ _ _ Ho _ _ (has_lookup _ _ Ht))).
  rewrite (bind_returns _ _ _ _ _ (setitem_run _ _ _ _ Ho _ _)).
  set (f1 := set_col "cumul_total" _ f).
  assert (has f1 weight) as Hw1 by by apply has_set_col.
  rewrite (bind_returns _ _ _ _ _
             (getitem_run _ _ _ _ (heap_upd _ _ _) _ _ (has_lookup _ _ Hw1))).
  rewrite (setitem_run _ _ _ _ (heap_upd _ _ _)). by rewrite upd_upd.
Qed.

Lemma gini_index_run ascending :
  has f "cumul_weight" → has f "cumul_total" →
  gini_index o weight ascending σ
  = (Returns (signed ascending (col_sum (lift_col weight f))),
     upd o (FrameObj l (set_col "lift" (lift_col weight f) f)) σ).
Proof using Ho Hw.
  intros Hcw Hct. unfold gini_index.
  rewrite (bind_returns _ _ _ _ _ (getitem_run _ _ _ _ Ho _ _ (has_lookup _ _ Hcw))).
  rewrite (bind_returns _ _ _ _ _ (getitem_run _ _ _ _ Ho _ _ (has_lookup _ _ Hct))).
  rewrite (bind_returns _ _ _ _ _ (getitem_run _ _ _ _ Ho _ _ (has_lookup _ _ Hw))).
  rewrite (bind_returns _ _ _ _ _ (setitem_run _ _ _ _ Ho _ _)).
  fold (lift_col weight f).
  rewrite (bind_returns _ _ _ _ _
             (getitem_run _ _ _ _ (heap_upd _ _ _) _ _ (lookup_insert_eq _ _ _))).
  by destruct ascending.
Qed.

Lemma plot_lorenz_run ty :
  has f "cumul_weight" → has f "cumul_total" →
  ∃ σ', plot_lorenz ty o σ = (Returns (), σ').
Proof using Ho.
  intros Hcw Hct. unfold plot_lorenz.
  rewrite (bind_returns _ _ _ _ _ (shape0_run _ _ _ _ Ho)).
  set (ks := ["cumul_total"; "cumul_weight"]).
  assert (NoDup ks) as Hnd.
  { apply NoDup_cons. split; [|apply NoDup_singleton].
    intros Hin%list_elem_of_singleton. discriminate Hin. }
  assert (∀ g, has g "cumul_weight" → has g "cumul_total" →
               Forall (λ k, is_Some (cols g !! k)) ks) as Hks.
  { intros g ??. by repeat constructor. }
  assert (∀ g, has g "cumul_weight" → has g "cumul_total" →
               has (project ks g) "cumul_weight" ∧ has (project ks g) "cumul_total")
    as Hproj.
  { intros g [cw Hg1] [ct Hg2]. unfold has, project; simpl. rewrite Hg1, Hg2. simpl.
    split; [rewrite lookup_insert_ne by done|]; rewrite lookup_insert_eq; eauto. }
  assert (∀ g s, has g "cumul_weight" → has g "cumul_total" →
               has (subsample s g) "cumul_weight" ∧ has (subsample s g) "cumul_total")
    as Hsub.
  { intros g s [cw Hg1] [ct Hg2]. unfold has, subsample; simpl.
    rewrite !lookup_fmap, Hg1, Hg2. eauto. }
  assert (∃ q g σ1, (if contains "pandas" ty
                     then s ← getitems o ks; iloc_stride s (stride_of (nrows f))
                     else s ← h2o_slice o (stride_of (nrows f)) ks; as_data_frame s) σ
                    = (Returns q, σ1)
                    ∧ (∃ l', heap σ1 !! q = Some (FrameObj l' g))
                    ∧ has g "cumul_weight" ∧ has g "cumul_total")
    as (q & g & σ1 & E & [l' Hq] & Hg1 & Hg2).
  { destruct (Hproj f Hcw Hct) as [Hp1 Hp2].
    destruct (Hsub (project ks f) (stride_of (nrows f)) Hp1 Hp2) as [Hs1 Hs2].
    destruct (contains "pandas" ty).
    - rewrite (bind_returns _ _ _ _ _ (getitems_run _ _ _ _ Ho _ (Hks _ Hcw Hct) Hnd)).
      rewrite (iloc_stride_run _ _ _ _ (heap_upd _ _ _)).
      do 3 eexists. split; [done|]. split; [|done]. eexists. apply heap_upd.
    - rewrite (bind_returns _ _ _ _ _ (h2o_slice_run _ _ _ _ Ho _ _ (Hks _ Hcw Hct))).
      rewrite (as_data_frame_run _ _ _ _ (heap_upd _ _ _)).
      do 3 eexists. split; [done|]. split; [|done]. eexists. apply heap_upd. }
  rewrite (bind_returns _ _ _ _ _ E).
  rewrite (bind_returns _ _ _ _ _ (getitem_run _ _ _ _ Hq _ _ (has_lookup _ _ Hg1))).
  rewrite (bind_returns _ _ _ _ _ (getitems_run _ _ _ _ Hq _ (Hks _ Hg1 Hg2) Hnd)).
  rewrite (bind_returns _ _ _ _ _ (plt_plot_run _ _ _ _ (heap_upd _ _ _) _ _)).
  eexists. reflexivity.
Qed.
End tail.

Lemma has_permute idx f k : has f k → has (permute idx f) k.
Proof. intros [c Hc]. unfold has, permute; simpl. rewrite lookup_fmap, Hc. eauto. Qed.

Lemma has_project1 f k : has f k → has (project [k] f) k.
Proof.
  intros [c Hc]. unfold has, project; simpl. rewrite Hc; simpl.
  rewrite lookup_insert_eq. eauto.
Qed.

Lemma has_project2 f k1 k2 :
  has f k1 → has f k2 → has (project [k1; k2] f) k1 ∧ has (project [k1; k2] f) k2.
Proof.
  intros [c1 Hc1] [c2 Hc2]. unfold has, project; simpl. rewrite Hc1, Hc2; simpl.
  rewrite lookup_insert_eq. split; [eauto|].
  destruct (decide (k1 = k2)) as [->|].
  - rewrite lookup_insert_eq. eauto.
  - rewrite lookup_insert_ne, lookup_insert_eq by done. eauto.
Qed.

Section gini_run.
Context `{B : Backends}.

Lemma working_frame_has l f target ranking weight ascending :
  has f target → weight_ok f target weight →
  has (working_frame l f target ranking weight ascending) target
  ∧ has (working_frame l f target ranking weight ascending) (wlabel weight).
Proof.
  intros Ht Hw. unfold working_frame. destruct weight as [w|]; simpl.
  - destruct Hw as [Hw' _]. apply has_project2; by apply has_permute.
  - split; [apply has_set_col, has_project1; by apply has_permute|].
    apply has_set_col_eq.
Qed.

Lemma sort_values_run σ data f ranking ascending :
  heap σ !! data = Some (FrameObj Pandas f) → has f ranking →
  sort_values data ranking ascending σ
  = (Returns (new σ),
     upd (new σ)
       (FrameObj Pandas (permute (argsort Pandas (cols f !!! ranking) ascending) f)) σ).
Proof.
  intros Hdata Hr. unfold sort_values, lookup_obj, mbind, py_bind. rewrite Hdata.
  by rewrite (has_lookup _ _ Hr).
Qed.

Lemma h2o_sort_run σ data f ranking ascending :
  heap σ !! data = Some (FrameObj H2O f) → has f ranking →
  h2o_sort data ranking ascending σ
  = (Returns (new σ),
     upd (new σ)
       (FrameObj H2O (permute (argsort H2O (cols f !!! ranking) ascending) f)) σ).
Proof.
  intros Hdata Hr. unfold h2o_sort, lookup_obj, mbind, py_bind. rewrite Hdata.
  by rewrite (has_lookup _ _ Hr).
Qed.

Lemma sorted_table_run σ data l f target ranking weight ascending :
  heap σ !! data = Some (FrameObj l f) →
  has f ranking → has f target → weight_ok f target weight →
  ∃ sd σ',
    sorted_table l data target ranking weight ascending σ
    = (Returns (sd, wlabel weight), σ')
    ∧ heap σ' !! sd
      = Some (FrameObj l (working_frame l f target ranking weight ascending)).
Proof.
  intros Hdata Hr Ht Hw.
  set (s := permute (argsort l (cols f !!! ranking) ascending) f).
  assert (has s target) as Hst by by apply has_permute.
  assert (NoDup [target]) as Hnd1 by apply NoDup_singleton.
  assert (Forall (λ k, is_Some (cols s !! k)) [target]) as Hks1 by by repeat constructor.
  unfold sorted_table, working_frame. fold s.
  destruct l, weight as [w|]; simpl in Hw.
  - destruct Hw as [Hw' Hne].
    assert (NoDup [target; w]) as Hnd2.
    { apply NoDup_cons. split; [|apply NoDup_singleton].
      by intros ->%list_elem_of_singleton. }
    assert (Forall (λ k, is_Some (cols s !! k)) [target; w]) as Hks2.
    { repeat constructor; [done|]. by apply has_permute. }
    rewrite (bind_returns _ _ _ _ _ (sort_values_run _ _ _ _ _ Hdata Hr)). fold s.
    rewrite (bind_returns _ _ _ _ _ (getitems_run _ _ _ _ (heap_upd _ _ _) _ Hks2 Hnd2)).
    rewrite (bind_returns _ _ _ _ _ (reset_index_run _ _ _ _ (heap_upd _ _ _))).
    do 2 eexists. split; [done|]. apply heap_upd.
  - rewrite (bind_returns _ _ _ _ _ (sort_values_run _ _ _ _ _ Hdata Hr)). fold s.
    rewrite (bind_returns _ _ _ _ _ (getitems_run _ _ _ _ (heap_upd _ _ _) _ Hks1 Hnd1)).
    rewrite (bind_returns _ _ _ _ _ (setitem_scalar_run _ _ _ _ (heap_upd _ _ _) _ _)).
    rewrite (bind_returns _ _ _ _ _ (reset_index_run _ _ _ _ (heap_upd _ _ _))).
    do 2 eexists. split; [done|]. apply heap_upd.
  - destruct Hw as [Hw' Hne].
    assert (NoDup [target; w]) as Hnd2.
    { apply NoDup_cons. split; [|apply NoDup_singleton].
      by intros ->%list_elem_of_singleton. }
    assert (Forall (λ k, is_Some (cols s !! k)) [target; w]) as Hks2.
    { repeat constructor; [done|]. by apply has_permute. }
    rewrite (bind_returns _ _ _ _ _ (h2o_sort_run _ _ _ _ _ Hdata Hr)). fold s.
    rewrite (bind_returns _ _ _ _ _ (getitems_run _ _ _ _ (heap_upd _ _ _) _ Hks2 Hnd2)).
    do 2 eexists. split; [done|]. apply heap_upd.
  - rewrite (bind_returns _ _ _ _ _ (h2o_sort_run _ _ _ _ _ Hdata Hr)). fold s.
    rewrite (bind_returns _ _ _ _ _ (getitems_run _ _ _ _ (heap_upd _ _ _) _ Hks1 Hnd1)).
    rewrite (bind_returns _ _ _ _ _ (setitem_scalar_run _ _ _ _ (heap_upd _ _ _) _ _)).
    do 2 eexists. split; [done|]. apply heap_upd.
Qed.

Lemma normalized_table_run σ data l f target ranking weight ascending :
  heap σ !! data = Some (FrameObj l f) →
  has f ranking → has f target → weight_ok f target weight →
  ∃ sd σ',
    normalized_table l data target ranking weight ascending σ
    = (Returns (sd, wlabel weight), σ')
    ∧ heap σ' !! sd
      = Some (FrameObj l (rescale_frame target (wlabel weight)
                (working_frame l f target ranking weight ascending))).
Proof.
  intros Hdata Hr Ht Hw.
  destruct (sorted_table_run _ _ _ _ _ _ _ ascending Hdata Hr Ht Hw) as (sd & σ1 & E & Hsd).
  destruct (working_frame_has l f target ranking weight ascending Ht Hw) as [Hwt Hww].
  unfold normalized_table. rewrite (bind_returns _ _ _ _ _ E); simpl.
  rewrite (bind_returns _ _ _ _ _ (rescale_run _ _ _ _ _ _ Hsd Hwt Hww)).
  do 2 eexists. split; [done|]. apply heap_upd.
Qed.

Lemma gini_of_normalized_run l target weight ascending ty plot sd σ1 g :
  heap σ1 !! sd = Some (FrameObj l g) →
  has g target → has g (wlabel weight) →
  (gini_of_normalized ty target plot ascending (sd, wlabel weight) σ1).1
  = Returns (signed ascending
               (col_sum (lift_col (wlabel weight)
                           (totals_frame target (wlabel weight) g)))).
Proof.
  intros Hsd Hgt Hgw. unfold gini_of_normalized; simpl.
  rewrite (bind_returns _ _ _ _ _ (running_totals_run _ _ _ _ _ _ Hsd Hgt Hgw)).
  set (g' := totals_frame target (wlabel weight) g).
  assert (has g' "cumul_weight") as Hcw by apply has_set_col_eq.
  assert (has g' "cumul_total") as Hct by apply has_set_col, has_set_col_eq.
  assert (has g' (wlabel weight)) as Hgw' by by do 2 apply has_set_col.
  rewrite (bind_returns _ _ _ _ _
             (gini_index_run _ _ _ _ _ (heap_upd _ _ _) Hgw' _ Hcw Hct)).
  destruct plot; [|done].
  edestruct (plot_lorenz_run (upd sd (FrameObj l (set_col "lift" (lift_col (wlabel weight) g') g'))
                                (upd sd (FrameObj l g') σ1)) sd l
               (set_col "lift" (lift_col (wlabel weight) g') g')
               (heap_upd _ _ _) ty) as [σ2 E2].
  { by apply has_set_col. } { by apply has_set_col. }
  by rewrite (bind_returns _ _ _ _ _ E2).
Qed.

Lemma gini_run σ data l f target ranking weight plot ascending :
  heap σ !! data = Some (FrameObj l f) →
  has f (default target ranking) → has f target → weight_ok f target weight →
  gini_result σ data target ranking weight plot ascending
  = Returns (coefficient_of l f target (default target ranking) weight ascending).
Proof.
  intros Hdata Hr Ht Hw. unfold gini_result, gini.
  assert (type_of data σ = (Returns (type_str (FrameObj l f)), σ)) as Ety.
  { unfold type_of, lookup_obj, mbind, py_bind. by rewrite Hdata. }
  rewrite (bind_returns _ _ _ _ _ Ety).
  destruct (normalized_table_run _ _ _ _ _ _ _ ascending Hdata Hr Ht Hw)
    as (sd & σ1 & E & Hsd).
  destruct (working_frame_has l f target (default target ranking) weight ascending Ht Hw)
    as [Hwt Hww].
  assert (has (rescale_frame target (wlabel weight)
                 (working_frame l f target (default target ranking) weight ascending))
            target) as Hgt by by do 2 apply has_set_col.
  assert (has (rescale_frame target (wlabel weight)
                 (working_frame l f target (default target ranking) weight ascending))
            (wlabel weight)) as Hgw by apply has_set_col_eq.
  destruct l; simpl.
  - rewrite (bind_returns _ _ _ _ _ E).
    by rewrite (gini_of_normalized_run _ _ _ _ _ _ _ _ _ Hsd Hgt Hgw).
  - rewrite (bind_returns _ _ _ _ _ E).
    by rewrite (gini_of_normalized_run _ _ _ _ _ _ _ _ _ Hsd Hgt Hgw).
Qed.
End gini_run.

(** * Columns of rationals *)

Lemma Qc_sign_zero q : Qc_sign q = Zero ↔ q = 0.
Proof.
  unfold Qc_sign. split.
  - intros Hq. apply Qc_is_canon. destruct q as [[n d] Hc]; simpl in *.
    destruct n; try discriminate. reflexivity.
  - by intros ->.
Qed.

Lemma col_sum_cons x c :
  col_sum (x :: c) = if is_nan x then col_sum c else num_add x (col_sum c).
Proof. reflexivity. Qed.

Lemma col_sum_fin l : col_sum (Fin <$> l) = Fin (qsum l).
Proof.
  induction l as [|x l IH]; [done|].
  rewrite fmap_cons, col_sum_cons, IH. reflexivity.
Qed.

Lemma col_div_fin l s : s ≠ 0 → col_div (Fin <$> l) (Fin s) = Fin <$> ((λ x, x / s) <$> l).
Proof.
  intros Hs. unfold col_div. rewrite <- !list_fmap_compose. apply list_fmap_ext.
  intros _ x _. simpl. destruct (Qc_sign s) eqn:E; try done.
  by apply Qc_sign_zero in E.
Qed.

Lemma cumsum_from_fin a l : cumsum_from (Fin a) (Fin <$> l) = Fin <$> qcumsum a l.
Proof. revert a. induction l as [|x l IH]; intros a; [done|]. simpl. by rewrite IH. Qed.

Lemma col_cumsum_fin l : col_cumsum (Fin <$> l) = Fin <$> qcumsum 0 l.
Proof. apply cumsum_from_fin. Qed.

Lemma col_sub_fin a b : col_sub (Fin <$> a) (Fin <$> b) = Fin <$> zip_with Qcminus a b.
Proof.
  revert b. induction a as [|x a IH]; intros [|y b]; try done.
  unfold col_sub in *. simpl. by rewrite IH.
Qed.

Lemma col_mul_fin a b : col_mul (Fin <$> a) (Fin <$> b) = Fin <$> zip_with Qcmult a b.
Proof.
  revert b. induction a as [|x a IH]; intros [|y b]; try done.
  unfold col_mul in *. simpl. by rewrite IH.
Qed.

Lemma norm_fin l : qsum l ≠ 0 → col_div (Fin <$> l) (col_sum (Fin <$> l)) = Fin <$> norm l.
Proof. intros Hs. rewrite col_sum_fin. by apply col_div_fin. Qed.

Lemma qsum_cons x l : qsum (x :: l) = x + qsum l.
Proof. reflexivity. Qed.

Lemma qsum_scale c l : qsum ((λ x, c * x) <$> l) = c * qsum l.
Proof.
  induction l as [|x l IH]; [simpl; ring|].
  rewrite fmap_cons, !qsum_cons, IH. ring.
Qed.

Lemma qsum_div l s : s ≠ 0 → qsum ((λ x, x / s) <$> l) = qsum l / s.
Proof.
  intros Hs. induction l as [|x l IH]; [simpl; by field|].
  rewrite fmap_cons, !qsum_cons, IH. by field.
Qed.

Lemma qsum_norm l : qsum l ≠ 0 → qsum (norm l) = 1.
Proof. intros Hs. unfold norm. rewrite qsum_div by done. by field. Qed.

Lemma qsum_perm l1 l2 : l1 ≡ₚ l2 → qsum l1 = qsum l2.
Proof.
  induction 1 as [|x l1 l2 _ IH|x y l|l1 l2 l3 _ IH1 _ IH2].
  - done.
  - by rewrite !qsum_cons, IH.
  - rewrite !qsum_cons. ring.
  - congruence.
Qed.

Lemma qsum_reverse l : qsum (reverse l) = qsum l.
Proof. apply qsum_perm. apply reverse_Permutation. Qed.

Lemma norm_scale c l : c ≠ 0 → qsum l ≠ 0 → norm ((λ x, c * x) <$> l) = norm l.
Proof.
  intros Hc Hs. unfold norm. rewrite qsum_scale, <- list_fmap_compose.
  apply list_fmap_ext. intros _ x _. simpl. by field.
Qed.

Lemma norm_reverse l : norm (reverse l) = reverse (norm l).
Proof. unfold norm. by rewrite qsum_reverse, fmap_reverse. Qed.

Lemma length_norm l : length (norm l) = length l.
Proof. unfold norm. by rewrite length_fmap. Qed.

(** The sum of [n] ones. *)
Lemma qsum_ones_pos n : (0 < n)%nat → 0 < qsum (replicate n 1).
Proof.
  induction n as [|n IH]; [lia|]. intros _.
  change (replicate (S n) 1) with (1 :: replicate n 1). rewrite qsum_cons.
  destruct n as [|n]; [done|].
  assert (0 < qsum (replicate (S n) 1)) as Hpos by (apply IH; lia).
  apply Qclt_trans with (qsum (replicate (S n) 1)); [done|].
  rewrite <- (Qcplus_0_l (qsum (replicate (S n) 1))) at 1.
  by apply Qcplus_lt_mono_r.
Qed.

Lemma qsum_ones_ne n : (0 < n)%nat → qsum (replicate n 1) ≠ 0.
Proof.
  intros Hn%qsum_ones_pos E. rewrite E in Hn. by apply Qclt_not_eq in Hn.
Qed.

Lemma qsum_replicate n c : qsum (replicate n c) = c * qsum (replicate n 1).
Proof.
  induction n as [|n IH]; [simpl; ring|].
  change (replicate (S n) ?x) with (x :: replicate n x). rewrite !qsum_cons, IH. ring.
Qed.

Lemma norm_replicate n c : c ≠ 0 → (0 < n)%nat → norm (replicate n c) = norm (replicate n 1).
Proof.
  intros Hc Hn. unfold norm. rewrite !fmap_replicate. f_equal.
  rewrite (qsum_replicate n c). pose proof (qsum_ones_ne n Hn). by field.
Qed.

Lemma replicate_fin n q : replicate n (Fin q) = Fin <$> replicate n q.
Proof. by rewrite fmap_replicate. Qed.

(** * Rows taken by position *)

Lemma length_take_rows {A} `{Inhabited A} idx (c : list A) :
  length (take_rows idx c) = length idx.
Proof. unfold take_rows. by rewrite length_fmap. Qed.

Lemma take_rows_reverse {A} `{Inhabited A} idx (c : list A) :
  take_rows (reverse idx) c = reverse (take_rows idx c).
Proof. unfold take_rows. by rewrite fmap_reverse. Qed.

Lemma take_rows_seq {A} `{Inhabited A} (c : list A) :
  take_rows (seq 0 (length c)) c = c.
Proof.
  unfold take_rows. induction c as [|x c IH]; [done|].
  simpl. f_equal. rewrite <- fmap_S_seq, <- list_fmap_compose.
  rewrite <- IH at 2. by apply list_fmap_ext.
Qed.

Lemma take_rows_perm {A} `{Inhabited A} idx (c : list A) :
  idx ≡ₚ seq 0 (length c) → take_rows idx c ≡ₚ c.
Proof.
  intros Hp. rewrite <- (take_rows_seq c) at 2. unfold take_rows. by rewrite Hp.
Qed.

Lemma perm_seq_lt idx n : idx ≡ₚ seq 0 n → Forall (λ i, i < n)%nat idx.
Proof.
  intros Hp. apply Forall_forall. intros i Hi. rewrite Hp in Hi.
  apply elem_of_seq in Hi. lia.
Qed.

Lemma perm_seq_length idx n : idx ≡ₚ seq 0 n → length idx = n.
Proof. intros Hp. by rewrite Hp, length_seq. Qed.

Lemma take_rows_fmap {A B} `{Inhabited A, Inhabited B} (g : A → B) idx (c : list A) :
  Forall (λ i, i < length c)%nat idx →
  take_rows idx (g <$> c) = g <$> take_rows idx c.
Proof.
  intros Hidx. unfold take_rows. rewrite <- list_fmap_compose.
  apply Forall_fmap_ext_1. eapply Forall_impl; [exact Hidx|].
  intros i Hi. simpl. apply list_lookup_total_fmap. exact Hi.
Qed.

Lemma take_rows_replicate {A} `{Inhabited A} idx n (x : A) :
  Forall (λ i, i < n)%nat idx → take_rows idx (replicate n x) = replicate (length idx) x.
Proof.
  intros Hidx. unfold take_rows. induction Hidx as [|i idx Hi _ IH]; [done|].
  rewrite fmap_cons, IH. simpl. f_equal. by apply lookup_total_replicate_2.
Qed.

(** * The order of rows with distinct keys *)

Lemma take_rows_inj idx1 idx2 (ks : list Qc) :
  NoDup ks →
  Forall (λ i, i < length ks)%nat idx1 → Forall (λ i, i < length ks)%nat idx2 →
  take_rows idx1 ks = take_rows idx2 ks → idx1 = idx2.
Proof.
  intros Hnd H1. revert idx2. induction H1 as [|i idx1 Hi _ IH]; intros idx2 H2 E.
  - destruct idx2; [done|discriminate].
  - destruct H2 as [|j idx2 Hj H2]; [discriminate|].
    injection E as E1 E2. f_equal; [|by apply IH].
    destruct (lookup_lt_is_Some_2 ks i Hi) as [x Hx].
    destruct (lookup_lt_is_Some_2 ks j Hj) as [y Hy].
    rewrite (list_lookup_total_correct _ _ _ Hx), (list_lookup_total_correct _ _ _ Hy) in E1.
    subst y. by eapply NoDup_lookup.
Qed.

Lemma sorted_order_unique idx1 idx2 (ks : list Qc) :
  NoDup ks →
  idx1 ≡ₚ seq 0 (length ks) → idx2 ≡ₚ seq 0 (length ks) →
  Sorted Qcle (take_rows idx1 ks) → Sorted Qcle (take_rows idx2 ks) →
  idx1 = idx2.
Proof.
  intros Hnd Hp1 Hp2 Hs1 Hs2.
  apply (take_rows_inj _ _ ks Hnd); [by apply perm_seq_lt..|].
  apply (Sorted_unique Qcle); [done..|].
  by rewrite !take_rows_perm.
Qed.

Section order.
Context {B : Backends} {L : BackendLaws B}.

Lemma argsort_lt l keys asc : Forall (λ i, i < length keys)%nat (argsort l keys asc).
Proof. apply perm_seq_lt, argsort_perm. Qed.

Lemma length_argsort l keys asc : length (argsort l keys asc) = length keys.
Proof. apply perm_seq_length, argsort_perm. Qed.

Lemma argsort_fin_perm l (ks : list Qc) asc :
  argsort l (Fin <$> ks) asc ≡ₚ seq 0 (length ks).
Proof. rewrite <- (length_fmap Fin ks). apply argsort_perm. Qed.


(** Keys that are distinct and already ascending stay where they are. *)
Lemma argsort_ascending_id l (ks : list Qc) :
  NoDup ks → Sorted Qcle ks →
  argsort l (Fin <$> ks) true = seq 0 (length ks).
Proof.
  intros Hnd Hs. apply (sorted_order_unique _ _ ks Hnd).
  - apply argsort_fin_perm.
  - done.
  - apply (argsort_sorted l ks true).
  - by rewrite take_rows_seq.
Qed.

(** A positive factor on the keys does not change the order. *)
Lemma argsort_scale l (ks : list Qc) c asc :
  0 < c →
  argsort l (Fin <$> ((λ x, c * x) <$> ks)) asc = argsort l (Fin <$> ks) asc.
Proof.
  intros Hc. apply argsort_by_order; [by rewrite length_fmap|].
  intros i j x y x' y' Hx Hy Hx' Hy'.
  rewrite list_lookup_fmap in Hx, Hy. rewrite Hx' in Hx. rewrite Hy' in Hy.
  simpl in *. simplify_eq. symmetry. by apply Qcmult_le_mono_pos_l.
Qed.
End order.

(** * The insertion sort keeps the contract *)

Lemma insert_by_perm leb i l : insert_by leb i l ≡ₚ i :: l.
Proof.
  induction l as [|j l IH]; [done|]. simpl. destruct (leb i j); [done|].
  rewrite IH. apply Permutation_swap.
Qed.

Lemma isort_by_perm leb l : isort_by leb l ≡ₚ l.
Proof.
  induction l as [|i l IH]; [done|]. simpl. by rewrite insert_by_perm, IH.
Qed.

Lemma insert_by_ext leb leb' i l :
  (∀ j, j ∈ l → leb i j = leb' i j) → insert_by leb i l = insert_by leb' i l.
Proof.
  induction l as [|j l IH]; intros Hl; [done|]. simpl.
  rewrite <- (Hl j) by left. destruct (leb i j); [done|].
  f_equal. apply IH. intros k Hk. apply Hl. by right.
Qed.

Lemma isort_by_ext leb leb' l :
  (∀ i j, i ∈ l → j ∈ l → leb i j = leb' i j) → isort_by leb l = isort_by leb' l.
Proof.
  induction l as [|i l IH]; intros Hl; [done|]. simpl.
  rewrite <- IH by (intros; apply Hl; by right).
  apply insert_by_ext. intros j Hj. apply Hl; [by left|].
  right. by rewrite <- (isort_by_perm leb l).
Qed.

Section sorted.
Context (leb : nat → nat → bool) (P : nat → Prop).
Hypothesis leb_total : ∀ i j, P i → P j → leb i j = false → leb j i = true.

Let R (i j : nat) : Prop := P i ∧ P j ∧ leb i j = true.

Lemma insert_by_sorted i l :
  P i → Forall P l → Sorted R l → Sorted R (insert_by leb i l).
Proof using leb_total.
  intros Hi Hl Hs. induction Hs as [|j l Hs IH Hhd]; simpl.
  - by repeat constructor.
  - apply Forall_cons in Hl as [Hj Hl]. destruct (leb i j) eqn:E.
    + constructor; [by constructor|]. by constructor.
    + constructor; [by apply IH|].
      destruct Hhd as [|k l Hjk]; simpl.
      * constructor. split_and!; auto.
      * destruct (leb i k); constructor; [|done]. split_and!; auto.
Qed.

Lemma isort_by_sorted l : Forall P l → Sorted R (isort_by leb l).
Proof using leb_total.
  induction 1 as [|i l Hi Hl IH]; simpl; [constructor|].
  apply insert_by_sorted; [done| |done].
  by rewrite isort_by_perm.
Qed.
End sorted.

Lemma key_leb_total asc a b : key_leb asc a b = false → key_leb asc b a = true.
Proof.
  destruct asc, a as [x| | |], b as [y| | |]; simpl; try done.
  all: rewrite bool_decide_eq_false, bool_decide_eq_true; intros Hxy.
  all: by destruct (total Qcle x y).
Qed.

Lemma key_leb_fin asc x y : key_leb asc (Fin x) (Fin y) = bool_decide (dir_le asc x y).
Proof. destruct asc; simpl; by apply bool_decide_ext. Qed.

Lemma stable_argsort_perm keys asc : stable_argsort keys asc ≡ₚ seq 0 (length keys).
Proof. apply isort_by_perm. Qed.

Lemma stable_argsort_sorted (ks : list Qc) asc :
  Sorted (dir_le asc) (take_rows (stable_argsort (Fin <$> ks) asc) ks).
Proof.
  unfold take_rows, stable_argsort. rewrite length_fmap.
  eapply Sorted_fmap;
    [|apply (isort_by_sorted _ (λ i, i < length ks)%nat)].
  - intros i j (Hi & Hj & Hij). simpl in *.
    rewrite !(list_lookup_total_fmap Fin ks), key_leb_fin in Hij by done.
    by apply bool_decide_eq_true in Hij.
  - intros i j _ _. apply key_leb_total.
  - apply Forall_forall. intros i Hi%elem_of_seq. lia.
Qed.

Lemma stable_argsort_by_order (ks ks' : list Qc) asc :
  length ks = length ks' →
  (∀ i j x y x' y',
      ks !! i = Some x → ks !! j = Some y →
      ks' !! i = Some x' → ks' !! j = Some y' →
      (x ≤ y ↔ x' ≤ y')) →
  stable_argsort (Fin <$> ks) asc = stable_argsort (Fin <$> ks') asc.
Proof.
  intros Hlen Hord. unfold stable_argsort. rewrite !length_fmap, <- Hlen.
  apply isort_by_ext. intros i j Hi%elem_of_seq Hj%elem_of_seq.
  destruct (lookup_lt_is_Some_2 ks i) as [x Hx]; [lia|].
  destruct (lookup_lt_is_Some_2 ks j) as [y Hy]; [lia|].
  destruct (lookup_lt_is_Some_2 ks' i) as [x' Hx']; [lia|].
  destruct (lookup_lt_is_Some_2 ks' j) as [y' Hy']; [lia|].
  rewrite !(list_lookup_total_fmap Fin ks), !(list_lookup_total_fmap Fin ks') by lia.
  rewrite (list_lookup_total_correct _ _ _ Hx), (list_lookup_total_correct _ _ _ Hy),
    (list_lookup_total_correct _ _ _ Hx'), (list_lookup_total_correct _ _ _ Hy').
  rewrite !key_leb_fin. apply bool_decide_ext.
  destruct asc; simpl; eauto.
Qed.

Lemma stable_laws : BackendLaws stable_backends.
Proof.
  split; simpl.
  - intros _. apply stable_argsort_perm.
  - intros _. apply stable_argsort_sorted.
  - intros _. apply stable_argsort_by_order.
Qed.

(** * The working frame has two columns *)

Section table.
Context `{B : Backends}.

Lemma permute_lookup idx f k : has f k →
  cols (permute idx f) !! k = Some (take_rows idx (cols f !!! k)).
Proof.
  intros Hk. unfold permute; simpl. by rewrite lookup_fmap, (has_lookup _ _ Hk).
Qed.

Lemma working_frame_table l f target ranking weight ascending :
  has f target → weight_ok f target weight →
  working_frame l f target ranking weight ascending
  = table2 (nrows f) target (wlabel weight)
      (sorted_col l f ranking ascending target)
      (weight_col l f ranking ascending weight).
Proof.
  intros Ht Hw. unfold working_frame, table2, project, set_col.
  destruct weight as [w|]; cbn [omap list_omap].
  - destruct Hw as [Hw Hne].
    rewrite !permute_lookup by done. simpl.
    rewrite insert_empty. f_equal. by apply insert_insert_ne.
  - rewrite !permute_lookup by done. simpl. by rewrite insert_empty.
Qed.
End table.

Lemma table2_target n target wl t w :
  cols (table2 n target wl t w) !!! target = if decide (wl = target) then w else t.
Proof.
  unfold table2; simpl. rewrite lookup_total_insert. case_decide; [done|].
  by rewrite lookup_total_singleton_eq.
Qed.

Lemma table2_weight n target wl t w : cols (table2 n target wl t w) !!! wl = w.
Proof. unfold table2; simpl. by rewrite lookup_total_insert_eq. Qed.

Lemma rescale_table2 n target wl t w :
  rescale_frame target wl (table2 n target wl t w)
  = table2 n target wl (ndiv t) (if decide (wl = target) then ndiv (ndiv w) else ndiv w).
Proof.
  unfold rescale_frame, set_col. cbn zeta. cbn [cols nrows]. rewrite table2_target.
  unfold table2; cbn [cols nrows]. f_equal. case_decide as E.
  - subst wl. rewrite lookup_total_insert_eq.
    by rewrite !insert_insert_eq, !insert_singleton_eq.
  - rewrite lookup_total_insert_ne, lookup_total_insert_eq by done.
    rewrite (insert_insert_ne _ target wl) by done.
    by rewrite !insert_insert_eq, insert_singleton_eq.
Qed.

(** The lift column, when the label of the weight column is none of the
    labels that lines 80 and 81 assign. *)
Lemma lift_table2 n target wl t w :
  wl ≠ target → wl ≠ "cumul_total" → wl ≠ "cumul_weight" →
  lift_col wl (totals_frame target wl (table2 n target wl t w))
  = col_mul (col_sub (col_cumsum w) (col_cumsum t)) w.
Proof.
  intros H1 H2 H3. unfold lift_col, totals_frame, set_col. cbn zeta. cbn [cols nrows].
  rewrite table2_target, decide_False by done.
  rewrite lookup_total_insert_eq.
  rewrite (lookup_total_insert_ne _ "cumul_weight" "cumul_total") by done.
  rewrite lookup_total_insert_eq.
  rewrite !(lookup_total_insert_ne _ _ wl) by done.
  by rewrite table2_weight.
Qed.

(** The same when the target column is itself labelled [weight] and no
    weight column is given: line 56 has overwritten it. *)
Lemma lift_table2_same n t w :
  lift_col "weight" (totals_frame "weight" "weight" (table2 n "weight" "weight" t w))
  = col_mul (col_sub (col_cumsum w) (col_cumsum w)) w.
Proof.
  unfold lift_col, totals_frame, set_col. cbn zeta. cbn [cols nrows].
  rewrite table2_target, decide_True by done.
  rewrite lookup_total_insert_eq.
  rewrite (lookup_total_insert_ne _ "cumul_weight" "cumul_total") by done.
  rewrite lookup_total_insert_eq.
  rewrite !(lookup_total_insert_ne _ _ "weight") by done.
  by rewrite table2_weight.
Qed.

(** [(a - a) * x] is [0] or [NaN], whatever [a] and [x] are. *)
Lemma col_sum_self_lift (a x : column) : col_sum (col_mul (col_sub a a) x) = Fin 0.
Proof.
  revert x. induction a as [|y a IH]; intros [|z x]; try done.
  unfold col_mul, col_sub in *. simpl zip_with. rewrite col_sum_cons, IH.
  assert (num_sub y y = NaN ∨ num_sub y y = Fin 0) as [->| ->].
  { destruct y as [q| | |]; simpl; auto. right. f_equal. ring. }
  - done.
  - by destruct z as [q| | |].
Qed.

(** * The coefficient as a function of the two sorted columns *)

Lemma signed_zero asc : signed asc (Fin 0) = Fin 0.
Proof. destruct asc; simpl; f_equal; ring. Qed.

Section coefficient.
Context `{B : Backends}.
Context (l : lib) (f : frame) (target ranking : string) (weight : option string).
Context (ascending : bool).
Hypothesis Ht : has f target.
Hypothesis Hw : weight_ok f target weight.

Lemma coefficient_generic :
  wlabel weight ≠ target →
  wlabel weight ≠ "cumul_total" → wlabel weight ≠ "cumul_weight" →
  coefficient_of l f target ranking weight ascending
  = coef_cols ascending (sorted_col l f ranking ascending target)
      (weight_col l f ranking ascending weight).
Proof using Ht Hw.
  intros H1 H2 H3. unfold coefficient_of. cbn zeta.
  rewrite working_frame_table, rescale_table2 by done.
  rewrite decide_False by done. by rewrite lift_table2.
Qed.

Lemma coefficient_same_label :
  weight = None → target = "weight" →
  coefficient_of l f target ranking weight ascending = Fin 0.
Proof using Ht Hw.
  intros -> ->. unfold coefficient_of. cbn zeta.
  rewrite working_frame_table, rescale_table2 by done.
  simpl wlabel. rewrite lift_table2_same, col_sum_self_lift. apply signed_zero.
Qed.
End coefficient.

(** On columns of rationals with nonzero sums. *)

Lemma ndiv_fin l : qsum l ≠ 0 → ndiv (Fin <$> l) = Fin <$> norm l.
Proof. apply norm_fin. Qed.

Lemma coef_cols_fin asc t w :
  qsum t ≠ 0 → qsum w ≠ 0 →
  coef_cols asc (Fin <$> t) (Fin <$> w) = Fin (qcoef asc t w).
Proof.
  intros Ht Hw. unfold coef_cols, qcoef, qlift.
  rewrite !ndiv_fin, !col_cumsum_fin, col_sub_fin, col_mul_fin, col_sum_fin by done.
  by destruct asc.
Qed.

(** * The area between the curve and the diagonal *)

Lemma qlift_area_from W T t w :
  qsum (zip_with Qcmult (zip_with Qcminus (qcumsum W w) (qcumsum T t)) w)
  = area W T (zip t w).
Proof.
  revert W T w. induction t as [|x t IH]; intros W T [|y w]; try done.
  simpl zip. simpl qcumsum. simpl zip_with. rewrite qsum_cons, IH. reflexivity.
Qed.

Lemma qlift_area t w : qsum (qlift t w) = area 0 0 (zip t w).
Proof. apply qlift_area_from. Qed.

Lemma area_shift W T p : area W T p = area 0 0 p + (W - T) * wtot p.
Proof.
  revert W T. induction p as [|[t w] p IH]; intros W T.
  - unfold wtot. simpl. ring.
  - simpl area. rewrite (IH (W + w) (T + t)), (IH (0 + w) (0 + t)).
    unfold wtot. rewrite fmap_cons, qsum_cons. simpl. ring.
Qed.

Lemma area_snoc W T p t w :
  area W T (p ++ [(t, w)])
  = area W T p + (W + wtot p + w - (T + ttot p + t)) * w.
Proof.
  revert W T. induction p as [|[t' w'] p IH]; intros W T.
  - unfold wtot, ttot. simpl. ring.
  - simpl app. simpl area. rewrite IH.
    unfold wtot, ttot. rewrite !fmap_cons, !qsum_cons. simpl. ring.
Qed.

Lemma ttot_reverse p : ttot (reverse p) = ttot p.
Proof. unfold ttot. by rewrite fmap_reverse, qsum_reverse. Qed.

Lemma wtot_reverse p : wtot (reverse p) = wtot p.
Proof. unfold wtot. by rewrite fmap_reverse, qsum_reverse. Qed.

(** The curve of the rows read backwards. *)
Lemma area_reverse p :
  area 0 0 (reverse p) + area 0 0 p
  = (wtot p - ttot p) * wtot p + qsum ((λ tw, (tw.2 - tw.1) * tw.2) <$> p).
Proof.
  induction p as [|[t w] p IH].
  - unfold wtot, ttot. simpl. ring.
  - rewrite reverse_cons, area_snoc, wtot_reverse, ttot_reverse.
    simpl area. rewrite (area_shift (0 + w) (0 + t)).
    rewrite fmap_cons, qsum_cons. simpl.
    unfold wtot, ttot in *. rewrite !fmap_cons, !qsum_cons. simpl.
    replace (area 0 0 (reverse p)) with
      ((qsum p.*2 - qsum p.*1) * qsum p.*2
       + qsum ((λ tw, (tw.2 - tw.1) * tw.2) <$> p) - area 0 0 p)
      by (rewrite <- IH; ring).
    ring.
Qed.

Lemma zip_with_take_rows {A C D} `{Inhabited A, Inhabited C, Inhabited D}
    (g : A → C → D) idx (a : list A) (b : list C) :
  Forall (λ i, i < length a)%nat idx → Forall (λ i, i < length b)%nat idx →
  zip_with g (take_rows idx a) (take_rows idx b) = take_rows idx (zip_with g a b).
Proof.
  intros Ha Hb. unfold take_rows.
  induction Ha as [|i idx Hi _ IH]; [done|].
  apply Forall_cons in Hb as [Hi' Hb].
  rewrite !fmap_cons. simpl. rewrite IH by done. f_equal.
  symmetry. by apply lookup_total_zip_with.
Qed.



(** Without a weight column the difference is zero. *)
Lemma gap_unweighted T :
  qsum T ≠ 0 → gap T (replicate (length T) 1) = 0.
Proof.
  intros HT. unfold gap.
  assert (0 < length T)%nat as Hn by (destruct T; [done|simpl; lia]).
  pose proof (qsum_ones_ne _ Hn) as Hones.
  set (u := 1 / qsum (replicate (length T) 1)).
  assert (norm (replicate (length T) 1) = replicate (length (norm T)) u) as ->.
  { unfold norm at 1. by rewrite fmap_replicate, length_norm. }
  rewrite zip_with_replicate_r_eq by done.
  transitivity (u * (qsum (replicate (length (norm T)) u) - qsum (norm T))).
  - generalize (norm T). intros l. induction l as [|x l IH]; [simpl; ring|].
    cbn [length replicate]. rewrite fmap_cons, !qsum_cons, IH. unfold flip. ring.
  - assert (qsum (replicate (length T) u) = 1) as Hu.
    { unfold u. rewrite <- (fmap_replicate (λ x, x / qsum (replicate (length T) 1))).
      by apply (qsum_norm (replicate (length T) 1)). }
    rewrite length_norm, qsum_norm, Hu by done. ring.
Qed.

(** Sorting the other way round and changing the sign of the factor
    change the coefficient by twice [gap]. *)
Lemma qcoef_reverse t w :
  qsum t ≠ 0 → qsum w ≠ 0 → length t = length w →
  qcoef false (reverse t) (reverse w) = qcoef true t w - 2 * gap t w.
Proof.
  intros Ht Hw Hlen. unfold qcoef, gap. rewrite !qlift_area, !norm_reverse.
  assert (length (norm t) = length (norm w)) as Hlen' by by rewrite !length_norm.
  set (p := zip (norm t) (norm w)).
  assert (zip (reverse (norm t)) (reverse (norm w)) = reverse p) as ->.
  { assert (reverse (norm t)
            = take_rows (reverse (seq 0 (length (norm t)))) (norm t)) as E1.
    { by rewrite take_rows_reverse, take_rows_seq. }
    assert (reverse (norm w)
            = take_rows (reverse (seq 0 (length (norm t)))) (norm w)) as E2.
    { rewrite Hlen'. by rewrite take_rows_reverse, take_rows_seq. }
    rewrite E1, E2. unfold p. rewrite zip_with_take_rows.
    - rewrite take_rows_reverse. f_equal.
      rewrite <- (length_zip_with_l_eq pair (norm t) (norm w)) by done.
      apply take_rows_seq.
    - apply Forall_forall. intros i Hi%elem_of_reverse%elem_of_seq. lia.
    - rewrite <- Hlen'. apply Forall_forall. intros i Hi%elem_of_reverse%elem_of_seq. lia. }
  pose proof (area_reverse p) as Hr.
  assert (ttot p = 1) as Htt.
  { unfold ttot, p. rewrite fst_zip by lia. by apply qsum_norm. }
  assert (wtot p = 1) as Hwt.
  { unfold wtot, p. rewrite snd_zip by lia. by apply qsum_norm. }
  rewrite Htt, Hwt in Hr.
  assert (zip_with (λ t0 w0 : Qc, (w0 - t0) * w0) (norm t) (norm w)
          = (λ tw, (tw.2 - tw.1) * tw.2) <$> p) as ->.
  { unfold p. rewrite zip_with_zip. by apply list_fmap_ext; intros _ [??] _. }
  replace (area 0 0 (reverse p)) with
    ((1 - 1) * 1 + qsum ((λ tw, (tw.2 - tw.1) * tw.2) <$> p) - area 0 0 p)
    by (rewrite <- Hr; ring).
  ring.
Qed.

Lemma num_eqb_eq a b : num_eqb a b = true → a = b.
Proof.
  destruct a as [x| | |], b as [y| | |]; simpl; try done.
  intros E%Qeq_bool_eq. f_equal. by apply Qc_is_canon.
Qed.

Lemma returns_value_spec r v : returns_value r v = true → r = Returns v.
Proof. destruct r as [a|e|]; simpl; try done. by intros ->%num_eqb_eq. Qed.

Lemma rationals_fin l : rationals l = Fin <$> (Q2Qc <$> l).
Proof. unfold rationals, rational. by rewrite <- list_fmap_compose. Qed.

Lemma frame_wf_length f k c : frame_wf f → cols f !! k = Some c → length c = nrows f.
Proof. intros Hwf Hk. by apply (Hwf k c). Qed.

Lemma lookup_total_cols f k c : cols f !! k = Some c → cols f !!! k = c.
Proof. intros Hk. by apply lookup_total_correct. Qed.

Lemma Qc_neq a b : Qeq_bool (this a) (this b) = false → a ≠ b.
Proof. intros E ->. by rewrite Qeq_bool_refl in E. Qed.

Lemma table2_lookup_target n target wl t w :
  cols (table2 n target wl t w) !! target = Some (if decide (wl = target) then w else t).
Proof.
  unfold table2; simpl. rewrite lookup_insert. case_decide; [done|].
  by rewrite lookup_singleton_eq.
Qed.

Lemma table2_lookup_weight n target wl t w : cols (table2 n target wl t w) !! wl = Some w.
Proof. unfold table2; simpl. by rewrite lookup_insert_eq. Qed.

Lemma col_sum_ndiv_fin l : qsum l ≠ 0 → col_sum (ndiv (Fin <$> l)) = Fin 1.
Proof. intros Hl. by rewrite ndiv_fin, col_sum_fin, qsum_norm. Qed.

Lemma Qc_1_neq_0 : (1 : Qc) ≠ 0.
Proof. by apply Qc_neq. Qed.

Lemma weights_nonzero_ok f target weight :
  weights_nonzero f target weight → weight_ok f target weight.
Proof. destruct weight as [w|]; [|done]. intros (? & W & ? & ?). split; [by eexists|done]. Qed.


(** * Columns divided by a zero total *)












Section finite_columns.
Context {B : Backends} {L : BackendLaws B}.

Lemma sorted_col_fin l f ranking ascending k X :
  frame_wf f → has f ranking → cols f !! k = Some (Fin <$> X) →
  ∃ Y, sorted_col l f ranking ascending k = Fin <$> Y
       ∧ qsum Y = qsum X ∧ length Y = nrows f.
Proof.
  intros Hwf Hr Hk. unfold sorted_col. rewrite (lookup_total_cols _ _ _ Hk).
  set (idx := argsort _ _ _).
  assert (length X = nrows f) as HlX.
  { rewrite <- (frame_wf_length f _ _ Hwf Hk). by rewrite length_fmap. }
  assert (idx ≡ₚ seq 0 (length X)) as Hidx.
  { unfold idx. rewrite HlX, <- (frame_wf_length f _ _ Hwf (has_lookup _ _ Hr)).
    apply argsort_perm. }
  exists (take_rows idx X). split_and!.
  - apply take_rows_fmap. by apply perm_seq_lt.
  - by apply qsum_perm, take_rows_perm.
  - by rewrite length_take_rows, (perm_seq_length _ _ Hidx).
Qed.

Lemma weight_col_fin l f target ranking ascending weight :
  frame_wf f → has f ranking → (0 < nrows f)%nat →
  weights_nonzero f target weight →
  ∃ Y, weight_col l f ranking ascending weight = Fin <$> Y ∧ qsum Y ≠ 0.
Proof.
  intros Hwf Hr Hn Hw. destruct weight as [w|]; simpl.
  - destruct Hw as (_ & W & HW & Hs).
    destruct (sorted_col_fin l f ranking ascending w W) as (Y & -> & HY & _); [done..|].
    exists Y. split; [done|]. by rewrite HY.
  - exists (replicate (nrows f) 1). split; [apply replicate_fin|by apply qsum_ones_ne].
Qed.

End finite_columns.

Lemma scale_col_lookup k c f j :
  cols (scale_col k c f) !! j
  = if decide (k = j) then fmap (num_mul c) <$> cols f !! k else cols f !! j.
Proof. unfold scale_col; simpl. by rewrite lookup_alter. Qed.

Lemma scale_col_has k c f j : has f j → has (scale_col k c f) j.
Proof.
  intros [x Hx]. unfold has. rewrite scale_col_lookup. case_decide; [|by eexists].
  subst j. rewrite Hx. by eexists.
Qed.

Lemma scale_col_fin k c f X :
  cols f !! k = Some (Fin <$> X) →
  cols (scale_col k (Fin c) f) !! k = Some (Fin <$> ((λ x, c * x) <$> X)).
Proof.
  intros Hk. rewrite scale_col_lookup, decide_True, Hk by done. simpl. f_equal.
  by rewrite <- !list_fmap_compose.
Qed.

Lemma scale_col_other k c f j : k ≠ j → cols (scale_col k c f) !!! j = cols f !!! j.
Proof.
  intros Hne. rewrite !lookup_total_alt, scale_col_lookup. by rewrite decide_False.
Qed.

Section scale.
Context {B : Backends} {L : BackendLaws B}.
Context (l : lib) (f : frame) (ranking : string) (ascending : bool).
Context (k : string) (c : Qc) (X : list Qc).
Hypothesis Hwf : frame_wf f.
Hypothesis Hr : has f ranking.
Hypothesis Hk : cols f !! k = Some (Fin <$> X).
Hypothesis Hc : 0 < c.

Lemma scale_col_argsort :
  argsort l (cols (scale_col k (Fin c) f) !!! ranking) ascending
  = argsort l (cols f !!! ranking) ascending.
Proof using L Hr Hk Hc.
  destruct (decide (k = ranking)) as [<-|Hne].
  - rewrite (lookup_total_cols _ _ _ (scale_col_fin _ _ _ _ Hk)).
    rewrite (lookup_total_cols _ _ _ Hk). by apply argsort_scale.
  - by rewrite scale_col_other.
Qed.

Lemma length_X : length X = nrows f.
Proof using Hwf Hk. rewrite <- (frame_wf_length f _ _ Hwf Hk). by rewrite length_fmap. Qed.

Lemma scale_col_sorted_col :
  sorted_col l (scale_col k (Fin c) f) ranking ascending k
  = Fin <$> ((λ x, c * x) <$> take_rows (argsort l (cols f !!! ranking) ascending) X).
Proof using L Hwf Hr Hk Hc.
  unfold sorted_col. rewrite scale_col_argsort.
  rewrite (lookup_total_cols _ _ _ (scale_col_fin _ _ _ _ Hk)).
  assert (Forall (λ i, i < length X)%nat (argsort l (cols f !!! ranking) ascending)) as Hlt.
  { rewrite length_X, <- (frame_wf_length f _ _ Hwf (has_lookup _ _ Hr)).
    apply argsort_lt. }
  rewrite take_rows_fmap by by rewrite length_fmap.
  by rewrite take_rows_fmap.
Qed.

Lemma scale_col_sorted_col_other j :
  k ≠ j →
  sorted_col l (scale_col k (Fin c) f) ranking ascending j
  = sorted_col l f ranking ascending j.
Proof using L Hr Hk Hc.
  intros Hne. unfold sorted_col. by rewrite scale_col_argsort, scale_col_other.
Qed.

Lemma scale_col_ndiv j Y :
  cols f !! j = Some (Fin <$> Y) → qsum Y ≠ 0 →
  ndiv (sorted_col l (scale_col k (Fin c) f) ranking ascending j)
  = ndiv (sorted_col l f ranking ascending j).
Proof using L Hwf Hr Hk Hc.
  intros Hj HY. destruct (decide (k = j)) as [<-|Hne];
    [|by rewrite scale_col_sorted_col_other].
  rewrite Hk in Hj. injection Hj as Hj. apply (inj (fmap Fin)) in Hj. subst Y.
  rewrite scale_col_sorted_col.
  destruct (sorted_col_fin l f ranking ascending k X) as (Z & EZ & HZ & _); [done..|].
  assert (Z = take_rows (argsort l (cols f !!! ranking) ascending) X) as <-.
  { apply (inj (fmap Fin)). rewrite <- EZ. unfold sorted_col.
    rewrite (lookup_total_cols _ _ _ Hk). apply take_rows_fmap.
    rewrite length_X, <- (frame_wf_length f _ _ Hwf (has_lookup _ _ Hr)).
    apply argsort_lt. }
  rewrite EZ. rewrite <- HZ in HY.
  assert (c ≠ 0) as Hc0 by (intros ->; by apply Qclt_not_eq in Hc).
  rewrite !ndiv_fin, norm_scale; try done.
  rewrite qsum_scale. by intros [?|?]%Qcmult_integral.
Qed.
End scale.

(** * What a call leaves of the heap it was given

    [keeps h P m]: run from a heap that extends [h], [m] ends in a heap
    that extends [h], and a value it returns satisfies [P]. *)

Section keeps.
Context (h : gmap loc pyobj).

Lemma keeps_ret {A} (P : A → Prop) a : P a → keeps h P (mret a).
Proof. intros Ha σ Hσ. split; [done|]. by intros a' [= <-]. Qed.

Lemma keeps_bind {A C} (Q : A → Prop) (P : C → Prop) (m : py A) (k : A → py C) :
  keeps h Q m → (∀ a, Q a → keeps h P (k a)) → keeps h P (m ≫= k).
Proof.
  intros Hm Hk σ Hσ. destruct (Hm σ Hσ) as [H1 H2].
  unfold mbind, py_bind. destruct (m σ) as [[a|e|] σ1]; simpl in *; [|done..].
  by apply Hk; [apply H2|].
Qed.

Lemma keeps_weaken {A} (P Q : A → Prop) (m : py A) :
  keeps h P m → (∀ a, P a → Q a) → keeps h Q m.
Proof. intros Hm HPQ σ Hσ. destruct (Hm σ Hσ). split; auto. Qed.

Lemma keeps_raise {A} (P : A → Prop) e : keeps h P (raise e).
Proof. by intros σ Hσ. Qed.

Lemma keeps_unmodelled {A} (P : A → Prop) : keeps h P unmodelled.
Proof. by intros σ Hσ. Qed.

Lemma keeps_lookup_obj o : keeps h (λ _, True) (lookup_obj o).
Proof. intros σ Hσ. unfold lookup_obj. by destruct (heap σ !! o). Qed.

Lemma keeps_alloc v : keeps h (fresh_for h) (alloc v).
Proof.
  intros σ Hσ. unfold alloc; simpl.
  assert (h !! fresh (dom (heap σ)) = None) as Hfresh.
  { apply not_elem_of_dom. intros Hin.
    apply (is_fresh (dom (heap σ))). by apply (subseteq_dom _ _ Hσ). }
  split; [by apply insert_subseteq_r|]. by intros a [= <-].
Qed.

Lemma keeps_store o v : fresh_for h o → keeps h (λ _, True) (store o v).
Proof. intros Ho σ Hσ. unfold store; simpl. split; [by apply insert_subseteq_r|done]. Qed.

Lemma keeps_emit ev : keeps h (λ _, True) (emit ev).
Proof. by intros σ Hσ. Qed.

Lemma keeps_lookup_frame o : keeps h (λ _, True) (lookup_frame o).
Proof.
  unfold lookup_frame. eapply keeps_bind; [apply keeps_lookup_obj|].
  intros [l f| |] _; auto using keeps_ret, keeps_unmodelled.
Qed.
End keeps.

Create HintDb keeps discriminated.
#[global] Hint Resolve keeps_ret keeps_raise keeps_unmodelled keeps_lookup_obj
  keeps_alloc keeps_store keeps_emit keeps_lookup_frame : keeps.

(** One step: the first call keeps the heap, then the rest does. *)
Ltac keeps_step :=
  lazymatch goal with
  | |- keeps _ _ (mbind _ _) => eapply keeps_bind; [|intros ? ?]
  | |- keeps _ _ (match ?x with _ => _ end) => destruct x
  | |- keeps _ _ (if ?b then _ else _) => destruct b
  | |- keeps _ _ (let _ := _ in _) => cbn zeta
  | |- keeps _ (λ _, True) _ =>
      first [ by eauto with keeps
            | eapply keeps_weaken; [by eauto with keeps|done] ]
  | |- keeps _ _ _ => by eauto with keeps
  end.

Section keeps_methods.
Context `{B : Backends} (h : gmap loc pyobj).

Lemma keeps_type_of o : keeps h (λ _, True) (type_of o).
Proof. unfold type_of. repeat keeps_step. Qed.

Lemma keeps_print s : keeps h (λ _, True) (print s).
Proof. apply keeps_emit. Qed.

Lemma keeps_sort_values o k asc : keeps h (fresh_for h) (sort_values o k asc).
Proof. unfold sort_values. repeat keeps_step. Qed.

Lemma keeps_h2o_sort o k asc : keeps h (fresh_for h) (h2o_sort o k asc).
Proof. unfold h2o_sort. repeat keeps_step. Qed.

Lemma keeps_getitems o ks : keeps h (fresh_for h) (getitems o ks).
Proof. unfold getitems. repeat keeps_step. Qed.

Lemma keeps_getitem o k : keeps h (λ _, True) (getitem o k).
Proof. unfold getitem. repeat keeps_step. Qed.

Lemma keeps_setitem o k c : fresh_for h o → keeps h (λ _, True) (setitem o k c).
Proof. intros Ho. unfold setitem. repeat keeps_step. Qed.

Lemma keeps_setitem_scalar o k x :
  fresh_for h o → keeps h (λ _, True) (setitem_scalar o k x).
Proof. intros Ho. unfold setitem_scalar. repeat keeps_step. Qed.

Lemma keeps_reset_index o : keeps h (fresh_for h) (reset_index o).
Proof. unfold reset_index. repeat keeps_step. Qed.

Lemma keeps_shape0 o : keeps h (λ _, True) (shape0 o).
Proof. unfold shape0. repeat keeps_step. Qed.

Lemma keeps_iloc_stride o s : keeps h (fresh_for h) (iloc_stride o s).
Proof. unfold iloc_stride. repeat keeps_step. Qed.

Lemma keeps_as_data_frame o : keeps h (fresh_for h) (as_data_frame o).
Proof. unfold as_data_frame. repeat keeps_step. Qed.

Lemma keeps_plt_plot x ys ks : keeps h (λ _, True) (plt_plot x ys ks).
Proof. unfold plt_plot. repeat keeps_step. Qed.
End keeps_methods.

#[global] Hint Resolve keeps_type_of keeps_print keeps_sort_values keeps_h2o_sort
  keeps_getitems keeps_getitem keeps_setitem keeps_setitem_scalar keeps_reset_index
  keeps_shape0 keeps_iloc_stride keeps_as_data_frame keeps_plt_plot : keeps.

Section keeps_gini.
Context `{B : Backends} (h : gmap loc pyobj).

Lemma keeps_h2o_slice o s ks : keeps h (fresh_for h) (h2o_slice o s ks).
Proof. unfold h2o_slice. repeat keeps_step. Qed.

Lemma keeps_sorted_table l data target ranking weight asc :
  keeps h (λ p, fresh_for h p.1) (sorted_table l data target ranking weight asc).
Proof. unfold sorted_table. repeat keeps_step. Qed.

Lemma keeps_rescale sd target weight :
  fresh_for h sd → keeps h (λ _, True) (rescale sd target weight).
Proof. intros Hsd. unfold rescale. repeat keeps_step. Qed.

Lemma keeps_running_totals sd target weight :
  fresh_for h sd → keeps h (λ _, True) (running_totals sd target weight).
Proof. intros Hsd. unfold running_totals. repeat keeps_step. Qed.

Lemma keeps_gini_index sd weight asc :
  fresh_for h sd → keeps h (λ _, True) (gini_index sd weight asc).
Proof. intros Hsd. unfold gini_index. repeat keeps_step. Qed.

Lemma keeps_plot_lorenz ty sd : keeps h (λ _, True) (plot_lorenz ty sd).
Proof.
  pose proof keeps_h2o_slice. unfold plot_lorenz, plt_show. repeat keeps_step.
Qed.

Lemma keeps_normalized_table l data target ranking weight asc :
  keeps h (λ p, fresh_for h p.1) (normalized_table l data target ranking weight asc).
Proof.
  pose proof keeps_sorted_table. pose proof keeps_rescale.
  unfold normalized_table. repeat keeps_step.
Qed.

Lemma keeps_gini_of_normalized ty target plot asc p :
  fresh_for h p.1 → keeps h (λ _, True) (gini_of_normalized ty target plot asc p).
Proof.
  intros Hp. pose proof keeps_running_totals. pose proof keeps_gini_index.
  pose proof keeps_plot_lorenz.
  unfold gini_of_normalized. repeat keeps_step.
Qed.

Lemma keeps_gini data target ranking weight plot asc :
  keeps h (λ _, True) (gini data target ranking weight plot asc).
Proof.
  pose proof keeps_normalized_table. pose proof keeps_gini_of_normalized.
  unfold gini. repeat keeps_step.
Qed.
End keeps_gini.

(** * The coefficient in the arithmetic of pandas *)

(** Lines 76 to 89 as a function of the two sorted columns. *)
Lemma gini_index64_unweighted target t w ascending :
  target ≠ "weight" →
  gini_index64 (<["weight" := w]> {[ target := t ]}) target "weight" ascending
  = coefficient64 ascending t w.
Proof.
  intros Hne. unfold gini_index64, coefficient64. cbn zeta.
  repeat (rewrite !lookup_total_insert; repeat case_decide; simplify_eq; try done);
    rewrite ?lookup_total_singleton, ?decide_True by done; done.
Qed.

Lemma keys64_ints c : keys64 (Int64 c) = Fin <$> ((λ z, Q2Qc (inject_Z z)) <$> c).
Proof. simpl. by rewrite <- list_fmap_compose. Qed.

Section even_steps.
Context {B : Backends} {L : BackendLaws B}.

(** The rows of the scenario are in ascending order already. *)
Lemma argsort_even_steps c :
  c = Int64 [10; 20; 30; 40]%Z ∨ c = Float64 (double <$> [10; 20; 30; 40]%Q) →
  argsort Pandas (keys64 c) true = [0; 1; 2; 3]%nat.
Proof.
  intros Hc.
  assert (keys64 c = Fin <$> ((λ z, Q2Qc (inject_Z z)) <$> [10; 20; 30; 40]%Z)) as ->.
  { destruct Hc as [-> | ->]; [apply keys64_ints|].
    cbn [keys64 fmap list_fmap].
    repeat (apply f_equal2; [apply (f_equal Fin), Qc_is_canon; by vm_compute|]).
    reflexivity. }
  rewrite argsort_ascending_id; [done| |].
  - apply (bool_decide_unpack _). by vm_compute.
  - repeat constructor; by vm_compute.
Qed.
End even_steps.

(** * What is printed and plotted *)

Lemma quiet_ret {A} (a : A) : quiet (mret a).
Proof. by intros σ. Qed.

Lemma quiet_bind {A C} (m : py A) (k : A → py C) :
  quiet m → (∀ a, quiet (k a)) → quiet (m ≫= k).
Proof.
  intros Hm Hk σ. specialize (Hm σ). unfold mbind, py_bind.
  destruct (m σ) as [[a|e|] σ1]; simpl in *; [|done..].
  by rewrite Hk.
Qed.

Lemma quiet_raise {A} e : quiet (raise (A := A) e).
Proof. by intros σ. Qed.

Lemma quiet_unmodelled {A} : quiet (unmodelled (A := A)).
Proof. by intros σ. Qed.

Lemma quiet_lookup_obj o : quiet (lookup_obj o).
Proof. intros σ. unfold lookup_obj. by destruct (heap σ !! o). Qed.

Lemma quiet_alloc v : quiet (alloc v).
Proof. by intros σ. Qed.

Lemma quiet_store o v : quiet (store o v).
Proof. by intros σ. Qed.

Create HintDb quiet discriminated.
#[global] Hint Resolve quiet_ret quiet_raise quiet_unmodelled quiet_lookup_obj
  quiet_alloc quiet_store : quiet.

(** One step: the first call is quiet, then the rest is. *)
Ltac quiet_step :=
  lazymatch goal with
  | |- quiet (mbind _ _) => apply quiet_bind; [|intros ?]
  | |- quiet (match ?x with _ => _ end) => destruct x
  | |- quiet (if ?b then _ else _) => destruct b
  | |- quiet (let _ := _ in _) => cbn zeta
  | |- quiet _ => by eauto with quiet
  end.

Lemma quiet_lookup_frame o : quiet (lookup_frame o).
Proof. unfold lookup_frame. repeat quiet_step. Qed.

#[global] Hint Resolve quiet_lookup_frame : quiet.

Section quiet_methods.
Context `{B : Backends}.

Lemma quiet_type_of o : quiet (type_of o).
Proof. unfold type_of. repeat quiet_step. Qed.

Lemma quiet_sort_values o k asc : quiet (sort_values o k asc).
Proof. unfold sort_values. repeat quiet_step. Qed.

Lemma quiet_h2o_sort o k asc : quiet (h2o_sort o k asc).
Proof. unfold h2o_sort. repeat quiet_step. Qed.

Lemma quiet_getitems o ks : quiet (getitems o ks).
Proof. unfold getitems. repeat quiet_step. Qed.

Lemma quiet_getitem o k : quiet (getitem o k).
Proof. unfold getitem. repeat quiet_step. Qed.

Lemma quiet_setitem o k c : quiet (setitem o k c).
Proof. unfold setitem. repeat quiet_step. Qed.

Lemma quiet_setitem_scalar o k x : quiet (setitem_scalar o k x).
Proof. unfold setitem_scalar. repeat quiet_step. Qed.

Lemma quiet_reset_index o : quiet (reset_index o).
Proof. unfold reset_index. repeat quiet_step. Qed.
End quiet_methods.

#[global] Hint Resolve quiet_type_of quiet_sort_values quiet_h2o_sort quiet_getitems
  quiet_getitem quiet_setitem quiet_setitem_scalar quiet_reset_index : quiet.

Section quiet_gini.
Context `{B : Backends}.

Lemma quiet_sorted_table l data target ranking weight asc :
  quiet (sorted_table l data target ranking weight asc).
Proof. unfold sorted_table. repeat quiet_step. Qed.

Lemma quiet_rescale sd target weight : quiet (rescale sd target weight).
Proof. unfold rescale. repeat quiet_step. Qed.

Lemma quiet_running_totals sd target weight : quiet (running_totals sd target weight).
Proof. unfold running_totals. repeat quiet_step. Qed.

Lemma quiet_gini_index sd weight asc : quiet (gini_index sd weight asc).
Proof. unfold gini_index. repeat quiet_step. Qed.

Lemma quiet_normalized_table l data target ranking weight asc :
  quiet (normalized_table l data target ranking weight asc).
Proof.
  pose proof quiet_sorted_table. pose proof quiet_rescale.
  unfold normalized_table. repeat quiet_step.
Qed.

Lemma quiet_gini_of_normalized ty target asc p :
  quiet (gini_of_normalized ty target false asc p).
Proof.
  pose proof quiet_running_totals. pose proof quiet_gini_index.
  unfold gini_of_normalized. repeat quiet_step.
Qed.
End quiet_gini.

(** * Every [stride]-th row *)

Lemma length_every_from {A} (k s : nat) (c : list A) :
  (k < s)%nat → length (every_from k s c) = ((length c + (s - 1 - k)) `div` s)%nat.
Proof.
  intros Hk. revert k Hk. induction c as [|x c IH]; intros k Hk.
  - simpl. symmetry. apply Nat.div_small. lia.
  - destruct k as [|k]; simpl.
    + rewrite IH by lia.
      replace (S (length c + (s - 1 - 0)))%nat with (length c + (s - 1 - (s - 1)) + 1 * s)%nat
        by lia.
      rewrite Nat.div_add by lia. lia.
    + rewrite IH by lia. f_equal. lia.
Qed.

Lemma length_every {A} (s : nat) (c : list A) :
  (0 < s)%nat → length (every s c) = ((length c + (s - 1)) `div` s)%nat.
Proof. intros Hs. unfold every. rewrite length_every_from by done. f_equal. lia. Qed.

Lemma every_one {A} (c : list A) : every 1 c = c.
Proof. unfold every. induction c as [|x c IH]; [done|]. simpl. by rewrite IH. Qed.

Lemma stride_of_pos n : (0 < stride_of n)%nat.
Proof.
  unfold stride_of. case_decide; [|lia].
  apply (Nat.div_le_lower_bound n 1000 1); lia.
Qed.

Lemma stride_of_small n : (n ≤ 1000)%nat → stride_of n = 1%nat.
Proof. intros Hn. unfold stride_of. by rewrite decide_False by lia. Qed.

(** Above a thousand rows, between a thousand and 1999 of them are
    kept. *)
Lemma length_every_stride_of {A} (c : list A) :
  (1000 < length c)%nat →
  (1000 ≤ length (every (stride_of (length c)) c) ≤ 1999)%nat.
Proof.
  intros Hn. rewrite length_every by apply stride_of_pos.
  unfold stride_of. rewrite decide_True by done.
  set (n := length c) in *. set (s := (n `div` 1000)%nat).
  assert (1 ≤ s)%nat as Hs by (apply (Nat.div_le_lower_bound n 1000 1); lia).
  pose proof (Nat.div_mod_eq n 1000) as Hdm.
  pose proof (Nat.mod_upper_bound n 1000) as Hm. fold s in Hdm.
  split.
  - apply Nat.div_le_lower_bound; lia.
  - apply Nat.lt_succ_r. apply Nat.Div0.div_lt_upper_bound; lia.
Qed.

(** * The frame that is plotted *)

Lemma project_pair f k1 k2 c1 c2 :
  cols f !! k1 = Some c1 → cols f !! k2 = Some c2 →
  project [k1; k2] f = Frame (nrows f) (<[k1:=c1]> (<[k2:=c2]> ∅)).
Proof. intros H1 H2. unfold project. simpl. by rewrite H1, H2. Qed.

Section plot.
Context (σ : world) (o : loc) (l : lib) (f : frame).
Hypothesis Ho : heap σ !! o = Some (FrameObj l f).
Hypothesis Hcw : has f "cumul_weight".
Hypothesis Hct : has f "cumul_total".

(** Lines 95 to 106 on a frame with the running totals. *)
Lemma plot_lorenz_trace ty :
  ∃ σ', plot_lorenz ty o σ = (Returns (), σ')
        ∧ trace σ' = trace σ ++ lorenz_events (stride_of (nrows f))
                                  (cols f !!! "cumul_total") (cols f !!! "cumul_weight").
Proof using Ho Hcw Hct.
  unfold plot_lorenz.
  rewrite (bind_returns _ _ _ _ _ (shape0_run _ _ _ _ Ho)).
  set (ks := ["cumul_total"; "cumul_weight"]).
  set (s := stride_of (nrows f)).
  set (ct := cols f !!! "cumul_total"). set (cw := cols f !!! "cumul_weight").
  pose proof (has_lookup _ _ Hct) as Hct'. pose proof (has_lookup _ _ Hcw) as Hcw'.
  fold ct in Hct'. fold cw in Hcw'.
  assert (NoDup ks) as Hnd.
  { apply NoDup_cons. split; [|apply NoDup_singleton].
    intros Hin%list_elem_of_singleton. discriminate Hin. }
  assert (Forall (λ k, is_Some (cols f !! k)) ks) as Hks by by repeat constructor.
  set (g := Frame (length (every s (seq 0 (nrows f))))
              (<["cumul_total":=every s ct]> (<["cumul_weight":=every s cw]> ∅))).
  assert (subsample s (project ks f) = g) as Hg.
  { unfold ks. rewrite (project_pair _ _ _ _ _ Hct' Hcw'). unfold subsample, g; simpl.
    f_equal; by rewrite ?fmap_insert, ?fmap_empty. }
  assert (cols g !! "cumul_total" = Some (every s ct)) as Hgt.
  { unfold g; simpl. by rewrite lookup_insert_eq. }
  assert (cols g !! "cumul_weight" = Some (every s cw)) as Hgw.
  { unfold g; simpl. by rewrite lookup_insert_ne, lookup_insert_eq. }
  assert (Forall (λ k, is_Some (cols g !! k)) ks) as Hgks.
  { repeat constructor; eauto. }
  assert (∃ q l' σ1, (if contains "pandas" ty
                      then s' ← getitems o ks; iloc_stride s' s
                      else s' ← h2o_slice o s ks; as_data_frame s') σ
                     = (Returns q, σ1)
                     ∧ heap σ1 !! q = Some (FrameObj l' g)
                     ∧ trace σ1 = trace σ)
    as (q & l' & σ1 & E & Hq & Htr).
  { destruct (contains "pandas" ty).
    - rewrite (bind_returns _ _ _ _ _ (getitems_run _ _ _ _ Ho _ Hks Hnd)).
      rewrite (iloc_stride_run _ _ _ _ (heap_upd _ _ _)), Hg.
      do 3 eexists. split; [done|]. split; [apply heap_upd|done].
    - rewrite (bind_returns _ _ _ _ _ (h2o_slice_run _ _ _ _ Ho _ _ Hks)), Hg.
      rewrite (as_data_frame_run _ _ _ _ (heap_upd _ _ _)).
      do 3 eexists. split; [done|]. split; [apply heap_upd|done]. }
  rewrite (bind_returns _ _ _ _ _ E).
  rewrite (bind_returns _ _ _ _ _ (getitem_run _ _ _ _ Hq _ _ Hgw)).
  rewrite (bind_returns _ _ _ _ _ (getitems_run _ _ _ _ Hq _ Hgks Hnd)).
  rewrite (bind_returns _ _ _ _ _ (plt_plot_run _ _ _ _ (heap_upd _ _ _) _ _)).
  eexists. split; [reflexivity|].
  unfold ks. rewrite (project_pair _ _ _ _ _ Hgt Hgw). simpl.
  rewrite lookup_insert_eq, lookup_insert_ne, lookup_insert_eq by done.
  rewrite Htr. unfold lorenz_events. by rewrite <- app_assoc.
Qed.
End plot.

Section gini_trace.
Context `{B : Backends}.

Lemma gini_of_normalized_trace l target wl ascending ty sd σ1 g :
  heap σ1 !! sd = Some (FrameObj l g) →
  has g target → has g wl →
  trace (gini_of_normalized ty target true ascending (sd, wl) σ1).2
  = trace σ1 ++ lorenz_events (stride_of (nrows g))
                  (cols (totals_frame target wl g) !!! "cumul_total")
                  (cols (totals_frame target wl g) !!! "cumul_weight").
Proof.
  intros Hsd Hgt Hgw. unfold gini_of_normalized; simpl.
  rewrite (bind_returns _ _ _ _ _ (running_totals_run _ _ _ _ _ _ Hsd Hgt Hgw)).
  set (g' := totals_frame target wl g).
  assert (has g' "cumul_weight") as Hcw by apply has_set_col_eq.
  assert (has g' "cumul_total") as Hct by apply has_set_col, has_set_col_eq.
  assert (has g' wl) as Hgw' by by do 2 apply has_set_col.
  rewrite (bind_returns _ _ _ _ _
             (gini_index_run _ _ _ _ _ (heap_upd _ _ _) Hgw' _ Hcw Hct)).
  set (g'' := set_col "lift" (lift_col wl g') g').
  edestruct (plot_lorenz_trace (upd sd (FrameObj l g'') (upd sd (FrameObj l g') σ1)) sd l g''
               (heap_upd _ _ _)) as (σ2 & E2 & Htr).
  { by apply has_set_col. } { by apply has_set_col. }
  rewrite (bind_returns _ _ _ _ _ E2). simpl. rewrite Htr. simpl.
  unfold g''. cbn [set_col cols nrows].
  by rewrite !(lookup_total_insert_ne _ "lift") by done.
Qed.

(** What a call on a frame with the columns asked for prints and
    plots. *)
Lemma gini_trace σ data l f target ranking weight plot ascending :
  heap σ !! data = Some (FrameObj l f) →
  has f (default target ranking) → has f target → weight_ok f target weight →
  trace (gini_world σ data target ranking weight plot ascending)
  = trace σ ++
    (if plot then
       let g := totals_frame target (wlabel weight)
                  (rescale_frame target (wlabel weight)
                     (working_frame l f target (default target ranking) weight ascending)) in
       lorenz_events (stride_of (nrows f))
         (cols g !!! "cumul_total") (cols g !!! "cumul_weight")
     else []).
Proof.
  intros Hdata Hr Ht Hw. unfold gini_world, gini.
  assert (type_of data σ = (Returns (type_str (FrameObj l f)), σ)) as Ety.
  { unfold type_of, lookup_obj, mbind, py_bind. by rewrite Hdata. }
  rewrite (bind_returns _ _ _ _ _ Ety).
  destruct plot.
  2:{ rewrite app_nil_r. pose proof quiet_normalized_table.
      pose proof quiet_gini_of_normalized. destruct l; simpl; apply quiet_bind; auto. }
  destruct (normalized_table_run _ _ _ _ _ _ _ ascending Hdata Hr Ht Hw)
    as (sd & σ1 & E & Hsd).
  pose proof (quiet_normalized_table l data target (default target ranking) weight ascending σ)
    as Hq. rewrite E in Hq. simpl in Hq.
  destruct (working_frame_has l f target (default target ranking) weight ascending Ht Hw)
    as [Hwt Hww].
  set (g := rescale_frame target (wlabel weight)
              (working_frame l f target (default target ranking) weight ascending)) in *.
  assert (has g target) as Hgt by by do 2 apply has_set_col.
  assert (has g (wlabel weight)) as Hgw by apply has_set_col_eq.
  assert (nrows g = nrows f) as Hn.
  { unfold g, rescale_frame, working_frame. cbn zeta. by destruct weight. }
  destruct l; simpl; rewrite (bind_returns _ _ _ _ _ E);
    rewrite (gini_of_normalized_trace _ _ _ _ _ _ _ _ Hsd Hgt Hgw); by rewrite Hq, Hn.
Qed.
End gini_trace.

(** * The running totals of the working frame *)

Lemma totals_table2 n target wl t w :
  wl ≠ target → wl ≠ "cumul_total" →
  cols (totals_frame target wl (table2 n target wl t w)) !!! "cumul_total" = col_cumsum t
  ∧ cols (totals_frame target wl (table2 n target wl t w)) !!! "cumul_weight"
    = col_cumsum w.
Proof.
  intros H1 H2. unfold totals_frame, set_col. cbn zeta. cbn [cols nrows].
  rewrite table2_target, decide_False by done.
  rewrite lookup_total_insert_eq.
  rewrite (lookup_total_insert_ne _ "cumul_weight" "cumul_total") by done.
  rewrite lookup_total_insert_eq.
  rewrite (lookup_total_insert_ne _ "cumul_total" wl) by done.
  by rewrite table2_weight.
Qed.

Lemma length_cumsum_from acc c : length (cumsum_from acc c) = length c.
Proof.
  revert acc. induction c as [|x c IH]; intros acc; [done|].
  simpl. destruct (is_nan x); simpl; by rewrite IH.
Qed.

Lemma length_col_cumsum c : length (col_cumsum c) = length c.
Proof. apply length_cumsum_from. Qed.

Lemma length_ndiv c : length (ndiv c) = length c.
Proof. unfold ndiv, col_div. by rewrite length_fmap. Qed.

Lemma last_qcumsum acc l : l ≠ [] → last (qcumsum acc l) = Some (acc + qsum l).
Proof.
  revert acc. induction l as [|x l IH]; intros acc Hl; [done|].
  destruct l as [|y l].
  - simpl. f_equal. unfold qsum. simpl. ring.
  - change (last (qcumsum acc (x :: y :: l))) with (last (qcumsum (acc + x) (y :: l))).
    rewrite IH by done. rewrite (qsum_cons x). f_equal. ring.
Qed.

Section plotted.
Context {B : Backends}.

(** The running totals of the working frame after line 81. *)
Lemma working_totals l f target ranking weight ascending :
  has f target → weight_ok f target weight →
  wlabel weight ≠ target → weight ≠ Some "cumul_total" →
  let g := totals_frame target (wlabel weight)
             (rescale_frame target (wlabel weight)
                (working_frame l f target ranking weight ascending)) in
  cols g !!! "cumul_total"
  = col_cumsum (ndiv (sorted_col l f ranking ascending target))
  ∧ cols g !!! "cumul_weight"
    = col_cumsum (ndiv (weight_col l f ranking ascending weight)).
Proof.
  intros Ht Hw Hne Hct. cbn zeta.
  rewrite working_frame_table, rescale_table2 by done.
  rewrite decide_False by done.
  apply totals_table2; [done|]. destruct weight; simpl; [congruence|done].
Qed.
End plotted.

Section columns.
Context {B : Backends} {L : BackendLaws B}.

Lemma length_sorted_col l f ranking ascending k :
  frame_wf f → has f ranking → has f k →
  length (sorted_col l f ranking ascending k) = nrows f.
Proof.
  intros Hwf Hr Hk. unfold sorted_col.
  rewrite length_take_rows, length_argsort.
  by apply (frame_wf_length f ranking), has_lookup.
Qed.

Lemma length_weight_col l f target ranking ascending weight :
  frame_wf f → has f ranking → weight_ok f target weight →
  length (weight_col l f ranking ascending weight) = nrows f.
Proof.
  intros Hwf Hr Hw. destruct weight as [w|]; simpl.
  - destruct Hw as [Hw _]. by apply length_sorted_col.
  - apply length_replicate.
Qed.
End columns.

(** * Whether the curve is plotted does not change the result *)

Lemma bind_result_ext {A C} (m : py A) (k k' : A → py C) σ :
  (∀ a σ', m σ = (Returns a, σ') → (k a σ').1 = (k' a σ').1) →
  ((m ≫= k) σ).1 = ((m ≫= k') σ).1.
Proof.
  intros Hk. unfold mbind, py_bind. destruct (m σ) as [[a|e|] σ']; [|done..].
  by apply Hk.
Qed.

Lemma getitem_returns σ o k c σ' :
  getitem o k σ = (Returns c, σ') →
  ∃ l f, heap σ !! o = Some (FrameObj l f) ∧ cols f !! k = Some c ∧ σ' = σ.
Proof.
  unfold getitem, lookup_frame, lookup_obj, mbind, py_bind.
  destruct (heap σ !! o) as [[l f| |]|]; simpl; try discriminate.
  destruct (cols f !! k) as [c'|] eqn:Hk; simpl; [|discriminate].
  intros [= <- <-]. eauto.
Qed.

Lemma gini_index_returns sd w ascending σ g σ' :
  gini_index sd w ascending σ = (Returns g, σ') →
  ∃ l f, heap σ' !! sd = Some (FrameObj l f)
         ∧ has f "cumul_weight" ∧ has f "cumul_total".
Proof.
  unfold gini_index. intros E.
  destruct (getitem sd "cumul_weight" σ) as [[cw|e|] σ1] eqn:E1;
    [|unfold mbind, py_bind in E; rewrite E1 in E; discriminate..].
  destruct (getitem_returns _ _ _ _ _ E1) as (l & f & Hsd & Hcw & ->).
  rewrite (bind_returns _ _ _ _ _ E1) in E.
  destruct (getitem sd "cumul_total" σ) as [[ct|e|] σ1] eqn:E2;
    [|unfold mbind, py_bind in E; rewrite E2 in E; discriminate..].
  destruct (getitem_returns _ _ _ _ _ E2) as (l' & f' & Hsd' & Hct & ->).
  rewrite Hsd in Hsd'. injection Hsd' as <- <-.
  rewrite (bind_returns _ _ _ _ _ E2) in E.
  destruct (getitem sd w σ) as [[cw'|e|] σ1] eqn:E3;
    [|unfold mbind, py_bind in E; rewrite E3 in E; discriminate..].
  destruct (getitem_returns _ _ _ _ _ E3) as (l' & f' & Hsd' & Hw & ->).
  rewrite Hsd in Hsd'. injection Hsd' as <- <-.
  rewrite (bind_returns _ _ _ _ _ E3) in E.
  rewrite (bind_returns _ _ _ _ _ (setitem_run _ _ _ _ Hsd _ _)) in E.
  rewrite (bind_returns _ _ _ _ _
             (getitem_run _ _ _ _ (heap_upd _ _ _) _ _ (lookup_insert_eq _ _ _))) in E.
  assert (σ' = upd sd (FrameObj l (set_col "lift" (col_mul (col_sub cw ct) cw') f)) σ) as ->.
  { by destruct ascending; injection E as _ <-. }
  exists l, (set_col "lift" (col_mul (col_sub cw ct) cw') f).
  split; [apply heap_upd|]. split; apply has_set_col; by eexists.
Qed.

Section plot_result.
Context {B : Backends}.

Lemma gini_of_normalized_plot ty target ascending p σ :
  (gini_of_normalized ty target true ascending p σ).1
  = (gini_of_normalized ty target false ascending p σ).1.
Proof.
  unfold gini_of_normalized. apply bind_result_ext. intros [] σ2 _.
  apply bind_result_ext. intros g σ3 E.
  destruct (gini_index_returns _ _ _ _ _ _ E) as (l & f & Hsd & Hcw & Hct).
  destruct (plot_lorenz_run σ3 p.1 l f Hsd ty Hcw Hct) as [σ4 E4].
  by rewrite (bind_returns _ _ _ _ _ E4).
Qed.
End plot_result.

(** * A label that is no column *)

Lemma bind_raises {A C} (m : py A) (k : A → py C) σ e σ' :
  m σ = (Raises e, σ') → (m ≫= k) σ = (Raises e, σ').
Proof. intros E. unfold mbind, py_bind. by rewrite E. Qed.

Lemma getitems_missing σ o l f ks :
  heap σ !! o = Some (FrameObj l f) →
  Exists (λ k, cols f !! k = None) ks →
  ∃ k, k ∈ ks ∧ cols f !! k = None ∧ getitems o ks σ = (Raises (KeyError k), σ).
Proof.
  intros Ho Hks. unfold getitems.
  rewrite (bind_returns _ _ _ _ _ (lookup_frame_run _ _ _ _ Ho)).
  destruct (filter (λ k, cols f !! k = None) ks) as [|k r] eqn:E.
  - apply Exists_exists in Hks as (k & Hin & Hk).
    assert (k ∈ filter (λ k, cols f !! k = None) ks) as Hf
      by by apply list_elem_of_filter.
    rewrite E in Hf. by apply not_elem_of_nil in Hf.
  - assert (k ∈ filter (λ k, cols f !! k = None) ks) as Hf
      by (rewrite E; apply list_elem_of_here).
    apply list_elem_of_filter in Hf as [Hk Hin]. by exists k.
Qed.

Lemma permute_lookup_none idx f k : cols f !! k = None → cols (permute idx f) !! k = None.
Proof. intros Hk. unfold permute; simpl. by rewrite lookup_fmap, Hk. Qed.

Section missing.
Context {B : Backends}.

Lemma sorted_table_missing σ data f target ranking weight ascending :
  heap σ !! data = Some (FrameObj Pandas f) →
  Exists (λ k, cols f !! k = None) (ranking :: target :: option_list weight) →
  ∃ k σ', k ∈ ranking :: target :: option_list weight ∧ cols f !! k = None
          ∧ sorted_table Pandas data target ranking weight ascending σ
            = (Raises (KeyError k), σ').
Proof.
  intros Hdata Hex. unfold sorted_table.
  destruct (cols f !! ranking) as [keys|] eqn:Hr.
  - assert (has f ranking) as Hhr by by eexists.
    apply Exists_cons in Hex as [Hex|Hex]; [by rewrite Hr in Hex|].
    set (s := permute (argsort Pandas (cols f !!! ranking) ascending) f).
    assert (Exists (λ k, cols s !! k = None) (target :: option_list weight)) as Hex'.
    { eapply Exists_impl; [exact Hex|]. intros k Hk. by apply permute_lookup_none. }
    destruct (getitems_missing (upd (new σ) (FrameObj Pandas s) σ) (new σ) Pandas s
                (target :: option_list weight) (heap_upd _ _ _) Hex')
      as (k & Hin & Hk & E).
    assert (cols f !! k = None) as Hk'.
    { unfold s, permute in Hk; simpl in Hk. rewrite lookup_fmap in Hk.
      by destruct (cols f !! k). }
    exists k. eexists. split; [by right|]. split; [done|].
    destruct weight as [w|]; simpl in E |- *;
      rewrite (bind_returns _ _ _ _ _ (sort_values_run _ _ _ _ _ Hdata Hhr));
      fold s; by rewrite (bind_raises _ _ _ _ _ E).
  - exists ranking, σ. split; [by left|]. split; [done|].
    assert (sort_values data ranking ascending σ = (Raises (KeyError ranking), σ)) as E.
    { unfold sort_values, lookup_obj, mbind, py_bind. by rewrite Hdata, Hr. }
    destruct weight as [w|]; by rewrite (bind_raises _ _ _ _ _ E).
Qed.

End missing.

(** * An outcome column that sums to zero *)





(** * Calls that sort alike *)

Lemma take_rows_compose {A} `{Inhabited A} idx π (c : list A) :
  Forall (λ i, i < length π)%nat idx →
  take_rows idx (take_rows π c) = take_rows (take_rows idx π) c.
Proof.
  intros Hidx. unfold take_rows. rewrite <- list_fmap_compose.
  apply Forall_fmap_ext_1. eapply Forall_impl; [exact Hidx|].
  intros i Hi. simpl. exact (list_lookup_total_fmap (λ j, c !!! j) π i Hi).
Qed.

Lemma sorted_order_unique_dir asc idx1 idx2 (ks : list Qc) :
  NoDup ks →
  idx1 ≡ₚ seq 0 (length ks) → idx2 ≡ₚ seq 0 (length ks) →
  Sorted (dir_le asc) (take_rows idx1 ks) → Sorted (dir_le asc) (take_rows idx2 ks) →
  idx1 = idx2.
Proof.
  intros Hnd Hp1 Hp2 Hs1 Hs2. destruct asc; [by apply (sorted_order_unique _ _ ks)|].
  apply (inj reverse). apply (sorted_order_unique _ _ ks Hnd).
  - by rewrite reverse_Permutation.
  - by rewrite reverse_Permutation.
  - rewrite take_rows_reverse. by apply (Sorted_reverse (flip Qcle)).
  - rewrite take_rows_reverse. by apply (Sorted_reverse (flip Qcle)).
Qed.

Section alike.
Context {B : Backends}.

Lemma coefficient_cols_eq l l' f f' target ranking ranking' weight ascending :
  has f target → weight_ok f target weight →
  has f' target → weight_ok f' target weight →
  nrows f = nrows f' →
  sorted_col l f ranking ascending target = sorted_col l' f' ranking' ascending target →
  weight_col l f ranking ascending weight = weight_col l' f' ranking' ascending weight →
  coefficient_of l f target ranking weight ascending
  = coefficient_of l' f' target ranking' weight ascending.
Proof.
  intros Ht Hw Ht' Hw' Hn E1 E2. unfold coefficient_of. cbn zeta.
  rewrite !working_frame_table by done. by rewrite Hn, E1, E2.
Qed.

Lemma weight_col_eq l l' f f' ranking ranking' ascending weight :
  nrows f = nrows f' →
  (∀ w, weight = Some w →
        sorted_col l f ranking ascending w = sorted_col l' f' ranking' ascending w) →
  weight_col l f ranking ascending weight = weight_col l' f' ranking' ascending weight.
Proof. intros Hn Hw. destruct weight as [w|]; simpl; [by apply Hw|by rewrite Hn]. Qed.
End alike.

Section unique.
Context {B : Backends} {L : BackendLaws B}.

(** With distinct keys there is one order that sorts. *)
Lemma argsort_unique l idx (ks : list Qc) asc :
  NoDup ks → idx ≡ₚ seq 0 (length ks) →
  Sorted (dir_le asc) (take_rows idx ks) →
  argsort l (Fin <$> ks) asc = idx.
Proof.
  intros Hnd Hp Hs. apply (sorted_order_unique_dir asc _ _ ks Hnd); [|done| |done].
  - apply argsort_fin_perm.
  - apply argsort_sorted.
Qed.

Lemma sorted_col_take l f ranking ascending k X :
  frame_wf f → has f ranking → cols f !! k = Some (Fin <$> X) →
  sorted_col l f ranking ascending k
  = Fin <$> take_rows (argsort l (cols f !!! ranking) ascending) X.
Proof.
  intros Hwf Hr Hk. unfold sorted_col. rewrite (lookup_total_cols _ _ _ Hk).
  apply take_rows_fmap.
  assert (length X = nrows f) as ->.
  { rewrite <- (frame_wf_length f _ _ Hwf Hk). by rewrite length_fmap. }
  rewrite <- (frame_wf_length f _ _ Hwf (has_lookup _ _ Hr)). apply argsort_lt.
Qed.

(** The rows of a frame in another order sort to the same rows. *)
Lemma sorted_col_permute l f ranking ascending π K k :
  frame_wf f → π ≡ₚ seq 0 (nrows f) →
  cols f !! ranking = Some (Fin <$> K) → NoDup K → has f k →
  sorted_col l (permute π f) ranking ascending k = sorted_col l f ranking ascending k.
Proof.
  intros Hwf Hπ Hr HK Hk.
  assert (has f ranking) as Hhr by by eexists.
  assert (length K = nrows f) as HlK.
  { rewrite <- (frame_wf_length f _ _ Hwf Hr). by rewrite length_fmap. }
  assert (length π = nrows f) as Hlπ by by apply perm_seq_length.
  unfold sorted_col.
  rewrite !(lookup_total_cols _ _ _ (permute_lookup π f _ Hhr)).
  rewrite (lookup_total_cols _ _ _ (permute_lookup π f _ Hk)).
  rewrite (lookup_total_cols _ _ _ Hr).
  rewrite (take_rows_fmap Fin π K) by (rewrite HlK; by apply perm_seq_lt).
  set (idx' := argsort l (Fin <$> take_rows π K) ascending).
  assert (idx' ≡ₚ seq 0 (length π)) as Hidx'.
  { unfold idx'. rewrite <- (length_take_rows π K). apply argsort_fin_perm. }
  rewrite take_rows_compose by by apply perm_seq_lt.
  f_equal. symmetry. apply argsort_unique; [done| |].
  - rewrite HlK, <- Hπ. by apply take_rows_perm.
  - rewrite <- take_rows_compose by by apply perm_seq_lt. apply argsort_sorted.
Qed.
End unique.

(** * The range of the coefficient without weights *)

(** Inequalities of [Qc] as inequalities of [Q]. *)
Ltac qc_to_q :=
  unfold Qcle, Qclt, Qcminus, Qcplus, Qcopp, Qcmult in *; simpl this in *;
  rewrite ?Qred_correct in *.

Lemma qnat_0 : qnat 0 = 0.
Proof. by apply Qc_is_canon. Qed.

Lemma qnat_S n : qnat (S n) = qnat n + 1.
Proof.
  apply Qc_is_canon. unfold qnat. qc_to_q.
  rewrite Nat2Z.inj_succ. unfold Z.succ. rewrite inject_Z_plus. reflexivity.
Qed.

Lemma qnat_nonneg n : 0 ≤ qnat n.
Proof.
  induction n as [|n IH]; [by rewrite qnat_0|]. rewrite qnat_S. qc_to_q. lra.
Qed.

Lemma qnat_pos n : (0 < n)%nat → 1 ≤ qnat n.
Proof.
  destruct n as [|n]; [lia|]. intros _. rewrite qnat_S.
  pose proof (qnat_nonneg n). qc_to_q. lra.
Qed.

Lemma qsum_ones n : qsum (replicate n 1) = qnat n.
Proof.
  induction n as [|n IH]; [by rewrite qnat_0|].
  cbn [replicate]. rewrite qsum_cons, IH, qnat_S. ring.
Qed.

Lemma qsum_nonneg l : Forall (λ x, 0 ≤ x) l → 0 ≤ qsum l.
Proof.
  induction 1 as [|x l Hx _ IH]; [done|]. rewrite qsum_cons. qc_to_q. lra.
Qed.

Lemma Qcinv_pos x : 0 < x → 0 < / x.
Proof.
  intros Hx. unfold Qcinv. qc_to_q. by apply Qinv_lt_0_compat.
Qed.

Lemma Qcdiv_nonneg x y : 0 ≤ x → 0 < y → 0 ≤ x / y.
Proof.
  intros Hx Hy%Qcinv_pos. unfold Qcdiv. qc_to_q.
  apply Qmult_le_0_compat; [done|]. by apply Qlt_le_weak.
Qed.

Lemma Qcdiv_le_mono x y z : 0 < z → x ≤ y → x / z ≤ y / z.
Proof.
  intros Hz%Qcinv_pos Hxy. unfold Qcdiv. qc_to_q.
  apply Qmult_le_compat_r; [done|]. by apply Qlt_le_weak.
Qed.

Lemma norm_nonneg l :
  Forall (λ x, 0 ≤ x) l → qsum l ≠ 0 → Forall (λ x, 0 ≤ x) (norm l).
Proof.
  intros Hl Hs. pose proof (qsum_nonneg l Hl) as Hs'.
  assert (0 < qsum l) as Hpos.
  { apply Qcle_lt_or_eq in Hs' as [?|E]; [done|]. by destruct Hs. }
  unfold norm. apply Forall_fmap. eapply Forall_impl; [exact Hl|].
  intros x Hx. simpl. by apply Qcdiv_nonneg.
Qed.

Lemma norm_sorted asc l :
  0 < qsum l → Sorted (dir_le asc) l → Sorted (dir_le asc) (norm l).
Proof.
  intros Hpos Hl. unfold norm. apply Sorted_fmap with (R1 := dir_le asc); [|done].
  intros x y Hxy. destruct asc; simpl in *; by apply Qcdiv_le_mono.
Qed.

(** The weights of a call without a weight column, over their sum. *)
Lemma norm_ones n : (0 < n)%nat → norm (replicate n 1) = replicate n (1 / qnat n).
Proof. intros Hn. unfold norm. by rewrite fmap_replicate, qsum_ones. Qed.

Lemma zip_replicate_r {A C} (t : list A) (u : C) :
  zip t (replicate (length t) u) = (λ x, (x, u)) <$> t.
Proof. induction t as [|x t IH]; [done|]. simpl. by rewrite IH. Qed.

Lemma wtot_uniform u l : wtot ((λ x, (x, u)) <$> l) = qnat (length l) * u.
Proof.
  unfold wtot. induction l as [|x l IH].
  - simpl. rewrite qnat_0. unfold qsum. simpl. ring.
  - rewrite !fmap_cons, qsum_cons, IH. cbn [length]. rewrite qnat_S. simpl. ring.
Qed.

Lemma uarea_nil u : uarea u [] = 0.
Proof. done. Qed.

(** One more row in front. *)
Lemma uarea_cons u x l :
  uarea u (x :: l) = uarea u l + (u - x) * (qnat (length l) * u + u).
Proof.
  unfold uarea. rewrite fmap_cons. simpl area.
  rewrite (area_shift (0 + u) (0 + x)), wtot_uniform. ring.
Qed.

Section range.
Context (u : Qc).
Hypothesis Hu : 0 ≤ u.

Lemma uarea_upper l :
  Forall (λ x, 0 ≤ x) l →
  2 * uarea u l
  ≤ u * u * qnat (length l) * (qnat (length l) + 1) - 2 * u * qsum l.
Proof using Hu.
  induction 1 as [|x l Hx Hl IH].
  - cbn [length]. rewrite uarea_nil, qnat_0. change (qsum []) with (0 : Qc). qc_to_q. lra.
  - rewrite uarea_cons, qsum_cons. cbn [length]. rewrite qnat_S.
    pose proof (qnat_nonneg (length l)) as HM.
    revert IH. generalize (uarea u l) (qnat (length l)) (qsum l) HM.
    intros a M S HM' IH. qc_to_q.
    assert (0 <= this u * this x * this M)%Q by (repeat apply Qmult_le_0_compat; done).
    nra.
Qed.

Lemma uarea_lower l :
  Forall (λ x, 0 ≤ x) l →
  u * u * qnat (length l) * (qnat (length l) + 1) - 2 * u * qnat (length l) * qsum l
  ≤ 2 * uarea u l.
Proof using Hu.
  induction 1 as [|x l Hx Hl IH].
  - cbn [length]. rewrite uarea_nil, qnat_0. change (qsum []) with (0 : Qc). qc_to_q. lra.
  - rewrite uarea_cons, qsum_cons. cbn [length]. rewrite qnat_S.
    pose proof (qnat_nonneg (length l)) as HM.
    pose proof (qsum_nonneg l Hl) as HS.
    revert IH. generalize (uarea u l) (qnat (length l)) (qsum l) HM HS.
    intros a M S HM' HS' IH. qc_to_q.
    assert (0 <= this u * this S)%Q by (apply Qmult_le_0_compat; done).
    nra.
Qed.

Lemma qsum_above x l : Forall (λ y, x ≤ y) l → qnat (length l) * x ≤ qsum l.
Proof.
  induction 1 as [|y l Hy _ IH].
  - cbn [length]. rewrite qnat_0. change (qsum []) with (0 : Qc). qc_to_q. lra.
  - rewrite qsum_cons. cbn [length]. rewrite qnat_S. qc_to_q. lra.
Qed.

Lemma qsum_below x l : Forall (λ y, y ≤ x) l → qsum l ≤ qnat (length l) * x.
Proof.
  induction 1 as [|y l Hy _ IH].
  - cbn [length]. rewrite qnat_0. change (qsum []) with (0 : Qc). qc_to_q. lra.
  - rewrite qsum_cons. cbn [length]. rewrite qnat_S. qc_to_q. lra.
Qed.

(** Outcomes in ascending order: the curve is under the diagonal. *)
Lemma uarea_ascending l :
  Sorted Qcle l →
  u * (qnat (length l) + 1) * (u * qnat (length l) - qsum l) ≤ 2 * uarea u l.
Proof using Hu.
  intros Hs. apply Sorted_StronglySorted in Hs; [|apply _].
  induction Hs as [|x l Hs IH Hx].
  - cbn [length]. rewrite uarea_nil, qnat_0. change (qsum []) with (0 : Qc). qc_to_q. lra.
  - rewrite uarea_cons, qsum_cons. cbn [length]. rewrite qnat_S.
    pose proof (qnat_nonneg (length l)) as HM.
    pose proof (qsum_above x l Hx) as HS.
    revert IH HS. generalize (uarea u l) (qnat (length l)) (qsum l) HM.
    intros a M S HM' IH HS. qc_to_q.
    assert (0 <= this u * (this S - this M * this x))%Q
      by (apply Qmult_le_0_compat; [done|lra]).
    nra.
Qed.

(** Outcomes in descending order: the curve is over the diagonal. *)
Lemma uarea_descending l :
  Sorted (flip Qcle) l →
  2 * uarea u l ≤ u * (qnat (length l) + 1) * (u * qnat (length l) - qsum l).
Proof using Hu.
  intros Hs. apply Sorted_StronglySorted in Hs; [|apply _].
  induction Hs as [|x l Hs IH Hx].
  - cbn [length]. rewrite uarea_nil, qnat_0. change (qsum []) with (0 : Qc). qc_to_q. lra.
  - rewrite uarea_cons, qsum_cons. cbn [length]. rewrite qnat_S.
    pose proof (qnat_nonneg (length l)) as HM.
    pose proof (qsum_below x l Hx) as HS.
    revert IH HS. generalize (uarea u l) (qnat (length l)) (qsum l) HM.
    intros a M S HM' IH HS. qc_to_q.
    assert (0 <= this u * (this M * this x - this S))%Q
      by (apply Qmult_le_0_compat; [done|lra]).
    nra.
Qed.
End range.

(** The coefficient of [n] outcomes without weights. *)
Lemma qcoef_uarea asc t :
  qsum t ≠ 0 →
  qcoef asc t (replicate (length t) 1)
  = (if asc then 2 else - 2) * uarea (1 / qnat (length t)) (norm t).
Proof.
  intros Ht. assert (0 < length t)%nat as Hn by (destruct t; [done|simpl; lia]).
  unfold qcoef, uarea. rewrite qlift_area, norm_ones by done.
  rewrite <- (length_norm t) at 1. by rewrite zip_replicate_r.
Qed.

Lemma qcoef_range asc t :
  Forall (λ x, 0 ≤ x) t → qsum t ≠ 0 →
  - (1 - 1 / qnat (length t)) ≤ qcoef asc t (replicate (length t) 1)
  ∧ qcoef asc t (replicate (length t) 1) ≤ 1 - 1 / qnat (length t).
Proof.
  intros Hnn Ht. rewrite qcoef_uarea by done.
  assert (0 < length t)%nat as Hn by (destruct t; [done|simpl; lia]).
  pose proof (qnat_pos _ Hn) as HN.
  assert (qnat (length t) ≠ 0) as HN0.
  { intros E. rewrite E in HN. by apply (Qcle_not_lt _ _ HN). }
  set (u := 1 / qnat (length t)).
  assert (qnat (length t) * u = 1) as HNu by (unfold u; by field).
  assert (0 ≤ u) as Hu.
  { apply Qcdiv_nonneg; [done|]. by apply (Qclt_le_trans _ 1). }
  pose proof (uarea_upper u Hu (norm t) (norm_nonneg t Hnn Ht)) as Hup.
  pose proof (uarea_lower u Hu (norm t) (norm_nonneg t Hnn Ht)) as Hlo.
  rewrite length_norm, qsum_norm in Hup, Hlo by done.
  revert Hup Hlo HNu. generalize (uarea u (norm t)) (qnat (length t)).
  intros a N Hup Hlo HNu.
  assert (u * u * N * (N + 1) = 1 + u) as E1.
  { transitivity (u * (N * u) * (N + 1)); [ring|]. rewrite HNu.
    transitivity (N * u + u); [ring|]. by rewrite HNu. }
  assert (2 * u * N * 1 = 2) as E2.
  { transitivity (2 * (N * u)); [ring|]. rewrite HNu. ring. }
  rewrite E1 in Hup, Hlo. rewrite E2 in Hlo.
  destruct asc; split; qc_to_q; lra.
Qed.

Lemma qcoef_self_ranked asc t :
  Forall (λ x, 0 ≤ x) t → qsum t ≠ 0 → Sorted (dir_le asc) t →
  0 ≤ qcoef asc t (replicate (length t) 1).
Proof.
  intros Hnn Ht Hs. rewrite qcoef_uarea by done.
  assert (0 < length t)%nat as Hn by (destruct t; [done|simpl; lia]).
  pose proof (qnat_pos _ Hn) as HN.
  assert (qnat (length t) ≠ 0) as HN0.
  { intros E. rewrite E in HN. by apply (Qcle_not_lt _ _ HN). }
  set (u := 1 / qnat (length t)).
  assert (u * qnat (length t) = 1) as HNu by (unfold u; by field).
  assert (0 ≤ u) as Hu.
  { apply Qcdiv_nonneg; [done|]. by apply (Qclt_le_trans _ 1). }
  assert (0 < qsum t) as Hpos.
  { pose proof (qsum_nonneg t Hnn) as Hs'.
    apply Qcle_lt_or_eq in Hs' as [?|E]; [done|]. by destruct Ht. }
  pose proof (norm_sorted asc t Hpos Hs) as Hs'.
  destruct asc; simpl in Hs'.
  - pose proof (uarea_ascending u Hu (norm t) Hs') as H.
    rewrite length_norm, qsum_norm, HNu in H by done.
    revert H. generalize (uarea u (norm t)) (qnat (length t)). intros a N H.
    qc_to_q. lra.
  - pose proof (uarea_descending u Hu (norm t) Hs') as H.
    rewrite length_norm, qsum_norm, HNu in H by done.
    revert H. generalize (uarea u (norm t)) (qnat (length t)). intros a N H.
    qc_to_q. lra.
Qed.

Lemma qnat_inv_le n : (0 < n)%nat → 0 ≤ 1 - 1 / qnat n.
Proof.
  intros Hn. pose proof (qnat_pos _ Hn) as HN.
  assert (qnat n ≠ 0) as HN0.
  { intros E. rewrite E in HN. by apply (Qcle_not_lt _ _ HN). }
  set (u := 1 / qnat n).
  assert (qnat n * u = 1) as HNu by (unfold u; by field).
  assert (0 ≤ u) as Hu.
  { apply Qcdiv_nonneg; [done|]. by apply (Qclt_le_trans _ 1). }
  assert (qnat n * u ≤ 1) as HNu' by by rewrite HNu.
  clear HNu HN0. revert HN HNu'. generalize (qnat n) u Hu. intros N v Hv HN HNv.
  qc_to_q. nra.
Qed.

Section range_of_gini.
Context {B : Backends} {L : BackendLaws B}.

(** The sorted outcomes of a call without a weight column. *)
Lemma gini_unweighted σ data l f target ranking plot ascending T :
  heap σ !! data = Some (FrameObj l f) →
  frame_wf f →
  has f (default target ranking) →
  cols f !! target = Some (Fin <$> T) →
  qsum T ≠ 0 →
  target ≠ "weight" →
  gini_result σ data target ranking None plot ascending
  = Returns (Fin (qcoef ascending
                    (take_rows (argsort l (cols f !!! default target ranking) ascending) T)
                    (replicate (length T) 1))).
Proof.
  intros Hdata Hwf Hr Ht HT Hne.
  assert (has f target) as Hht by (by eexists).
  rewrite (gini_run σ data l f) by done. f_equal.
  rewrite coefficient_generic by (done || by intros E; apply Hne).
  rewrite (sorted_col_take l f _ ascending target _ Hwf Hr Ht). simpl weight_col.
  assert (length T = nrows f) as HlT.
  { rewrite <- (frame_wf_length f _ _ Hwf Ht). by rewrite length_fmap. }
  set (idx := argsort l (cols f !!! default target ranking) ascending).
  assert (idx ≡ₚ seq 0 (length T)) as Hidx.
  { unfold idx. rewrite HlT, <- (frame_wf_length f _ _ Hwf (has_lookup _ _ Hr)).
    apply argsort_perm. }
  assert (0 < nrows f)%nat as Hn.
  { rewrite <- HlT. destruct T; [done|simpl; lia]. }
  rewrite replicate_fin, coef_cols_fin, HlT; [done| |by apply qsum_ones_ne].
  by rewrite (qsum_perm _ _ (take_rows_perm idx T Hidx)).
Qed.
End range_of_gini.

(** * Where the curve ends *)

Lemma last_running_total Y :
  qsum Y ≠ 0 → last (col_cumsum (ndiv (Fin <$> Y))) = Some (Fin 1).
Proof.
  intros HY. rewrite ndiv_fin, col_cumsum_fin, fmap_last by done.
  rewrite last_qcumsum.
  - simpl. f_equal. f_equal. rewrite qsum_norm by done. ring.
  - intros E. apply (f_equal length) in E. rewrite length_norm in E.
    destruct Y; [done|discriminate].
Qed.

(** * One row that holds the whole outcome *)

Lemma uarea_concentrated u m s :
  2 * uarea u (replicate m 0 ++ [s])
  = u * u * (qnat m + 1) * (qnat m + 1 + 1) - 2 * u * s.
Proof.
  induction m as [|m IH].
  - simpl app. rewrite uarea_cons, uarea_nil. cbn [length]. rewrite qnat_0. ring.
  - cbn [replicate app]. rewrite uarea_cons.
    rewrite length_app, length_replicate. cbn [length].
    replace (m + 1)%nat with (S m) by lia. rewrite qnat_S.
    transitivity (2 * uarea u (replicate m 0 ++ [s])
                  + 2 * ((u - 0) * ((qnat m + 1) * u + u))); [ring|].
    rewrite IH. ring.
Qed.

Lemma norm_concentrated m c :
  c ≠ 0 → norm (replicate m 0 ++ [c]) = replicate m 0 ++ [1].
Proof.
  intros Hc. unfold norm.
  assert (qsum (replicate m 0 ++ [c]) = c) as ->.
  { induction m as [|m IH]; [unfold qsum; simpl; ring|].
    cbn [replicate app]. rewrite qsum_cons, IH. ring. }
  rewrite fmap_app, fmap_replicate. simpl. f_equal; [f_equal; by field|].
  f_equal. by field.
Qed.

Lemma qcoef_concentrated m c :
  c ≠ 0 →
  qcoef true (replicate m 0 ++ [c]) (replicate (S m) 1) = 1 - 1 / qnat (S m).
Proof.
  intros Hc.
  assert (qsum (replicate m 0 ++ [c]) ≠ 0) as Hs.
  { intros E. apply Hc. rewrite <- E. clear E.
    induction m as [|m IH]; [unfold qsum; simpl; ring|].
    cbn [replicate app]. rewrite qsum_cons, <- IH. ring. }
  assert (length (replicate m 0 ++ [c]) = S m) as Hlen.
  { rewrite length_app, length_replicate. simpl. lia. }
  rewrite <- Hlen at 1. rewrite qcoef_uarea by done.
  rewrite Hlen, norm_concentrated, uarea_concentrated by done.
  assert (qnat (S m) ≠ 0) as HN0.
  { pose proof (qnat_pos (S m)) as HN. intros E. rewrite E in HN.
    apply (Qcle_not_lt _ _ (HN ltac:(lia))). done. }
  rewrite qnat_S in *. by field.
Qed.

Lemma sorted_perm_eq (l1 l2 : list Qc) :
  Sorted Qcle l1 → Sorted Qcle l2 → l1 ≡ₚ l2 → l1 = l2.
Proof. intros. by apply (Sorted_unique Qcle). Qed.

Lemma concentrated_sorted m c : 0 ≤ c → Sorted Qcle (replicate m 0 ++ [c]).
Proof.
  intros Hc. induction m as [|m IH]; [by repeat constructor|].
  cbn [replicate app]. constructor; [done|].
  destruct m; simpl; by constructor.
Qed.

(** The outcomes in the order of the sort, in either direction. *)
Lemma concentrated_take_rows asc idx T m c :
  0 ≤ c → T ≡ₚ c :: replicate m 0 →
  idx ≡ₚ seq 0 (length T) →
  Sorted (dir_le asc) (take_rows idx T) →
  take_rows idx T
  = if asc then replicate m 0 ++ [c] else reverse (replicate m 0 ++ [c]).
Proof.
  intros Hc HT Hidx Hs.
  assert (take_rows idx T ≡ₚ replicate m 0 ++ [c]) as Hp.
  { rewrite (take_rows_perm idx T Hidx), HT. by rewrite Permutation_cons_append. }
  destruct asc; simpl in Hs.
  - apply sorted_perm_eq; [done|by apply concentrated_sorted|done].
  - apply (inj reverse). rewrite reverse_involutive.
    apply sorted_perm_eq; [|by apply concentrated_sorted|].
    + by apply (Sorted_reverse (flip Qcle)).
    + by rewrite reverse_Permutation.
Qed.

(** * One row *)



Section one_row.
Context {B : Backends} {L : BackendLaws B}.

End one_row.

(** * The order of the rows that gives the largest coefficient *)

Section rearrange.
Context (asc : bool) (u : Qc).
Hypothesis Hu : 0 ≤ u.

Lemma uarea_cons_mono y a b :
  length a = length b →
  factor asc * uarea u a ≤ factor asc * uarea u b →
  factor asc * uarea u (y :: a) ≤ factor asc * uarea u (y :: b).
Proof.
  intros Hlen H. rewrite !uarea_cons, Hlen.
  revert H. generalize (uarea u a) (uarea u b) ((u - y) * (qnat (length b) * u + u)).
  intros p q e H. unfold factor in *. destruct asc; qc_to_q; lra.
Qed.

(** Two neighbours put in the order of the sort. *)
Lemma uarea_swap x y r :
  dir_le asc y x →
  factor asc * uarea u (x :: y :: r) ≤ factor asc * uarea u (y :: x :: r).
Proof using Hu.
  intros Hxy. rewrite !uarea_cons. cbn [length]. rewrite qnat_S.
  generalize (uarea u r) (qnat (length r)). intros a R.
  unfold factor. destruct asc; simpl in Hxy; unfold flip in *; qc_to_q.
  - assert (0 <= this u * (this x - this y))%Q
      by (apply Qmult_le_0_compat; [done|lra]).
    nra.
  - assert (0 <= this u * (this y - this x))%Q
      by (apply Qmult_le_0_compat; [done|lra]).
    nra.
Qed.

(** A row moved behind the rows that the sort puts before it. *)
Lemma uarea_move x s1 s2 :
  Forall (λ y, dir_le asc y x) s1 →
  factor asc * uarea u (x :: s1 ++ s2) ≤ factor asc * uarea u (s1 ++ x :: s2).
Proof using Hu.
  induction 1 as [|y s1 Hy _ IH]; [apply Qcle_refl|].
  cbn [app]. eapply Qcle_trans; [by apply uarea_swap|].
  apply uarea_cons_mono; [|done].
  cbn [length]. rewrite !length_app. cbn [length]. lia.
Qed.

(** No order of the rows gives more than the order of the sort. *)
Lemma uarea_sorted_best l s :
  l ≡ₚ s → StronglySorted (dir_le asc) s →
  factor asc * uarea u l ≤ factor asc * uarea u s.
Proof using Hu.
  revert s. induction l as [|x l IH]; intros s Hp Hs.
  - apply Permutation_nil in Hp as ->. apply Qcle_refl.
  - assert (x ∈ s) as Hx by (rewrite <- Hp; apply list_elem_of_here).
    apply list_elem_of_split in Hx as (s1 & s2 & ->).
    rewrite <- Permutation_middle in Hp. apply (inj (x ::.)) in Hp.
    apply StronglySorted_app in Hs as (H12 & Hs1 & Hs2).
    apply StronglySorted_cons in Hs2 as [Hx2 Hs2].
    eapply Qcle_trans; [|apply uarea_move].
    + apply uarea_cons_mono; [by apply Permutation_length|].
      apply IH; [done|]. apply StronglySorted_app_2; [|done..].
      intros x1 x2 H1 H2. apply H12; [done|by right].
    + apply Forall_forall. intros y Hy. apply H12; [done|by left].
Qed.
End rearrange.

Lemma dir_le_strongly_sorted asc l :
  Sorted (dir_le asc) l → StronglySorted (dir_le asc) l.
Proof. destruct asc; simpl; apply Sorted_StronglySorted; apply _. Qed.

(** Outcomes in the order of the sort against the same outcomes in any
    order. *)
Lemma qcoef_sorted_best asc t s :
  0 < qsum t → t ≡ₚ s → Sorted (dir_le asc) s →
  qcoef asc t (replicate (length t) 1) ≤ qcoef asc s (replicate (length s) 1).
Proof.
  intros Hpos Hp Hs.
  assert (qsum t ≠ 0) as Ht by (intros E; rewrite E in Hpos; by apply (Qclt_not_eq _ _ Hpos)).
  assert (qsum s = qsum t) as Hqs by (symmetry; by apply qsum_perm).
  assert (qsum s ≠ 0) as Hs0 by by rewrite Hqs.
  rewrite !qcoef_uarea by done. rewrite <- (Permutation_length Hp).
  assert (0 < length t)%nat as Hn by (destruct t; [done|simpl; lia]).
  assert (0 ≤ 1 / qnat (length t)) as Hu.
  { apply Qcdiv_nonneg; [done|]. apply (Qclt_le_trans _ 1); [done|by apply qnat_pos]. }
  apply (uarea_sorted_best asc _ Hu).
  - unfold norm. rewrite Hqs. by apply fmap_Permutation.
  - apply dir_le_strongly_sorted, norm_sorted; [by rewrite Hqs|done].
Qed.

(** * The range of the coefficient with weights *)

Lemma ttot_cons t w p : ttot ((t, w) :: p) = t + ttot p.
Proof. unfold ttot. by rewrite fmap_cons, qsum_cons. Qed.

Lemma wtot_cons t w p : wtot ((t, w) :: p) = w + wtot p.
Proof. unfold wtot. by rewrite fmap_cons, qsum_cons. Qed.

(** Running totals that stay between [0] and [1]: every term of the
    summed lift is between minus the weight and the weight. *)
Lemma area_bounds W T p :
  Forall (λ tw, 0 ≤ tw.1 ∧ 0 ≤ tw.2) p →
  0 ≤ W → 0 ≤ T → W + wtot p ≤ 1 → T + ttot p ≤ 1 →
  - wtot p ≤ area W T p ∧ area W T p ≤ wtot p.
Proof.
  intros Hp. revert W T. induction Hp as [|[t w] p [Ht Hw] Hp IH]; intros W T HW HT HW1 HT1.
  - change (area W T []) with (0 : Qc). change (wtot []) with (0 : Qc).
    split; qc_to_q; lra.
  - simpl in Ht, Hw. rewrite wtot_cons in *. rewrite ttot_cons in HT1. simpl area.
    destruct (IH (W + w) (T + t)) as [IH1 IH2].
    { qc_to_q. lra. } { qc_to_q. lra. }
    { revert HW1. generalize (wtot p). intros a HW1. qc_to_q. lra. }
    { revert HT1. generalize (ttot p). intros a HT1. qc_to_q. lra. }
    assert (0 ≤ wtot p) as Hwp.
    { apply qsum_nonneg, Forall_fmap. eapply Forall_impl; [exact Hp|]. by intros ? [??]. }
    assert (0 ≤ ttot p) as Htp.
    { apply qsum_nonneg, Forall_fmap. eapply Forall_impl; [exact Hp|]. by intros ? [??]. }
    revert IH1 IH2 HW1 HT1 Hwp Htp.
    generalize (area (W + w) (T + t) p) (wtot p) (ttot p).
    intros a wp tp IH1 IH2 HW1 HT1 Hwp Htp. qc_to_q.
    assert (0 <= this w * (1 - (this W + this w - (this T + this t))))%Q
      by (apply Qmult_le_0_compat; [done|lra]).
    assert (0 <= this w * (1 + (this W + this w - (this T + this t))))%Q
      by (apply Qmult_le_0_compat; [done|lra]).
    split; nra.
Qed.

Lemma qcoef_weighted_range asc t w :
  Forall (λ x, 0 ≤ x) t → qsum t ≠ 0 →
  Forall (λ x, 0 ≤ x) w → qsum w ≠ 0 →
  length t = length w →
  - 2 ≤ qcoef asc t w ∧ qcoef asc t w ≤ 2.
Proof.
  intros Ht Hts Hw Hws Hlen. unfold qcoef. rewrite qlift_area.
  assert (length (norm t) = length (norm w)) as Hlen' by by rewrite !length_norm.
  destruct (area_bounds 0 0 (zip (norm t) (norm w))) as [H1 H2].
  - apply Forall_forall. intros [x y] Hin.
    apply elem_of_zip_l in Hin as Hx. apply elem_of_zip_r in Hin as Hy.
    pose proof (norm_nonneg t Ht Hts) as Hnt. pose proof (norm_nonneg w Hw Hws) as Hnw.
    rewrite Forall_forall in Hnt, Hnw. split; [by apply Hnt|by apply Hnw].
  - done.
  - done.
  - unfold wtot. rewrite snd_zip by lia. rewrite qsum_norm by done. qc_to_q. lra.
  - unfold ttot. rewrite fst_zip by lia. rewrite qsum_norm by done. qc_to_q. lra.
  - assert (wtot (zip (norm t) (norm w)) = 1) as E.
    { unfold wtot. rewrite snd_zip by lia. by apply qsum_norm. }
    rewrite E in H1, H2. revert H1 H2. generalize (area 0 0 (zip (norm t) (norm w))).
    intros a H1 H2. destruct asc; split; qc_to_q; lra.
Qed.

Lemma length_keys64 c : length (keys64 c) = length64 c.
Proof. destruct c; simpl; by rewrite length_fmap. Qed.

(** Rows that are all alike stay what they are in any order. *)
Lemma take_rows64_replicate idx n c :
  Forall (λ i, i < n)%nat idx → length idx = n →
  (∃ z, c = Int64 (replicate n z)) ∨ (∃ x, c = Float64 (replicate n x)) →
  take_rows64 idx c = c.
Proof.
  intros Hidx Hn [[z ->] | [x ->]]; simpl; by rewrite take_rows_replicate, Hn.
Qed.

(** * Part III: the properties the specification states

    The sort is any that keeps [BackendLaws]; the examples are run with
    [stable_backends].  A statement about [gini] is in exact arithmetic,
    on finite entries where it says so; a statement about [gini64] is
    in the arithmetic of pandas. *)

(** Whether a given frame is well formed is decided by evaluation. *)

Lemma frame_wf_decide f : bool_decide (frame_wf f) = true → frame_wf f.
Proof. apply bool_decide_eq_true_1. Qed.







(** C3, as the code has it.  For every table with no row, [gini]
    returns the coefficient [0]: every column is empty, both totals are
    [0], no entry is divided and the empty lift column sums to [0]. *)
Theorem gini_empty_dataset {B : Backends} {L : BackendLaws B}
    σ data l f target ranking weight plot ascending :
  heap σ !! data = Some (FrameObj l f) →
  frame_wf f →
  nrows f = 0%nat →
  has f (default target ranking) →
  has f target →
  weight_ok f target weight →
  gini_result σ data target ranking weight plot ascending = Returns (Fin 0).
Proof.
  intros Hdata Hwf Hn Hr Ht Hw.
  rewrite (gini_run σ data l f) by done. f_equal.
  unfold coefficient_of. cbn zeta.
  rewrite working_frame_table, rescale_table2 by done.
  assert (argsort l (cols f !!! default target ranking) ascending = []) as Hidx.
  { apply length_zero_iff_nil. rewrite length_argsort.
    by rewrite (frame_wf_length f _ _ Hwf (has_lookup _ _ Hr)). }
  assert (sorted_col l f (default target ranking) ascending target = []) as ->.
  { unfold sorted_col. by rewrite Hidx. }
  assert (weight_col l f (default target ranking) ascending weight = []) as ->.
  { destruct weight as [w|]; simpl; [unfold sorted_col; by rewrite Hidx|by rewrite Hn]. }
  assert (∀ n target wl k, cols (table2 n target wl [] []) !!! k = []) as Hnil.
  { intros n t wl k. unfold table2; simpl. rewrite lookup_total_insert.
    case_decide; [done|]. rewrite lookup_total_singleton. by case_decide. }
  replace (if decide (wlabel weight = target) then ndiv (ndiv []) else ndiv [])
    with ([] : column) by by case_decide.
  change (ndiv []) with ([] : column).
  assert (lift_col (wlabel weight)
            (totals_frame target (wlabel weight)
               (table2 (nrows f) target (wlabel weight) [] [])) = []) as ->.
  { unfold lift_col, totals_frame, set_col. cbn zeta. cbn [cols nrows].
    rewrite Hnil. rewrite (lookup_total_insert _ "cumul_total" (wlabel weight)).
    rewrite Hnil.
    assert (col_cumsum (if decide ("cumul_total" = wlabel weight)
                        then col_cumsum [] else []) = []) as -> by by case_decide.
    rewrite lookup_total_insert_eq. done. }
  simpl. apply signed_zero.
Qed.

(** [no_rows] is such a table. *)
Lemma gini_empty_dataset_witness :
  gini_result (B := stable_backends) (one_object (FrameObj Pandas no_rows))
    1 "outcome" None None true true = Returns (Fin 0).
Proof.
  apply (gini_empty_dataset (L := stable_laws) _ _ Pandas no_rows).
  - reflexivity.
  - apply frame_wf_decide. by vm_compute.
  - reflexivity.
  - by eexists.
  - by eexists.
  - exact I.
Defined.

(** C3 as the specification states it fails on [no_rows]: the call
    returns [0] and reports no failure. *)
Lemma gini_empty_dataset_silent :
  nrows no_rows = 0%nat
  ∧ gini_result (B := stable_backends) (one_object (FrameObj Pandas no_rows))
      1 "outcome" None None false true = Returns (Fin 0)
  ∧ ¬ raises (gini_result (B := stable_backends) (one_object (FrameObj Pandas no_rows))
                1 "outcome" None None false true).
Proof.
  assert (gini_result (B := stable_backends) (one_object (FrameObj Pandas no_rows))
            1 "outcome" None None false true = Returns (Fin 0)) as E.
  { apply returns_value_spec. by vm_compute. }
  rewrite E. split_and!; [done..|]. by intros [e He].
Qed.

(** C4, as the code has it.  For a frame whose outcome column is
    [10, 20, 30, 40], stored as integers or as doubles, ranked by the
    outcome itself, without a weight column and with [ascending=True],
    [gini] returns the double [0x1.ffffffffffffep-3], which prints as
    [0.24999999999999994]: it is [0.25] to within [1e-15], and not
    [0.25] itself.  The outcome column is any column but one labelled
    [weight], which line 56 would overwrite. *)
Theorem gini_even_steps_rounded {B : Backends} {L : BackendLaws B}
    (data : gmap string column64) target ranking c :
  data !! target = Some c →
  c = Int64 [10; 20; 30; 40]%Z ∨ c = Float64 (double <$> [10; 20; 30; 40]%Q) →
  default target ranking = target →
  target ≠ "weight" →
  gini64 data target ranking None true = Returns (FloatVal (b64 9007199254740990 (-55)))
  ∧ b64_within 1e-15 (b64 9007199254740990 (-55)) 0.25 = true.
Proof.
  intros Ht Hc Hr Hne. split; [|by vm_compute].
  unfold gini64, sorted_table64. rewrite Hr, Ht. cbn zeta.
  rewrite lookup_fmap, Ht. cbn [fmap option_fmap option_map].
  rewrite (argsort_even_steps c Hc).
  rewrite lookup_total_insert_ne by done.
  rewrite lookup_total_singleton_eq.
  rewrite gini_index64_unweighted by done.
  destruct Hc as [-> | ->]; by vm_compute.
Qed.

(** The scenario with its outcomes as integers, as pandas stores the
    list [10, 20, 30, 40]. *)
Lemma gini_even_steps_rounded_witness :
  gini64 (B := stable_backends) even_steps64 "outcome" None None true
  = Returns (FloatVal (b64 9007199254740990 (-55)))
  ∧ b64_within 1e-15 (b64 9007199254740990 (-55)) 0.25 = true.
Proof.
  apply (gini_even_steps_rounded (L := stable_laws) even_steps64 "outcome" None
           (Int64 [10; 20; 30; 40]%Z)).
  - reflexivity.
  - by left.
  - reflexivity.
  - discriminate.
Defined.

(** C4 as the specification states it fails: the call returns the
    double below [0.25]. *)
Lemma gini_even_steps_not_exact :
  gini64 (B := stable_backends) even_steps64 "outcome" None None true
  = Returns (FloatVal (b64 9007199254740990 (-55)))
  ∧ b64 9007199254740990 (-55) ≠ double 0.25
  ∧ b64_exact (b64 9007199254740990 (-55)) ≠ rational 0.25.
Proof.
  split_and!.
  - by vm_compute.
  - by vm_compute.
  - intros E. apply (f_equal (λ a, num_eqb a (rational 0.25))) in E.
    by vm_compute in E.
Qed.

(** C5, in exact arithmetic.  For every table with at least one row
    whose outcome values all equal some rational [c] that is not zero,
    with any ranking column and no weight column, [gini] returns exactly
    [0]. *)
Theorem gini_equal_outcomes {B : Backends} {L : BackendLaws B}
    σ data l f target ranking plot ascending c :
  heap σ !! data = Some (FrameObj l f) →
  frame_wf f →
  (0 < nrows f)%nat →
  has f (default target ranking) →
  cols f !! target = Some (replicate (nrows f) (Fin c)) →
  c ≠ 0 →
  gini_result σ data target ranking None plot ascending = Returns (Fin 0).
Proof.
  intros Hdata Hwf Hn Hr Ht Hc.
  assert (has f target) as Hht by (by eexists).
  rewrite (gini_run σ data l f) by done. f_equal.
  destruct (decide (target = "weight")) as [E|Hne].
  { by apply coefficient_same_label. }
  rewrite coefficient_generic by (done || by intros E; apply Hne).
  unfold sorted_col, weight_col. rewrite (lookup_total_cols _ _ _ Ht).
  rewrite take_rows_replicate, length_argsort.
  2:{ erewrite <- frame_wf_length; [apply argsort_lt|done|by apply has_lookup]. }
  rewrite (frame_wf_length f _ _ Hwf (has_lookup _ _ Hr)).
  pose proof (qsum_ones_ne _ Hn) as Hones.
  assert (qsum (replicate (nrows f) c) ≠ 0) as Hcs.
  { rewrite qsum_replicate. by intros [E|E]%Qcmult_integral. }
  unfold coef_cols. rewrite !replicate_fin, !ndiv_fin by done.
  rewrite (norm_replicate _ c) by done.
  rewrite col_sum_self_lift. apply signed_zero.
Qed.

(** [equal_outcomes], ranked by its scores, is such a table. *)
Lemma gini_equal_outcomes_witness :
  gini_result (B := stable_backends) (one_object (FrameObj H2O equal_outcomes))
    1 "outcome" (Some "score") None false true
  = Returns (Fin 0).
Proof.
  apply (gini_equal_outcomes (L := stable_laws) _ _ H2O equal_outcomes _ _ _ _ (Q2Qc 5)).
  - reflexivity.
  - apply frame_wf_decide. by vm_compute.
  - simpl. lia.
  - by eexists.
  - reflexivity.
  - by apply Qc_neq.
Defined.

(** C5 as the specification states it fails on the outcomes
    [0.3, 0.3, 0.3]: the total [0.8999999999999999] is rounded, every
    outcome over it is [0.33333333333333337] and every weight is
    [0.3333333333333333], and the call returns [-2 ^ -53], printed
    [-1.1102230246251565e-16].  It fails on the integers
    [2 ^ 62, 2 ^ 62] as well: their total wraps around to [-2 ^ 63],
    every outcome over it is [-0.5], and the call returns [3.0]. *)
Lemma gini_equal_outcomes_not_zero :
  gini64 (B := stable_backends)
    {[ "outcome" := Float64 (double <$> [0.3; 0.3; 0.3]%Q) ]} "outcome" None None true
  = Returns (FloatVal (b64 (-1) (-53)))
  ∧ series_sum (Int64 [2 ^ 62; 2 ^ 62]%Z) = IntVal (- 2 ^ 63)
  ∧ gini64 (B := stable_backends)
      {[ "outcome" := Int64 [2 ^ 62; 2 ^ 62]%Z ]} "outcome" None None true
    = Returns (FloatVal (double 3)).
Proof. split_and!; by vm_compute. Qed.

(** C7, in exact arithmetic.  For every table whose outcome column and
    whose weight column hold finite values and each have a nonzero sum,
    the working frame after line 77 has an outcome column that sums to
    [1] and a weight column that sums to [1].  Without a weight column,
    the weights are the ones of line 56. *)
Theorem normalized_columns_sum_to_one {B : Backends} {L : BackendLaws B}
    σ data l f target ranking weight ascending T :
  heap σ !! data = Some (FrameObj l f) →
  frame_wf f →
  has f ranking →
  cols f !! target = Some (Fin <$> T) →
  qsum T ≠ 0 →
  weights_nonzero f target weight →
  ∃ sd σ' g t w,
    normalized_table l data target ranking weight ascending σ
    = (Returns (sd, wlabel weight), σ')
    ∧ heap σ' !! sd = Some (FrameObj l g)
    ∧ cols g !! target = Some t
    ∧ cols g !! wlabel weight = Some w
    ∧ col_sum t = Fin 1
    ∧ col_sum w = Fin 1.
Proof.
  intros Hdata Hwf Hr Ht HT Hw.
  assert (has f target) as Hht by (by eexists).
  pose proof (weights_nonzero_ok _ _ _ Hw) as Hok.
  destruct (normalized_table_run σ data l f target ranking weight ascending)
    as (sd & σ' & E & Hsd); [done..|].
  rewrite working_frame_table, rescale_table2 in Hsd by done.
  assert (0 < nrows f)%nat as Hn.
  { rewrite <- (frame_wf_length f _ _ Hwf Ht), length_fmap.
    destruct T; [done|simpl; lia]. }
  destruct (sorted_col_fin l f ranking ascending target T) as (Y & EY & HY & _); [done..|].
  destruct (weight_col_fin l f target ranking ascending weight) as (Z & EZ & HZ); [done..|].
  rewrite EY, EZ in Hsd. rewrite <- HY in HT.
  do 5 eexists. split; [exact E|]. split; [exact Hsd|].
  split; [apply table2_lookup_target|]. split; [apply table2_lookup_weight|].
  assert (col_sum (ndiv (ndiv (Fin <$> Z))) = Fin 1) as Hnn.
  { rewrite (ndiv_fin Z) by done. apply col_sum_ndiv_fin.
    rewrite qsum_norm by done. apply Qc_1_neq_0. }
  case_decide; split; auto using col_sum_ndiv_fin.
Qed.

(** [policies], weighted by exposure, is such a table. *)
Lemma normalized_columns_sum_to_one_witness :
  ∃ sd σ' g t w,
    normalized_table (B := stable_backends) Pandas 1 "loss" "predicted" (Some "exposure") true
      (one_object (FrameObj Pandas policies))
    = (Returns (sd, "exposure"), σ')
    ∧ heap σ' !! sd = Some (FrameObj Pandas g)
    ∧ cols g !! "loss" = Some t
    ∧ cols g !! "exposure" = Some w
    ∧ col_sum t = Fin 1
    ∧ col_sum w = Fin 1.
Proof.
  apply (normalized_columns_sum_to_one (L := stable_laws) _ _ Pandas policies
           "loss" "predicted" (Some "exposure") true (Q2Qc <$> [0; 300; 100]%Q)).
  - reflexivity.
  - apply frame_wf_decide. by vm_compute.
  - by eexists.
  - reflexivity.
  - by apply Qc_neq.
  - split; [discriminate|]. exists (Q2Qc <$> [1; 0.5; 2]%Q).
    split; [reflexivity|by apply Qc_neq].
Defined.

(** C7 as the specification states it fails.  In doubles: the total of
    [2 ^ 1023, 2 ^ 1023] overflows to the infinity, which is not zero,
    and both outcomes over it are [0]; their sum is [0], not [1] to
    within [1e-9].  In integers: the total of [2 ^ 62, 2 ^ 62] wraps
    around to [-2 ^ 63], both outcomes over it are [-0.5] and their sum
    is [-1].  And in exact arithmetic, on the outcomes [1, inf]: the
    total is the infinity, the outcomes over it are [0] and [NaN], and
    their sum is [0]. *)
Lemma normalized_sum_not_one :
  series_sum (Float64 [b64 1 1023; b64 1 1023]) = FloatVal (SpecFloat.S754_infinity false)
  ∧ normalized64 (B := stable_backends)
      {[ "outcome" := Float64 [b64 1 1023; b64 1 1023] ]} "outcome" None None true
    = Returns (Float64 [b64_zero; b64_zero], Float64 [double 0.5; double 0.5])
  ∧ series_sum (Float64 [b64_zero; b64_zero]) = FloatVal b64_zero
  ∧ b64_within 1e-9 b64_zero 1 = false
  ∧ normalized64 (B := stable_backends)
      {[ "outcome" := Int64 [2 ^ 62; 2 ^ 62]%Z ]} "outcome" None None true
    = Returns (Float64 [double (-0.5); double (-0.5)], Float64 [double 0.5; double 0.5])
  ∧ series_sum (Float64 [double (-0.5); double (-0.5)]) = FloatVal (double (-1))
  ∧ col_sum [Fin 1; PInf] = PInf
  ∧ normalized_sums (B := stable_backends) Pandas 1 "outcome" "outcome" None true
      (one_object (FrameObj Pandas (Frame 2 {[ "outcome" := [Fin 1; PInf] ]})))
    = Some (Fin 0, Fin 1).
Proof.
  split_and!; try by vm_compute.
  match goal with |- ?x = _ => set (r := x) end. vm_compute in r. subst r.
  apply (f_equal Some), f_equal2; apply (f_equal Fin), Qc_is_canon; reflexivity.
Qed.

(** C8.  Whatever the arguments, every object of the heap before the
    call is in the heap after it, unchanged, and so is the one [data]
    refers to: [gini] assigns only to frames it has allocated. *)
Theorem gini_input_unchanged {B : Backends} σ data target ranking weight plot ascending :
  heap σ ⊆ heap (gini_world σ data target ranking weight plot ascending)
  ∧ heap (gini_world σ data target ranking weight plot ascending) !! data = heap σ !! data.
Proof.
  destruct (keeps_gini (heap σ) data target ranking weight plot ascending σ) as [Hsub _];
    [done|].
  split; [exact Hsub|]. unfold gini_world in *.
  destruct (heap σ !! data) as [v|] eqn:E.
  - by apply (lookup_weaken _ _ _ _ E Hsub).
  - unfold gini, type_of, lookup_obj, mbind, py_bind. by rewrite E.
Qed.

(** C9.  A pandas [Series] is neither a [DataFrame] nor an [H2OFrame],
    the two types that the message of line 72 expects, yet the name of
    its type contains [pandas]: the test of line 50 lets it in, and the
    call ends in the [TypeError] of [sort_values], not in the message
    and the [-1] of lines 72 and 73. *)
Lemma gini_series_not_sentinel :
  let σ := one_object (SeriesObj (rationals [10; 20; 30; 40]%Q)) in
  gini (B := stable_backends) 1 "outcome" None None true true σ = (Raises TypeError, σ)
  ∧ gini_result (B := stable_backends) σ 1 "outcome" None None true true
    ≠ Returns (Fin (-1)).
Proof.
  cbn zeta. split; [by vm_compute|].
  assert (gini_result (B := stable_backends)
            (one_object (SeriesObj (rationals [10; 20; 30; 40]%Q)))
            1 "outcome" None None true true = Raises TypeError) as -> by by vm_compute.
  discriminate.
Qed.

(** C10, in exact arithmetic.  For every table of finite values with
    nonzero outcome and weight totals and every rational [c > 0],
    multiplying every value of the outcome column, or every value of the
    weight column, by [c] leaves the coefficient that [gini] returns
    unchanged. *)
Theorem gini_scale_invariant {B : Backends} {L : BackendLaws B}
    σ σ' data data' l f target ranking weight plot ascending
    k c T :
  heap σ !! data = Some (FrameObj l f) →
  frame_wf f →
  has f (default target ranking) →
  cols f !! target = Some (Fin <$> T) →
  qsum T ≠ 0 →
  weights_nonzero f target weight →
  k = target ∨ weight = Some k →
  0 < c →
  heap σ' !! data' = Some (FrameObj l (scale_col k (Fin c) f)) →
  gini_result σ' data' target ranking weight plot ascending
  = gini_result σ data target ranking weight plot ascending.
Proof.
  intros Hdata Hwf Hr Ht HT Hw Hk Hc Hdata'.
  assert (has f target) as Hht by (by eexists).
  pose proof (weights_nonzero_ok _ _ _ Hw) as Hok.
  assert (weight_ok (scale_col k (Fin c) f) target weight) as Hok'.
  { destruct weight as [w|]; [|done]. destruct Hok. split; [|done].
    by apply scale_col_has. }
  assert (∃ X, cols f !! k = Some (Fin <$> X)) as [X HX].
  { destruct Hk as [-> | ->]; [by eexists|]. destruct Hw as (_ & W & ? & _). by eexists. }
  rewrite (gini_run σ data l f), (gini_run σ' data' l (scale_col k (Fin c) f));
    try done; try by apply scale_col_has.
  f_equal. unfold coefficient_of. cbn zeta.
  rewrite !working_frame_table, !rescale_table2 by (done || by apply scale_col_has).
  cbn [nrows scale_col].
  rewrite (scale_col_ndiv l f _ ascending k c X Hwf Hr HX Hc target T Ht HT).
  destruct weight as [w|]; [|done].
  destruct Hw as (Hne & W & HW & HWs). simpl weight_col.
  by rewrite (scale_col_ndiv l f _ ascending k c X Hwf Hr HX Hc w W HW HWs).
Qed.

(** The losses of [policies] multiplied by [3]. *)
Lemma gini_scale_invariant_witness :
  gini_result (B := stable_backends)
    (one_object (FrameObj Pandas (scale_col "loss" (rational 3) policies)))
    1 "loss" (Some "predicted") (Some "exposure") false true
  = gini_result (B := stable_backends) (one_object (FrameObj Pandas policies))
      1 "loss" (Some "predicted") (Some "exposure") false true.
Proof.
  apply (gini_scale_invariant (L := stable_laws) _ _ _ _ Pandas policies _ _ _ _ _
           "loss" (Q2Qc 3) (Q2Qc <$> [0; 300; 100]%Q)).
  - reflexivity.
  - apply frame_wf_decide. by vm_compute.
  - by eexists.
  - reflexivity.
  - by apply Qc_neq.
  - split; [discriminate|]. exists (Q2Qc <$> [1; 0.5; 2]%Q).
    split; [reflexivity|by apply Qc_neq].
  - by left.
  - reflexivity.
  - reflexivity.
Defined.

(** C10 as the specification states it fails.  The integer outcomes
    [1, 1] give the coefficient [0]; multiplied by [2 ^ 62] their total
    wraps around and the coefficient is [3.0].  The same outcomes as
    doubles, multiplied by [2 ^ 1023]: the total overflows to the
    infinity, both outcomes over it are [0] and the coefficient is
    [1.5]. *)
Lemma gini_scale_changes_result :
  gini64 (B := stable_backends) {[ "outcome" := Int64 [1; 1]%Z ]} "outcome" None None true
  = Returns (FloatVal b64_zero)
  ∧ gini64 (B := stable_backends)
      {[ "outcome" := Int64 ((λ x, 2 ^ 62 * x)%Z <$> [1; 1]%Z) ]} "outcome" None None true
    = Returns (FloatVal (double 3))
  ∧ gini64 (B := stable_backends)
      {[ "outcome" := Float64 [double 1; double 1] ]} "outcome" None None true
    = Returns (FloatVal b64_zero)
  ∧ gini64 (B := stable_backends)
      {[ "outcome" := Float64 (b64_mul (b64 1 1023) <$> [double 1; double 1]) ]}
      "outcome" None None true
    = Returns (FloatVal (double 1.5)).
Proof. split_and!; by vm_compute. Qed.

(** * Part IV: further properties of [gini]

    What the function does beyond the statements of the specification:
    what it plots, how it ends on columns that are missing or sum to
    zero, what its result does not depend on, the range of the
    coefficient, how it ends on a value that is no frame, and two
    scenarios of the specification in the other arithmetic. *)

(** X1.  What [gini] returns, or raises, does not depend on [plot]:
    whenever line 89 is reached, lines 92 to 106 run to their end. *)
Theorem gini_plot_independent {B : Backends} σ data target ranking weight ascending :
  gini_result σ data target ranking weight true ascending
  = gini_result σ data target ranking weight false ascending.
Proof.
  unfold gini_result, gini. apply bind_result_ext. intros ty σ1 _.
  destruct (contains "pandas" ty); [|destruct (contains "H2OFrame" ty); [|done]];
    apply bind_result_ext; intros p σ2 _; apply gini_of_normalized_plot.
Qed.

(** X2.  A call with [plot=False] on a frame of either library prints
    nothing and plots nothing, whatever the other arguments are and
    however the call ends. *)
Theorem gini_quiet_without_plot {B : Backends}
    σ data l f target ranking weight ascending :
  heap σ !! data = Some (FrameObj l f) →
  trace (gini_world σ data target ranking weight false ascending) = trace σ.
Proof.
  intros Hdata. unfold gini_world, gini.
  assert (type_of data σ = (Returns (type_str (FrameObj l f)), σ)) as Ety.
  { unfold type_of, lookup_obj, mbind, py_bind. by rewrite Hdata. }
  rewrite (bind_returns _ _ _ _ _ Ety).
  pose proof quiet_normalized_table. pose proof quiet_gini_of_normalized.
  destruct l; simpl; apply quiet_bind; auto.
Qed.

(** The call on [policies], weighted by exposure, with [plot=False]. *)
Lemma gini_quiet_without_plot_witness :
  trace (gini_world (B := stable_backends) (one_object (FrameObj Pandas policies))
           1 "loss" (Some "predicted") (Some "exposure") false true) = [].
Proof.
  apply (gini_quiet_without_plot (B := stable_backends)
           (one_object (FrameObj Pandas policies)) 1 Pandas policies).
  reflexivity.
Defined.

(** X3.  A call with [plot=True] on a frame that has the columns asked
    for plots once and then shows the window: the running totals of the
    outcome and of the weight (both over their sums, in the order of the
    sort) against the running total of the weight, every [stride]-th row
    of them, for the stride of lines 96 to 99.  The weight column is not
    labelled [cumul_total], and the target column is not labelled
    [weight] when no weight column is given. *)
Theorem gini_plots_running_totals {B : Backends}
    σ data l f target ranking weight ascending :
  heap σ !! data = Some (FrameObj l f) →
  has f (default target ranking) → has f target → weight_ok f target weight →
  wlabel weight ≠ target → weight ≠ Some "cumul_total" →
  trace (gini_world σ data target ranking weight true ascending)
  = trace σ ++ lorenz_events (stride_of (nrows f))
      (col_cumsum (ndiv (sorted_col l f (default target ranking) ascending target)))
      (col_cumsum (ndiv (weight_col l f (default target ranking) ascending weight))).
Proof.
  intros Hdata Hr Ht Hw Hne Hct.
  rewrite (gini_trace σ data l f) by done. cbn zeta.
  by destruct (working_totals l f target (default target ranking) weight ascending
                 Ht Hw Hne Hct) as [-> ->].
Qed.

(** The call on [policies], weighted by exposure. *)
Lemma gini_plots_running_totals_witness :
  trace (gini_world (B := stable_backends) (one_object (FrameObj Pandas policies))
           1 "loss" (Some "predicted") (Some "exposure") true true)
  = trace (one_object (FrameObj Pandas policies))
    ++ lorenz_events (stride_of (nrows policies))
         (col_cumsum (ndiv (sorted_col (B := stable_backends) Pandas policies
                              (default "loss" (Some "predicted")) true "loss")))
         (col_cumsum (ndiv (weight_col (B := stable_backends) Pandas policies
                              (default "loss" (Some "predicted")) true (Some "exposure")))).
Proof.
  apply (gini_plots_running_totals (B := stable_backends)
           (one_object (FrameObj Pandas policies)) 1 Pandas policies
           "loss" (Some "predicted") (Some "exposure") true).
  - reflexivity.
  - by eexists.
  - by eexists.
  - split; [by eexists|discriminate].
  - discriminate.
  - discriminate.
Defined.

(** X4.  The size of the plot.  On a well-formed frame with [n] rows the
    call with [plot=True] plots columns of one length: [n] points when
    [n] is at most 1000 and between 1000 and 1999 points above. *)
Theorem gini_plot_size {B : Backends} {L : BackendLaws B}
    σ data l f target ranking weight ascending :
  heap σ !! data = Some (FrameObj l f) →
  frame_wf f →
  has f (default target ranking) → has f target → weight_ok f target weight →
  wlabel weight ≠ target → weight ≠ Some "cumul_total" →
  ∃ x ys,
    trace (gini_world σ data target ranking weight true ascending)
    = trace σ ++ [Plotted x ys; Shown]
    ∧ Forall (λ y, length y = length x) ys
    ∧ ((nrows f ≤ 1000)%nat ∧ length x = nrows f
       ∨ (1000 < nrows f)%nat ∧ (1000 ≤ length x ≤ 1999)%nat).
Proof.
  intros Hdata Hwf Hr Ht Hw Hne Hct.
  rewrite (gini_trace σ data l f) by done. cbn zeta.
  destruct (working_totals l f target (default target ranking) weight ascending
              Ht Hw Hne Hct) as [-> ->].
  set (t := col_cumsum (ndiv (sorted_col l f (default target ranking) ascending target))).
  set (w := col_cumsum (ndiv (weight_col l f (default target ranking) ascending weight))).
  assert (length t = nrows f) as Hlt.
  { unfold t. rewrite length_col_cumsum, length_ndiv. by apply length_sorted_col. }
  assert (length w = nrows f) as Hlw.
  { unfold w. rewrite length_col_cumsum, length_ndiv. by eapply length_weight_col. }
  exists (every (stride_of (nrows f)) w), [every (stride_of (nrows f)) t;
                                          every (stride_of (nrows f)) w].
  split; [done|]. split.
  - repeat constructor.
    rewrite !length_every by apply stride_of_pos. by rewrite Hlt, Hlw.
  - destruct (decide (nrows f ≤ 1000)%nat) as [Hn|Hn].
    + left. split; [done|]. by rewrite stride_of_small, every_one.
    + right. split; [lia|]. rewrite <- Hlw. apply length_every_stride_of. lia.
Qed.

(** [policies] has three rows, and three points are plotted. *)
Lemma gini_plot_size_witness :
  ∃ x ys,
    trace (gini_world (B := stable_backends) (one_object (FrameObj Pandas policies))
             1 "loss" (Some "predicted") (Some "exposure") true true)
    = trace (one_object (FrameObj Pandas policies)) ++ [Plotted x ys; Shown]
    ∧ Forall (λ y, length y = length x) ys
    ∧ ((nrows policies ≤ 1000)%nat ∧ length x = nrows policies
       ∨ (1000 < nrows policies)%nat ∧ (1000 ≤ length x ≤ 1999)%nat).
Proof.
  apply (gini_plot_size (L := stable_laws)
           (one_object (FrameObj Pandas policies)) 1 Pandas policies
           "loss" (Some "predicted") (Some "exposure") true).
  - reflexivity.
  - apply frame_wf_decide. by vm_compute.
  - by eexists.
  - by eexists.
  - split; [by eexists|discriminate].
  - discriminate.
  - discriminate.
Defined.

(** X5.  Where the plotted curve ends.  On a well-formed frame of at
    most a thousand rows whose outcome and weight columns do not sum to
    zero, the last point that the call with [plot=True] plots is
    [(1, 1)]: both running totals end in [1]. *)
Theorem gini_curve_ends_at_one {B : Backends} {L : BackendLaws B}
    σ data l f target ranking weight ascending T :
  heap σ !! data = Some (FrameObj l f) →
  frame_wf f →
  has f (default target ranking) →
  cols f !! target = Some (Fin <$> T) →
  qsum T ≠ 0 →
  weights_nonzero f target weight →
  wlabel weight ≠ target → weight ≠ Some "cumul_total" →
  (nrows f ≤ 1000)%nat →
  ∃ x y,
    trace (gini_world σ data target ranking weight true ascending)
    = trace σ ++ [Plotted x [y; x]; Shown]
    ∧ last x = Some (Fin 1)
    ∧ last y = Some (Fin 1).
Proof.
  intros Hdata Hwf Hr Ht HT Hw Hne Hct Hn.
  assert (has f target) as Hht by (by eexists).
  pose proof (weights_nonzero_ok _ _ _ Hw) as Hok.
  rewrite (gini_trace σ data l f) by done. cbn zeta.
  destruct (working_totals l f target (default target ranking) weight ascending
              Hht Hok Hne Hct) as [-> ->].
  rewrite stride_of_small by done. unfold lorenz_events. rewrite !every_one.
  assert (0 < nrows f)%nat as Hpos.
  { rewrite <- (frame_wf_length f _ _ Hwf Ht), length_fmap.
    destruct T; [done|simpl; lia]. }
  destruct (sorted_col_fin l f (default target ranking) ascending target T)
    as (Y & -> & HY & _); [done..|].
  destruct (weight_col_fin l f target (default target ranking) ascending weight)
    as (Z & -> & HZ); [done..|].
  do 2 eexists. split; [done|].
  split; apply last_running_total; [done|by rewrite HY].
Qed.

(** The curve of [policies], weighted by exposure. *)
Lemma gini_curve_ends_at_one_witness :
  ∃ x y,
    trace (gini_world (B := stable_backends) (one_object (FrameObj Pandas policies))
             1 "loss" (Some "predicted") (Some "exposure") true true)
    = trace (one_object (FrameObj Pandas policies)) ++ [Plotted x [y; x]; Shown]
    ∧ last x = Some (Fin 1)
    ∧ last y = Some (Fin 1).
Proof.
  apply (gini_curve_ends_at_one (L := stable_laws) _ _ Pandas policies
           "loss" (Some "predicted") (Some "exposure") true (Q2Qc <$> [0; 300; 100]%Q)).
  - reflexivity.
  - apply frame_wf_decide. by vm_compute.
  - by eexists.
  - reflexivity.
  - by apply Qc_neq.
  - split; [discriminate|]. exists (Q2Qc <$> [1; 0.5; 2]%Q).
    split; [reflexivity|by apply Qc_neq].
  - discriminate.
  - discriminate.
  - simpl. lia.
Defined.

(** X6.  A label that is no column of a pandas frame.  When the ranking,
    the target or the weight label is missing, [gini] raises the
    [KeyError] of a missing label (line 54 or 58); it returns no number
    and, even with [plot=True], prints and plots nothing. *)
Theorem gini_missing_column {B : Backends}
    σ data f target ranking weight plot ascending :
  heap σ !! data = Some (FrameObj Pandas f) →
  Exists (λ k, cols f !! k = None) (labels target ranking weight) →
  ∃ k, k ∈ labels target ranking weight ∧ cols f !! k = None
       ∧ gini_result σ data target ranking weight plot ascending = Raises (KeyError k)
       ∧ trace (gini_world σ data target ranking weight plot ascending) = trace σ.
Proof.
  intros Hdata Hex.
  destruct (sorted_table_missing σ data f target (default target ranking) weight ascending
              Hdata Hex) as (k & σ' & Hin & Hk & E).
  exists k. split; [done|]. split; [done|].
  pose proof (quiet_sorted_table Pandas data target (default target ranking) weight
                ascending σ) as Hq.
  rewrite E in Hq. simpl in Hq.
  assert (gini data target ranking weight plot ascending σ = (Raises (KeyError k), σ')) as Eg.
  { unfold gini.
    assert (type_of data σ = (Returns (type_str (FrameObj Pandas f)), σ)) as Ety.
    { unfold type_of, lookup_obj, mbind, py_bind. by rewrite Hdata. }
    rewrite (bind_returns _ _ _ _ _ Ety). simpl.
    apply bind_raises. unfold normalized_table. by apply bind_raises. }
  unfold gini_result, gini_world. by rewrite Eg.
Qed.

(** [policies] has no column [premium]. *)
Lemma gini_missing_column_witness :
  ∃ k, k ∈ labels "loss" (Some "predicted") (Some "premium")
       ∧ cols policies !! k = None
       ∧ gini_result (B := stable_backends) (one_object (FrameObj Pandas policies))
           1 "loss" (Some "predicted") (Some "premium") true true = Raises (KeyError k)
       ∧ trace (gini_world (B := stable_backends) (one_object (FrameObj Pandas policies))
                  1 "loss" (Some "predicted") (Some "premium") true true)
         = trace (one_object (FrameObj Pandas policies)).
Proof.
  apply (gini_missing_column (B := stable_backends)
           (one_object (FrameObj Pandas policies)) 1 policies).
  - reflexivity.
  - unfold labels. simpl. do 2 apply Exists_cons_tl. apply Exists_cons_hd. reflexivity.
Defined.





(** X9.  A target column that is itself labelled [weight], with no
    weight column given: line 56 overwrites the outcomes with ones, and
    [gini] returns [0] whatever the outcomes are. *)
Theorem gini_target_named_weight {B : Backends}
    σ data l f ranking plot ascending :
  heap σ !! data = Some (FrameObj l f) →
  has f (default "weight" ranking) →
  has f "weight" →
  gini_result σ data "weight" ranking None plot ascending = Returns (Fin 0).
Proof.
  intros Hdata Hr Ht. rewrite (gini_run σ data l f) by done.
  f_equal. by apply coefficient_same_label.
Qed.

(** A table with one column, labelled [weight]. *)
Lemma gini_target_named_weight_witness :
  gini_result (B := stable_backends)
    (one_object (FrameObj Pandas (Frame 3 {[ "weight" := rationals [1; 5; 30]%Q ]})))
    1 "weight" None None false true = Returns (Fin 0).
Proof.
  apply (gini_target_named_weight (B := stable_backends) _ _ Pandas
           (Frame 3 {[ "weight" := rationals [1; 5; 30]%Q ]})).
  - reflexivity.
  - by eexists.
  - by eexists.
Defined.

(** X10.  An outcome that is the same multiple of the weight in every row
    (one loss ratio for all): the outcomes over their sum are the
    weights over their sum, every lift is zero and [gini] returns [0],
    whatever the ranking is. *)
Theorem gini_proportional_outcome {B : Backends} {L : BackendLaws B}
    σ data l f target ranking w plot ascending c W :
  heap σ !! data = Some (FrameObj l f) →
  frame_wf f →
  has f (default target ranking) →
  cols f !! w = Some (Fin <$> W) →
  cols f !! target = Some (Fin <$> ((λ x, c * x) <$> W)) →
  c ≠ 0 → qsum W ≠ 0 →
  w ≠ target → w ≠ "cumul_total" → w ≠ "cumul_weight" →
  gini_result σ data target ranking (Some w) plot ascending = Returns (Fin 0).
Proof.
  intros Hdata Hwf Hr HW HT Hc HWs Hne Hc1 Hc2.
  assert (has f target) as Hht by (by eexists).
  assert (weight_ok f target (Some w)) as Hok by (split; [by eexists|done]).
  rewrite (gini_run σ data l f) by done. f_equal.
  rewrite coefficient_generic by done. simpl weight_col.
  rewrite (sorted_col_take l f _ ascending target _ Hwf Hr HT).
  rewrite (sorted_col_take l f _ ascending w _ Hwf Hr HW).
  set (idx := argsort l (cols f !!! default target ranking) ascending).
  assert (idx ≡ₚ seq 0 (length W)) as Hidx.
  { unfold idx. rewrite <- (length_fmap Fin W), (frame_wf_length f _ _ Hwf HW).
    rewrite <- (frame_wf_length f _ _ Hwf (has_lookup _ _ Hr)). apply argsort_perm. }
  rewrite (take_rows_fmap (λ x, c * x) idx W) by by apply perm_seq_lt.
  assert (qsum (take_rows idx W) ≠ 0) as HWs'.
  { by rewrite (qsum_perm _ _ (take_rows_perm idx W Hidx)). }
  unfold coef_cols. rewrite !ndiv_fin, norm_scale; try done.
  - rewrite col_sum_self_lift. apply signed_zero.
  - rewrite qsum_scale. by intros [?|?]%Qcmult_integral.
Qed.

(** Losses that are twice the exposure. *)
Lemma gini_proportional_outcome_witness :
  gini_result (B := stable_backends)
    (one_object (FrameObj Pandas
       (Frame 3 (list_to_map [("loss", rationals [2; 1; 4]%Q);
                              ("score", rationals [0.2; 0.9; 0.5]%Q);
                              ("exposure", rationals [1; 0.5; 2]%Q)]))))
    1 "loss" (Some "score") (Some "exposure") false true = Returns (Fin 0).
Proof.
  apply (gini_proportional_outcome (L := stable_laws) _ _ Pandas
           (Frame 3 (list_to_map [("loss", rationals [2; 1; 4]%Q);
                                  ("score", rationals [0.2; 0.9; 0.5]%Q);
                                  ("exposure", rationals [1; 0.5; 2]%Q)]))
           "loss" (Some "score") "exposure" false true (Q2Qc 2) (Q2Qc <$> [1; 0.5; 2]%Q)).
  - reflexivity.
  - apply frame_wf_decide. by vm_compute.
  - by eexists.
  - reflexivity.
  - transitivity (Some (rationals [2; 1; 4]%Q)); [reflexivity|].
    apply (f_equal Some). unfold rationals, rational. cbn [fmap list_fmap].
    repeat (apply f_equal2; [apply (f_equal Fin), Qc_is_canon; by vm_compute|]).
    reflexivity.
  - by apply Qc_neq.
  - by apply Qc_neq.
  - discriminate.
  - discriminate.
  - discriminate.
Defined.

(** X11.  A weight column with one nonzero value in every row gives the
    coefficient of the call without a weight column. *)
Theorem gini_constant_weight {B : Backends} {L : BackendLaws B}
    σ data l f target ranking w plot ascending c :
  heap σ !! data = Some (FrameObj l f) →
  frame_wf f →
  has f (default target ranking) →
  has f target →
  cols f !! w = Some (replicate (nrows f) (Fin c)) →
  c ≠ 0 →
  target ≠ "weight" →
  w ≠ target → w ≠ "cumul_total" → w ≠ "cumul_weight" →
  gini_result σ data target ranking (Some w) plot ascending
  = gini_result σ data target ranking None plot ascending.
Proof.
  intros Hdata Hwf Hr Ht HW Hc Htw Hne Hc1 Hc2.
  assert (weight_ok f target (Some w)) as Hok by (split; [by eexists|done]).
  rewrite !(gini_run σ data l f) by done. f_equal.
  rewrite !coefficient_generic by (done || by intros E; apply Htw).
  simpl weight_col. unfold sorted_col at 2. rewrite (lookup_total_cols _ _ _ HW).
  rewrite take_rows_replicate, length_argsort.
  2:{ erewrite <- frame_wf_length; [apply argsort_lt|done|by apply has_lookup]. }
  rewrite (frame_wf_length f _ _ Hwf (has_lookup _ _ Hr)).
  assert (ndiv (replicate (nrows f) (Fin c)) = ndiv (replicate (nrows f) (Fin 1))) as E.
  { destruct (nrows f) as [|n]; [done|].
    assert (0 < S n)%nat as Hn by lia.
    pose proof (qsum_ones_ne _ Hn) as Hones.
    rewrite !replicate_fin, !ndiv_fin, (norm_replicate _ c); try done.
    rewrite qsum_replicate. by intros [?|?]%Qcmult_integral. }
  unfold coef_cols. by rewrite E.
Qed.

(** The losses of [policies], each with an exposure of a half. *)
Lemma gini_constant_weight_witness :
  gini_result (B := stable_backends)
    (one_object (FrameObj Pandas
       (Frame 3 (list_to_map [("loss", rationals [0; 300; 100]%Q);
                              ("exposure", replicate 3 (rational 0.5))]))))
    1 "loss" None (Some "exposure") false true
  = gini_result (B := stable_backends)
      (one_object (FrameObj Pandas
         (Frame 3 (list_to_map [("loss", rationals [0; 300; 100]%Q);
                                ("exposure", replicate 3 (rational 0.5))]))))
      1 "loss" None None false true.
Proof.
  apply (gini_constant_weight (L := stable_laws) _ _ Pandas
           (Frame 3 (list_to_map [("loss", rationals [0; 300; 100]%Q);
                                  ("exposure", replicate 3 (rational 0.5))]))
           "loss" None "exposure" false true (Q2Qc 0.5)).
  - reflexivity.
  - apply frame_wf_decide. by vm_compute.
  - by eexists.
  - by eexists.
  - reflexivity.
  - by apply Qc_neq.
  - discriminate.
  - discriminate.
  - discriminate.
  - discriminate.
Defined.

(** X12.  The two libraries.  On tables with pairwise distinct rank
    values, the call on a pandas frame and the call on the H2O frame
    with the same columns return the same coefficient: what the two
    sorts promise leaves one order of the rows. *)
Theorem gini_same_on_both_libraries {B : Backends} {L : BackendLaws B}
    σ σ' data data' f target ranking weight plot plot' ascending K :
  heap σ !! data = Some (FrameObj Pandas f) →
  heap σ' !! data' = Some (FrameObj H2O f) →
  cols f !! default target ranking = Some (Fin <$> K) →
  NoDup K →
  has f target →
  weight_ok f target weight →
  gini_result σ data target ranking weight plot ascending
  = gini_result σ' data' target ranking weight plot' ascending.
Proof.
  intros Hdata Hdata' Hr HK Ht Hw.
  assert (has f (default target ranking)) as Hhr by (by eexists).
  rewrite (gini_run σ data Pandas f), (gini_run σ' data' H2O f) by done. f_equal.
  assert (argsort Pandas (cols f !!! default target ranking) ascending
          = argsort H2O (cols f !!! default target ranking) ascending) as E.
  { rewrite (lookup_total_cols _ _ _ Hr). apply argsort_unique; [done|..].
    - apply argsort_fin_perm.
    - apply argsort_sorted. }
  unfold coefficient_of, working_frame. by rewrite E.
Qed.

(** [policies] as a pandas frame and as an H2O frame. *)
Lemma gini_same_on_both_libraries_witness :
  gini_result (B := stable_backends) (one_object (FrameObj Pandas policies))
    1 "loss" (Some "predicted") (Some "exposure") true true
  = gini_result (B := stable_backends) (one_object (FrameObj H2O policies))
      1 "loss" (Some "predicted") (Some "exposure") false true.
Proof.
  apply (gini_same_on_both_libraries (L := stable_laws) _ _ _ _ policies
           _ _ _ _ _ _ (Q2Qc <$> [0.2; 0.9; 0.5]%Q)).
  - reflexivity.
  - reflexivity.
  - reflexivity.
  - apply (bool_decide_unpack _). by vm_compute.
  - by eexists.
  - split; [by eexists|discriminate].
Defined.

(** X13.  The order of the rows of the input.  On a table with pairwise
    distinct rank values, the table with the same rows in another order
    gives the same coefficient. *)
Theorem gini_row_order_irrelevant {B : Backends} {L : BackendLaws B}
    σ σ' data data' l f target ranking weight plot ascending π K :
  heap σ !! data = Some (FrameObj l f) →
  frame_wf f →
  cols f !! default target ranking = Some (Fin <$> K) →
  NoDup K →
  has f target →
  weight_ok f target weight →
  π ≡ₚ seq 0 (nrows f) →
  heap σ' !! data' = Some (FrameObj l (permute π f)) →
  gini_result σ' data' target ranking weight plot ascending
  = gini_result σ data target ranking weight plot ascending.
Proof.
  intros Hdata Hwf Hr HK Ht Hw Hπ Hdata'.
  assert (has f (default target ranking)) as Hhr by (by eexists).
  assert (weight_ok (permute π f) target weight) as Hw'.
  { destruct weight as [w|]; [|done]. destruct Hw. split; [|done]. by apply has_permute. }
  rewrite (gini_run σ data l f), (gini_run σ' data' l (permute π f));
    try done; try by apply has_permute.
  f_equal. apply coefficient_cols_eq; try done; try by apply has_permute.
  - by eapply sorted_col_permute.
  - apply weight_col_eq; [done|]. intros w ->. destruct Hw as [Hw _].
    by eapply sorted_col_permute.
Qed.

(** The rows of [policies], the last one first. *)
Lemma gini_row_order_irrelevant_witness :
  gini_result (B := stable_backends)
    (one_object (FrameObj Pandas (permute [2; 0; 1]%nat policies)))
    1 "loss" (Some "predicted") (Some "exposure") false true
  = gini_result (B := stable_backends) (one_object (FrameObj Pandas policies))
      1 "loss" (Some "predicted") (Some "exposure") false true.
Proof.
  apply (gini_row_order_irrelevant (L := stable_laws) _ _ _ _ Pandas policies
           _ _ _ _ _ [2; 0; 1]%nat (Q2Qc <$> [0.2; 0.9; 0.5]%Q)).
  - reflexivity.
  - apply frame_wf_decide. by vm_compute.
  - reflexivity.
  - apply (bool_decide_unpack _). by vm_compute.
  - by eexists.
  - split; [by eexists|discriminate].
  - apply (bool_decide_unpack _). by vm_compute.
  - reflexivity.
Defined.

(** X14.  The ranking counts through its order only.  Two tables of one
    library with the same target and weight columns, whose rank columns
    compare every two rows alike (as after an increasing change of
    scale of a score), give the same coefficient. *)
Theorem gini_ranking_order_only {B : Backends} {L : BackendLaws B}
    σ σ' data data' l f f' target ranking ranking' weight plot ascending K K' :
  heap σ !! data = Some (FrameObj l f) →
  heap σ' !! data' = Some (FrameObj l f') →
  nrows f = nrows f' →
  cols f !! ranking = Some (Fin <$> K) →
  cols f' !! ranking' = Some (Fin <$> K') →
  same_order K K' →
  has f target →
  cols f' !! target = cols f !! target →
  weight_ok f target weight →
  (∀ w, weight = Some w → cols f' !! w = cols f !! w) →
  gini_result σ' data' target (Some ranking') weight plot ascending
  = gini_result σ data target (Some ranking) weight plot ascending.
Proof.
  intros Hdata Hdata' Hn Hr Hr' [Hlen Hord] Ht Ht' Hw Hw'.
  assert (has f ranking) as Hhr by (by eexists).
  assert (has f' ranking') as Hhr' by (by eexists).
  assert (has f' target) as Hht' by (unfold has; by rewrite Ht').
  assert (weight_ok f' target weight) as Hok'.
  { destruct weight as [w|]; [|done]. destruct Hw. split; [|done].
    unfold has. by rewrite Hw'. }
  rewrite (gini_run σ data l f), (gini_run σ' data' l f') by done.
  f_equal. simpl default.
  assert (argsort l (cols f' !!! ranking') ascending
          = argsort l (cols f !!! ranking) ascending) as E.
  { rewrite (lookup_total_cols _ _ _ Hr), (lookup_total_cols _ _ _ Hr').
    symmetry. by apply argsort_by_order. }
  assert (∀ k, cols f' !! k = cols f !! k →
               sorted_col l f' ranking' ascending k = sorted_col l f ranking ascending k)
    as Hcol.
  { intros k Hk. unfold sorted_col. rewrite E. f_equal.
    unfold lookup_total, map_lookup_total. by rewrite Hk. }
  apply coefficient_cols_eq; try done.
  - by apply Hcol.
  - apply weight_col_eq; [done|]. intros w ->. by apply Hcol, Hw'.
Qed.

(** The losses of [policies], ranked by the place of the predicted loss. *)
Lemma gini_ranking_order_only_witness :
  gini_result (B := stable_backends)
    (one_object (FrameObj Pandas
       (Frame 3 (list_to_map [("loss", rationals [0; 300; 100]%Q);
                              ("rank", rationals [1; 3; 2]%Q)]))))
    1 "loss" (Some "rank") None false true
  = gini_result (B := stable_backends) (one_object (FrameObj Pandas policies))
      1 "loss" (Some "predicted") None false true.
Proof.
  apply (gini_ranking_order_only (L := stable_laws) _ _ _ _ Pandas policies
           (Frame 3 (list_to_map [("loss", rationals [0; 300; 100]%Q);
                                  ("rank", rationals [1; 3; 2]%Q)]))
           _ _ _ _ _ _ (Q2Qc <$> [0.2; 0.9; 0.5]%Q) (Q2Qc <$> [1; 3; 2]%Q)).
  - reflexivity.
  - reflexivity.
  - reflexivity.
  - reflexivity.
  - reflexivity.
  - split; [reflexivity|].
    intros i j x y x' y' Hx Hy Hx' Hy'.
    destruct i as [|[|[|i]]]; try discriminate Hx;
      destruct j as [|[|[|j]]]; try discriminate Hy;
      simpl in Hx, Hy, Hx', Hy'; simplify_eq; by vm_compute.
  - by eexists.
  - reflexivity.
  - exact I.
  - discriminate.
Defined.

(** X15.  The range of the coefficient.  For outcomes that are not
    negative and do not sum to zero, without a weight column and
    whatever the ranking is, [gini] on [n] rows returns a coefficient
    between [-(1 - 1/n)] and [1 - 1/n]. *)
Theorem gini_unweighted_range {B : Backends} {L : BackendLaws B}
    σ data l f target ranking plot ascending T :
  heap σ !! data = Some (FrameObj l f) →
  frame_wf f →
  has f (default target ranking) →
  cols f !! target = Some (Fin <$> T) →
  Forall (λ x, 0 ≤ x) T →
  qsum T ≠ 0 →
  ∃ g, gini_result σ data target ranking None plot ascending = Returns (Fin g)
       ∧ - (1 - 1 / qnat (nrows f)) ≤ g
       ∧ g ≤ 1 - 1 / qnat (nrows f).
Proof.
  intros Hdata Hwf Hr Ht Hnn HT.
  assert (has f target) as Hht by (by eexists).
  assert (length T = nrows f) as HlT.
  { rewrite <- (frame_wf_length f _ _ Hwf Ht). by rewrite length_fmap. }
  assert (0 < nrows f)%nat as Hn.
  { rewrite <- HlT. destruct T; [done|simpl; lia]. }
  destruct (decide (target = "weight")) as [E|Hne].
  - exists 0. rewrite (gini_run σ data l f), coefficient_same_label by done.
    split; [done|]. pose proof (qnat_inv_le _ Hn) as H.
    revert H. generalize (1 - 1 / qnat (nrows f)). intros b H.
    split; qc_to_q; lra.
  - rewrite (gini_unweighted σ data l f _ _ _ _ T) by done.
    set (idx := argsort l (cols f !!! default target ranking) ascending).
    assert (idx ≡ₚ seq 0 (length T)) as Hidx.
    { unfold idx. rewrite HlT, <- (frame_wf_length f _ _ Hwf (has_lookup _ _ Hr)).
      apply argsort_perm. }
    eexists. split; [done|].
    assert (length (take_rows idx T) = length T) as Hlen.
    { by rewrite length_take_rows, (perm_seq_length _ _ Hidx). }
    rewrite <- HlT, <- Hlen. apply qcoef_range.
    + by rewrite (take_rows_perm idx T Hidx).
    + by rewrite (qsum_perm _ _ (take_rows_perm idx T Hidx)).
Qed.

(** The losses of [policies], ranked by the predicted loss. *)
Lemma gini_unweighted_range_witness :
  ∃ g, gini_result (B := stable_backends) (one_object (FrameObj Pandas policies))
         1 "loss" (Some "predicted") None false true = Returns (Fin g)
       ∧ - (1 - 1 / qnat (nrows policies)) ≤ g
       ∧ g ≤ 1 - 1 / qnat (nrows policies).
Proof.
  apply (gini_unweighted_range (L := stable_laws) _ _ Pandas policies
           _ _ _ _ (Q2Qc <$> [0; 300; 100]%Q)).
  - reflexivity.
  - apply frame_wf_decide. by vm_compute.
  - by eexists.
  - reflexivity.
  - repeat constructor; by vm_compute.
  - by apply Qc_neq.
Defined.

(** X16.  Outcomes ranked by themselves.  For outcomes that are not
    negative and do not sum to zero, sorted by the target column itself
    and without a weight column, [gini] on [n] rows returns a
    coefficient between [0] and [1 - 1/n], in either direction of the
    sort. *)
Theorem gini_self_ranked_range {B : Backends} {L : BackendLaws B}
    σ data l f target ranking plot ascending T :
  heap σ !! data = Some (FrameObj l f) →
  frame_wf f →
  default target ranking = target →
  cols f !! target = Some (Fin <$> T) →
  Forall (λ x, 0 ≤ x) T →
  qsum T ≠ 0 →
  ∃ g, gini_result σ data target ranking None plot ascending = Returns (Fin g)
       ∧ 0 ≤ g
       ∧ g ≤ 1 - 1 / qnat (nrows f).
Proof.
  intros Hdata Hwf Hr Ht Hnn HT.
  assert (has f target) as Hht by (by eexists).
  assert (has f (default target ranking)) as Hhr by (by rewrite Hr).
  assert (length T = nrows f) as HlT.
  { rewrite <- (frame_wf_length f _ _ Hwf Ht). by rewrite length_fmap. }
  assert (0 < nrows f)%nat as Hn.
  { rewrite <- HlT. destruct T; [done|simpl; lia]. }
  destruct (decide (target = "weight")) as [E|Hne].
  - exists 0. rewrite (gini_run σ data l f), coefficient_same_label by done.
    split; [done|]. split; [done|]. by apply qnat_inv_le.
  - rewrite (gini_unweighted σ data l f _ _ _ _ T) by done.
    rewrite Hr, (lookup_total_cols _ _ _ Ht).
    set (idx := argsort l (Fin <$> T) ascending).
    assert (idx ≡ₚ seq 0 (length T)) as Hidx by apply argsort_fin_perm.
    eexists. split; [done|].
    assert (length (take_rows idx T) = length T) as Hlen.
    { by rewrite length_take_rows, (perm_seq_length _ _ Hidx). }
    assert (Forall (λ x, 0 ≤ x) (take_rows idx T)) as Hnn'.
    { by rewrite (take_rows_perm idx T Hidx). }
    assert (qsum (take_rows idx T) ≠ 0) as HT'.
    { by rewrite (qsum_perm _ _ (take_rows_perm idx T Hidx)). }
    rewrite <- HlT, <- Hlen. split.
    + apply qcoef_self_ranked; [done..|]. apply argsort_sorted.
    + by apply qcoef_range.
Qed.

(** [four_outcomes], sorted downwards. *)
Lemma gini_self_ranked_range_witness :
  ∃ g, gini_result (B := stable_backends) (one_object (FrameObj Pandas four_outcomes))
         1 "outcome" None None false false = Returns (Fin g)
       ∧ 0 ≤ g
       ∧ g ≤ 1 - 1 / qnat (nrows four_outcomes).
Proof.
  apply (gini_self_ranked_range (L := stable_laws) _ _ Pandas four_outcomes
           _ _ _ _ (Q2Qc <$> [10; 20; 30; 40]%Q)).
  - reflexivity.
  - apply frame_wf_decide. by vm_compute.
  - reflexivity.
  - reflexivity.
  - repeat constructor; by vm_compute.
  - by apply Qc_neq.
Defined.

(** X17.  One row that holds the whole outcome.  When one outcome is
    positive and the others are zero, ranked by the target column
    itself and without a weight column, [gini] on [n] rows returns
    [1 - 1/n] in either direction of the sort: the upper end of the
    range is reached. *)
Theorem gini_concentrated {B : Backends} {L : BackendLaws B}
    σ data l f target ranking plot ascending T m c :
  heap σ !! data = Some (FrameObj l f) →
  frame_wf f →
  default target ranking = target →
  cols f !! target = Some (Fin <$> T) →
  T ≡ₚ c :: replicate m 0 →
  0 < c →
  target ≠ "weight" →
  gini_result σ data target ranking None plot ascending
  = Returns (Fin (1 - 1 / qnat (nrows f))).
Proof.
  intros Hdata Hwf Hr Ht HT Hc Hne.
  assert (has f (default target ranking)) as Hhr by (rewrite Hr; by eexists).
  assert (c ≠ 0) as Hc0 by (intros ->; by apply (Qclt_not_eq _ _ Hc)).
  assert (0 ≤ c) as Hc' by by apply Qclt_le_weak.
  assert (length T = S m) as Hlen.
  { rewrite HT. simpl. by rewrite length_replicate. }
  assert (nrows f = S m) as Hn.
  { rewrite <- Hlen, <- (frame_wf_length f _ _ Hwf Ht). by rewrite length_fmap. }
  assert (qsum T ≠ 0) as HTs.
  { rewrite (qsum_perm _ _ HT), qsum_cons, qsum_replicate.
    intros E. apply Hc0. rewrite <- E. ring. }
  rewrite (gini_unweighted σ data l f _ _ _ _ T) by done.
  rewrite Hr, (lookup_total_cols _ _ _ Ht).
  rewrite (concentrated_take_rows ascending _ T m c Hc' HT);
    [|apply argsort_fin_perm|apply argsort_sorted].
  rewrite Hlen, Hn. do 2 f_equal. destruct ascending; [by apply qcoef_concentrated|].
  assert (qsum (replicate m 0 ++ [c]) ≠ 0) as Hs.
  { by rewrite <- (qsum_perm _ _ (Permutation_cons_append _ _)), <- (qsum_perm _ _ HT). }
  assert (length (replicate m 0 ++ [c]) = S m) as Hl.
  { rewrite length_app, length_replicate. simpl. lia. }
  rewrite <- (reverse_replicate (S m) 1).
  rewrite qcoef_reverse; [|done|by apply qsum_ones_ne; lia|by rewrite length_replicate].
  rewrite <- Hl at 2. rewrite gap_unweighted by done.
  rewrite qcoef_concentrated by done. ring.
Qed.

(** Four rows, the third of which holds the whole outcome. *)
Lemma gini_concentrated_witness :
  gini_result (B := stable_backends)
    (one_object (FrameObj Pandas (Frame 4 {[ "outcome" := rationals [0; 0; 7; 0]%Q ]})))
    1 "outcome" None None false true
  = Returns (Fin (1 - 1 / qnat (nrows (Frame 4 {[ "outcome" := rationals [0; 0; 7; 0]%Q ]})))).
Proof.
  apply (gini_concentrated (L := stable_laws) _ _ Pandas
           (Frame 4 {[ "outcome" := rationals [0; 0; 7; 0]%Q ]})
           "outcome" None false true (Q2Qc <$> [0; 0; 7; 0]%Q) 3 (Q2Qc 7)).
  - reflexivity.
  - apply frame_wf_decide. by vm_compute.
  - reflexivity.
  - reflexivity.
  - apply (bool_decide_unpack _). by vm_compute.
  - by vm_compute.
  - discriminate.
Defined.

(** X18.  Ranking by the outcome itself is the best ranking.  For
    outcomes with a positive sum and no weight column, the coefficient
    that [gini] returns for any ranking column is at most the one it
    returns when the rows are ranked by the target column itself, in
    the same direction of the sort. *)
Theorem gini_self_ranking_is_best {B : Backends} {L : BackendLaws B}
    σ data l f target ranking plot ascending T :
  heap σ !! data = Some (FrameObj l f) →
  frame_wf f →
  has f (default target ranking) →
  cols f !! target = Some (Fin <$> T) →
  0 < qsum T →
  ∃ g g',
    gini_result σ data target ranking None plot ascending = Returns (Fin g)
    ∧ gini_result σ data target None None plot ascending = Returns (Fin g')
    ∧ g ≤ g'.
Proof.
  intros Hdata Hwf Hr Ht Hpos.
  assert (has f target) as Hht by (by eexists).
  assert (qsum T ≠ 0) as HT.
  { intros E. rewrite E in Hpos. by apply (Qclt_not_eq _ _ Hpos). }
  destruct (decide (target = "weight")) as [E|Hne].
  - exists 0, 0. rewrite !(gini_run σ data l f), !coefficient_same_label by done.
    done.
  - rewrite !(gini_unweighted σ data l f _ _ _ _ T) by done.
    simpl default. rewrite (lookup_total_cols _ _ _ Ht).
    assert (length T = nrows f) as HlT.
    { rewrite <- (frame_wf_length f _ _ Hwf Ht). by rewrite length_fmap. }
    set (idx := argsort l (cols f !!! default target ranking) ascending).
    set (idx' := argsort l (Fin <$> T) ascending).
    assert (idx ≡ₚ seq 0 (length T)) as Hidx.
    { unfold idx. rewrite HlT, <- (frame_wf_length f _ _ Hwf (has_lookup _ _ Hr)).
      apply argsort_perm. }
    assert (idx' ≡ₚ seq 0 (length T)) as Hidx' by apply argsort_fin_perm.
    do 2 eexists. split; [done|]. split; [done|].
    assert (length (take_rows idx T) = length T) as Hlen.
    { by rewrite length_take_rows, (perm_seq_length _ _ Hidx). }
    assert (length (take_rows idx' T) = length T) as Hlen'.
    { by rewrite length_take_rows, (perm_seq_length _ _ Hidx'). }
    pose proof (qcoef_sorted_best ascending (take_rows idx T) (take_rows idx' T)) as H.
    rewrite Hlen, Hlen' in H. apply H.
    + by rewrite (qsum_perm _ _ (take_rows_perm idx T Hidx)).
    + by rewrite !take_rows_perm.
    + apply argsort_sorted.
Qed.

(** The losses of [policies], ranked by the exposure and ranked by themselves. *)
Lemma gini_self_ranking_is_best_witness :
  ∃ g g',
    gini_result (B := stable_backends) (one_object (FrameObj Pandas policies))
      1 "loss" (Some "exposure") None false true = Returns (Fin g)
    ∧ gini_result (B := stable_backends) (one_object (FrameObj Pandas policies))
        1 "loss" None None false true = Returns (Fin g')
    ∧ g ≤ g'.
Proof.
  apply (gini_self_ranking_is_best (L := stable_laws) _ _ Pandas policies
           _ _ _ _ (Q2Qc <$> [0; 300; 100]%Q)).
  - reflexivity.
  - apply frame_wf_decide. by vm_compute.
  - by eexists.
  - reflexivity.
  - by vm_compute.
Defined.

(** X19.  The range of the coefficient with weights.  For outcomes and
    weights that are not negative and do not sum to zero, [gini]
    returns a coefficient between [-2] and [2]: every running total is
    between [0] and [1], so every lift is between minus the weight of
    its row and that weight. *)
Theorem gini_weighted_range {B : Backends} {L : BackendLaws B}
    σ data l f target ranking w plot ascending T W :
  heap σ !! data = Some (FrameObj l f) →
  frame_wf f →
  has f (default target ranking) →
  cols f !! target = Some (Fin <$> T) →
  Forall (λ x, 0 ≤ x) T → qsum T ≠ 0 →
  cols f !! w = Some (Fin <$> W) →
  Forall (λ x, 0 ≤ x) W → qsum W ≠ 0 →
  w ≠ target → w ≠ "cumul_total" → w ≠ "cumul_weight" →
  ∃ g, gini_result σ data target ranking (Some w) plot ascending = Returns (Fin g)
       ∧ - 2 ≤ g ∧ g ≤ 2.
Proof.
  intros Hdata Hwf Hr Ht HT HTs HW HWn HWs Hne Hc1 Hc2.
  assert (has f target) as Hht by (by eexists).
  assert (weight_ok f target (Some w)) as Hok by (split; [by eexists|done]).
  rewrite (gini_run σ data l f) by done.
  rewrite coefficient_generic by done. simpl weight_col.
  rewrite (sorted_col_take l f _ ascending target _ Hwf Hr Ht).
  rewrite (sorted_col_take l f _ ascending w _ Hwf Hr HW).
  set (idx := argsort l (cols f !!! default target ranking) ascending).
  assert (length T = nrows f) as HlT.
  { rewrite <- (frame_wf_length f _ _ Hwf Ht). by rewrite length_fmap. }
  assert (length W = nrows f) as HlW.
  { rewrite <- (frame_wf_length f _ _ Hwf HW). by rewrite length_fmap. }
  assert (idx ≡ₚ seq 0 (nrows f)) as Hidx.
  { unfold idx. rewrite <- (frame_wf_length f _ _ Hwf (has_lookup _ _ Hr)).
    apply argsort_perm. }
  assert (take_rows idx T ≡ₚ T) as HpT by (apply take_rows_perm; by rewrite HlT).
  assert (take_rows idx W ≡ₚ W) as HpW by (apply take_rows_perm; by rewrite HlW).
  assert (qsum (take_rows idx T) ≠ 0) as HTs' by by rewrite (qsum_perm _ _ HpT).
  assert (qsum (take_rows idx W) ≠ 0) as HWs' by by rewrite (qsum_perm _ _ HpW).
  rewrite coef_cols_fin by done.
  eexists. split; [done|]. apply qcoef_weighted_range; try done.
  - by rewrite HpT.
  - by rewrite HpW.
  - by rewrite !length_take_rows.
Qed.

(** The losses of [policies], weighted by exposure. *)
Lemma gini_weighted_range_witness :
  ∃ g, gini_result (B := stable_backends) (one_object (FrameObj Pandas policies))
         1 "loss" (Some "predicted") (Some "exposure") false true = Returns (Fin g)
       ∧ - 2 ≤ g ∧ g ≤ 2.
Proof.
  apply (gini_weighted_range (L := stable_laws) _ _ Pandas policies
           _ _ _ _ _ (Q2Qc <$> [0; 300; 100]%Q) (Q2Qc <$> [1; 0.5; 2]%Q)).
  - reflexivity.
  - apply frame_wf_decide. by vm_compute.
  - by eexists.
  - reflexivity.
  - repeat constructor; by vm_compute.
  - by apply Qc_neq.
  - reflexivity.
  - repeat constructor; by vm_compute.
  - by apply Qc_neq.
  - discriminate.
  - discriminate.
  - discriminate.
Defined.

(** X20.  In exact arithmetic, for the table with outcome column
    [10, 20, 30, 40], ranked by the outcome itself, without a weight
    column and with [ascending=True], [gini] returns [0.25] on a frame
    of either library.  The outcome column is any column but one
    labelled [weight], which line 56 would overwrite. *)
Theorem gini_even_steps {B : Backends} {L : BackendLaws B}
    σ data l f target ranking plot :
  heap σ !! data = Some (FrameObj l f) →
  nrows f = 4%nat →
  cols f !! target = Some (rationals [10; 20; 30; 40]%Q) →
  default target ranking = target →
  target ≠ "weight" →
  gini_result σ data target ranking None plot true = Returns (rational 0.25).
Proof.
  intros Hdata Hn Ht Hr Hne.
  assert (has f target) as Hht by (by eexists).
  rewrite (gini_run σ data l f) by (rewrite ?Hr; done).
  rewrite coefficient_generic by (done || by intros E; apply Hne).
  unfold sorted_col, weight_col. rewrite Hr, (lookup_total_cols _ _ _ Ht), Hn.
  rewrite rationals_fin, argsort_ascending_id.
  - rewrite <- (length_fmap Fin), take_rows_seq, replicate_fin.
    rewrite coef_cols_fin by (by apply Qc_neq).
    unfold rational. f_equal. f_equal. apply Qc_is_canon. by vm_compute.
  - apply (bool_decide_unpack _). by vm_compute.
  - repeat constructor; by vm_compute.
Qed.

(** [four_outcomes] is that table. *)
Lemma gini_even_steps_witness :
  gini_result (B := stable_backends) (one_object (FrameObj Pandas four_outcomes))
    1 "outcome" None None true true
  = Returns (rational 0.25).
Proof.
  apply (gini_even_steps (L := stable_laws) _ _ Pandas four_outcomes);
    [reflexivity | reflexivity | reflexivity | reflexivity | discriminate].
Defined.

(** X21.  For every [data] whose type name contains neither [pandas] nor
    [H2OFrame], [gini] prints its error message and returns [-1]; no
    object is read or written. *)
Theorem gini_invalid_type {B : Backends} σ data o target ranking weight plot ascending :
  heap σ !! data = Some o →
  contains "pandas" (type_str o) = false →
  contains "H2OFrame" (type_str o) = false →
  gini data target ranking weight plot ascending σ
  = (Returns (Fin (-1)),
     World (heap σ) (trace σ ++ [Printed (invalid_type_message (type_str o))])).
Proof.
  intros Hdata Hp Hh. unfold gini, type_of, lookup_obj, mbind, py_bind.
  rewrite Hdata. simpl. by rewrite Hp, Hh.
Qed.

(** A Python list is such a value. *)
Lemma gini_invalid_type_witness :
  gini (B := stable_backends) 1 "outcome" None None true true
    (one_object (Opaque "<class 'list'>"))
  = (Returns (Fin (-1)),
     World (heap (one_object (Opaque "<class 'list'>")))
       [Printed "Error: Invalid data type <class 'list'> . Expected Pandas DataFrame or H2OFrame."]).
Proof.
  apply (gini_invalid_type (B := stable_backends) (one_object (Opaque "<class 'list'>"))
           1 (Opaque "<class 'list'>"));
    reflexivity.
Defined.

(** X22.  In the arithmetic of pandas, for a frame of four rows whose
    outcomes are all [5], stored as integers or as doubles, with any
    ranking column and no weight column, [gini] returns a zero: [0.0]
    with [ascending=True] and [-0.0] with [ascending=False].  The
    outcome column is not labelled [weight]. *)
Theorem gini_equal_fives {B : Backends} {L : BackendLaws B}
    (data : gmap string column64) target ranking keys c ascending :
  data !! target = Some c →
  c = Int64 (replicate 4 5%Z) ∨ c = Float64 (replicate 4 (double 5)) →
  data !! default target ranking = Some keys →
  length64 keys = 4%nat →
  target ≠ "weight" →
  gini64 data target ranking None ascending
  = Returns (FloatVal (SpecFloat.S754_zero (negb ascending))).
Proof.
  intros Ht Hc Hk Hlen Hne.
  unfold gini64, sorted_table64. cbn zeta. rewrite Hk.
  rewrite lookup_fmap, Ht. cbn [fmap option_fmap option_map].
  set (idx := argsort Pandas (keys64 keys) ascending).
  assert (length idx = 4%nat) as Hl.
  { unfold idx. by rewrite length_argsort, length_keys64. }
  assert (take_rows64 idx c = c) as ->.
  { apply (take_rows64_replicate idx 4); [|done|].
    - rewrite <- Hlen, <- length_keys64. apply argsort_lt.
    - destruct Hc as [-> | ->]; [left|right]; by eexists. }
  rewrite Hl.
  rewrite lookup_total_insert_ne by done.
  rewrite lookup_total_singleton_eq.
  rewrite gini_index64_unweighted by done.
  destruct Hc as [-> | ->]; destruct ascending; by vm_compute.
Qed.

(** Four outcomes of [5] as integers, ranked downwards by a score. *)
Lemma gini_equal_fives_witness :
  gini64 (B := stable_backends)
    (list_to_map [("outcome", Int64 (replicate 4 5%Z));
                  ("score", Float64 (double <$> [0.3; 0.1; 0.4; 0.1]%Q))])
    "outcome" (Some "score") None false
  = Returns (FloatVal (SpecFloat.S754_zero (negb false))).
Proof.
  apply (gini_equal_fives (L := stable_laws) _ "outcome" (Some "score")
           (Float64 (double <$> [0.3; 0.1; 0.4; 0.1]%Q)) (Int64 (replicate 4 5%Z))).
  - reflexivity.
  - by left.
  - reflexivity.
  - reflexivity.
  - discriminate.
Defined.
